(** * hatchet: the GraphFrame algebra of [hatchet/graphframe.py]

    A shallow embedding of [GraphFrame] (squash, subtree/subgraph sums,
    unify and the arithmetic operators, filter) over an explicit object
    store, and the properties of the specification proved or refuted on it.

    Python objects live in a store ([world]): Node, Graph and GraphFrame
    objects are addressed by their position in an arena, which plays the role
    of Python's object identity ([is], and [==] on nodes).  Metric values are
    taken in [Z]. *)

From stdpp Require Import gmap strings list fin_maps sorting.
From Stdlib Require Import ZArith.

Local Open Scope string_scope.
Local Open Scope list_scope.

(** ** Exceptions and the two monads *)

Inductive exn :=
  | ValueError
  | KeyError
  | TypeError
  | InvalidFilter
  | EmptyFilter
  | RecursionError
  | Dangling.

Inductive result (A : Type) :=
  | Ok (a : A)
  | Raise (e : exn).
Arguments Ok {A} a.
Arguments Raise {A} e.

Global Instance exn_eq_dec : EqDecision exn.
Proof. solve_decision. Defined.

Global Instance result_ret : MRet result := @Ok.
Global Instance result_bind : MBind result := λ A B f m,
  match m with
  | Ok a => f a
  | Raise e => Raise e
  end.

Definition is_Ok {A} (r : result A) : Prop :=
  match r with Ok _ => True | Raise _ => False end.

Global Instance result_fmap : FMap result := λ A B f m,
  match m with
  | Ok a => Ok (f a)
  | Raise e => Raise e
  end.

(** [for x in l: s = body(x, s)] where the body may raise. *)
Fixpoint for_each {A S : Type} (body : A → S → result S) (l : list A) (s : S)
  : result S :=
  match l with
  | [] => Ok s
  | x :: l' => s' ← body x s; for_each body l' s'
  end.

(** ** Frame, Node and Graph objects *)

(** Modelled from the spec: the Frame class (hatchet/frame.py is not part of
    the sources at hand): an immutable mapping of attribute names to values
    with structural equality. *)
Definition Frame : Type := gmap string string.

(** Modelled from the spec: the Node class (hatchet/node.py): an identity
    (here the arena address of the object), the owned Frame, the
    traversal-order id [_hatchet_nid] and the parent and child references. *)
Record Node := mkNode {
  frame : Frame;
  _hatchet_nid : Z;
  parents : list nat;
  children : list nat;
}.

Global Instance Node_eq_dec : EqDecision Node.
Proof. solve_decision. Defined.

Definition set_nid (i : Z) (n : Node) : Node :=
  mkNode (frame n) i (parents n) (children n).
Definition set_parents (ps : list nat) (n : Node) : Node :=
  mkNode (frame n) (_hatchet_nid n) ps (children n).
Definition set_children (cs : list nat) (n : Node) : Node :=
  mkNode (frame n) (_hatchet_nid n) (parents n) cs.

(** Modelled from the spec: the Graph class (hatchet/graph.py): an ordered
    sequence of root nodes. *)
Record Graph := mkGraph { roots : list nat }.

Global Instance Graph_eq_dec : EqDecision Graph.
Proof. solve_decision. Defined.

(** Reading through a node reference.  References held by Python objects are
    never dangling; a reference outside the arena reads as a node without
    edges and writes through it are lost. *)
Definition node_children (ns : list Node) (n : nat) : list nat :=
  default [] (children <$> ns !! n).
Definition node_parents (ns : list Node) (n : nat) : list nat :=
  default [] (parents <$> ns !! n).
Definition node_frame (ns : list Node) (n : nat) : Frame :=
  default ∅ (frame <$> ns !! n).
Definition node_nid (ns : list Node) (n : nat) : Z :=
  default (-1)%Z (_hatchet_nid <$> ns !! n).

(** Modelled from the spec: [Node.add_child] and [Node.add_parent] append
    one reference to the receiver's edge list. *)
Definition Node_add_child (p c : nat) (ns : list Node) : list Node :=
  alter (λ nd, set_children (children nd ++ [c]) nd) p ns.
Definition Node_add_parent (c p : nat) (ns : list Node) : list Node :=
  alter (λ nd, set_parents (parents nd ++ [p]) nd) c ns.

(** Modelled from the spec: [Node.copy()] "produces a new Node with the same
    Frame and no parent/child edges"; the new object is allocated at the end
    of the arena and its address returned. *)
Definition Node_copy (n : nat) (ns : list Node) : nat * list Node :=
  (length ns, ns ++ [mkNode (node_frame ns n) (-1)%Z [] []]).

(** Modelled from the spec: [Node.traverse] and [Graph.traverse(order)]: the
    finite sequence of nodes reachable from a node (from the roots, in root
    order), each once, in preorder or postorder; children are taken in the
    order of the child list.  The recursion depth is bounded by the number of
    objects in the arena; [fuel] is that bound. *)
Fixpoint Node_traverse (fuel : nat) (ns : list Node) (post : bool) (n : nat)
    (seen : gset nat) : result (list nat * gset nat) :=
  match fuel with
  | O => Raise RecursionError
  | S fuel =>
    if decide (n ∈ seen) then Ok ([], seen)
    else
      '(sub, seen') ← for_each
          (λ c '(acc, sn),
             '(l, sn') ← Node_traverse fuel ns post c sn; Ok (acc ++ l, sn'))
          (node_children ns n) ([], {[n]} ∪ seen);
      Ok (if post then sub ++ [n] else n :: sub, seen')
  end.

Definition traverse_from (ns : list Node) (post : bool) (starts : list nat)
  : result (list nat) :=
  fst <$> for_each
    (λ r '(acc, sn),
       '(l, sn') ← Node_traverse (S (length ns)) ns post r sn; Ok (acc ++ l, sn'))
    starts ([], ∅).

Definition Graph_traverse (ns : list Node) (post : bool) (g : Graph)
  : result (list nat) :=
  traverse_from ns post (roots g).

(** Modelled from the spec: [Graph.enumerate_traverse()] assigns the
    traversal-order numbering: the position of each node in the preorder. *)
Definition Graph_enumerate_traverse (g : Graph) (ns : list Node)
  : result (list Node) :=
  order ← Graph_traverse ns false g;
  Ok (foldr (λ '(i, n) acc, alter (set_nid (Z.of_nat i)) n acc) ns
        (imap (λ i n, (i, n)) order)).

(** Modelled from the spec: [Graph.is_tree()] "is true iff every non-root
    node has exactly one parent". *)
Definition Graph_is_tree (ns : list Node) (g : Graph) : result bool :=
  order ← Graph_traverse ns false g;
  Ok (forallb (λ n, bool_decide (n ∈ roots g)
                    || bool_decide (length (node_parents ns n) = 1%nat)) order).

(** Modelled from the spec: [Graph.normalize()] "merges sibling nodes that
    ended up with identical Frames under the same parent ..., returning a
    mapping old-surviving-node → merged-node for the caller to apply to its
    table".  Two siblings with one frame are merged into the earlier one,
    which takes over the edges of the other; every reference to the merged
    node is redirected, and this is repeated until no node has two children
    with one frame. *)
Fixpoint find_dup (ns : list Node) (l : list nat) : option (nat * nat) :=
  match l with
  | [] => None
  | a :: l' =>
    match List.find (λ b, bool_decide (b ≠ a ∧ node_frame ns b = node_frame ns a)) l' with
    | Some b => Some (a, b)
    | None => find_dup ns l'
    end
  end.

Fixpoint find_merge (ns : list Node) (order : list nat) : option (nat * nat) :=
  match order with
  | [] => None
  | n :: order' =>
    match find_dup ns (node_children ns n) with
    | Some ab => Some ab
    | None => find_merge ns order'
    end
  end.

Definition redirect (a b : nat) (x : nat) : nat := if decide (x = b) then a else x.

Definition subst_ref (a b : nat) (l : list nat) : list nat :=
  remove_dups (redirect a b <$> l).

Definition merge_nodes (a b : nat) (ns : list Node) : list Node :=
  imap (λ i nd,
          let cs := if decide (i = a) then children nd ++ node_children ns b
                    else children nd in
          let ps := if decide (i = a) then parents nd ++ node_parents ns b
                    else parents nd in
          mkNode (frame nd) (_hatchet_nid nd) (subst_ref a b ps) (subst_ref a b cs))
       ns.

(** the mapping after [b] has been merged into [a]: what was sent to [b]
    is sent to [a], and so is [b] itself *)
Definition record_merge (a b : nat) (merges : gmap nat nat) : gmap nat nat :=
  let merges' := redirect a b <$> merges in
  match merges' !! b with
  | Some _ => merges'
  | None => <[b := a]> merges'
  end.

Fixpoint normalize_loop (fuel : nat) (ns : list Node) (rs : list nat)
    (merges : gmap nat nat) : result (list Node * list nat * gmap nat nat) :=
  match fuel with
  | O => Raise RecursionError
  | S fuel =>
    order ← traverse_from ns false rs;
    match find_merge ns order with
    | None => Ok (ns, rs, merges)
    | Some (a, b) =>
      normalize_loop fuel (merge_nodes a b ns) (subst_ref a b rs)
        (record_merge a b merges)
    end
  end.

Definition Graph_normalize (g : Graph) (ns : list Node)
  : result (list Node * Graph * gmap nat nat) :=
  '(ns', rs, merges) ← normalize_loop (S (length ns)) ns (roots g) ∅;
  Ok (ns', mkGraph rs, merges).

(** Modelled from the spec: [Graph.union(other, node_map)]: "a synchronized
    traversal that matches nodes by Frame equality along matching call-paths
    starting from roots"; nodes matched on both sides are unified into one
    node of the result, a node of one side only is copied with its subtree,
    and [node_map] sends every old node to the node of the result.  A node
    that is reached again (a node with several parents) is matched with the
    node of the result it has been sent to, and the traversal goes on below
    it, so that the children of every node matched with it are merged and
    entered in [node_map] as well. *)
Definition union_link (parent : option nat) (n : nat) (ns : list Node) : list Node :=
  match parent with
  | Some p =>
    if decide (n ∈ node_children ns p) then ns
    else Node_add_parent n p (Node_add_child p n ns)
  | None => ns
  end.

Fixpoint union_merge (fuel : nat) (ss os : list nat) (parent : option nat)
    (st : list Node * gmap nat nat)
  : result (list nat * (list Node * gmap nat nat)) :=
  match fuel with
  | O => Raise RecursionError
  | S fuel =>
    for_each
      (λ f '(acc, (ns, nm)),
         let s_nodes := List.filter (λ n, bool_decide (node_frame ns n = f)) ss in
         let o_nodes := List.filter (λ n, bool_decide (node_frame ns n = f)) os in
         let olds := s_nodes ++ o_nodes in
         let bind_all (new : nat) := foldr (λ o m, <[o := new]> m) nm olds in
         let '(new, ns1) :=
           match omap (λ o, nm !! o) olds with
           | new :: _ => (new, ns)
           | [] => Node_copy (default O (head olds)) ns
           end in
         '(_, st') ← union_merge fuel
             (flat_map (node_children ns) s_nodes)
             (flat_map (node_children ns) o_nodes)
             (Some new) (union_link parent new ns1, bind_all new);
         Ok (acc ++ [new], st'))
      (remove_dups (node_frame (st.1) <$> (ss ++ os))) ([], st)
  end.

Definition Graph_union (g other : Graph) (ns : list Node)
  : result (Graph * gmap nat nat * list Node) :=
  '(rs, (ns', node_map)) ←
     union_merge (S (length ns)) (roots g) (roots other) None (ns, ∅);
  Ok (mkGraph rs, node_map, ns').

(** ** The metric table: the part of pandas that the code uses

    A DataFrame is kept as its list of rows.  A row carries its index levels
    (the node and the values of the secondary levels, such as rank and
    thread) next to its cells, so [reset_index] and [set_index(index_names)]
    leave the representation as it is.  A cell that is absent from a row
    whose column exists is pandas' NaN.  pandas sorts the rows of a grouped
    or appended table by key with the ordering of Node; the properties below
    read rows by key, and the model keeps rows in order of first
    occurrence. *)

Inductive cell :=
  | Num (z : Z)
  | Str (s : string).

Global Instance cell_eq_dec : EqDecision cell.
Proof. solve_decision. Defined.

Record Row := mkRow {
  r_node : nat;
  r_sec : list Z;
  r_cells : gmap string cell;
}.

Global Instance Row_eq_dec : EqDecision Row.
Proof. solve_decision. Defined.

Record DataFrame := mkDF {
  index_names : list string;
  columns : list string;
  rows : list Row;
}.

Global Instance DataFrame_eq_dec : EqDecision DataFrame.
Proof. solve_decision. Defined.

Definition row_key (r : Row) : nat * list Z := (r_node r, r_sec r).
Definition set_row_cells (cs : gmap string cell) (r : Row) : Row :=
  mkRow (r_node r) (r_sec r) cs.
Definition set_rows (rs : list Row) (df : DataFrame) : DataFrame :=
  mkDF (index_names df) (columns df) rs.

(** [isinstance(df.index, pd.MultiIndex)] *)
Definition is_multiindex (df : DataFrame) : bool :=
  bool_decide (1 < length (index_names df))%nat.

(** [df["node"]] after [reset_index] *)
Definition df_nodes (df : DataFrame) : list nat := r_node <$> rows df.

(** [df["node"] = df["node"].apply(f)] *)
Definition df_apply_node (f : nat → result nat) (df : DataFrame) : result DataFrame :=
  rs ← mapM (λ r, n ← f (r_node r); Ok (mkRow n (r_sec r) (r_cells r))) (rows df);
  Ok (set_rows rs df).

(** [d[k]] on a dict: KeyError when the key is absent *)
Definition dict_get {K V} `{Countable K} (d : gmap K V) (k : K) : result V :=
  match d !! k with
  | Some v => Ok v
  | None => Raise KeyError
  end.

(** [a + b] on two cells; numbers add, strings concatenate *)
Definition cell_add (a b : cell) : result cell :=
  match a, b with
  | Num x, Num y => Ok (Num (x + y))
  | Str x, Str y => Ok (Str (x +:+ y))
  | _, _ => Raise TypeError
  end.

(** [a - b] and [a * b] on two cells: defined on numbers, TypeError on
    strings *)
Definition cell_sub (a b : cell) : result cell :=
  match a, b with
  | Num x, Num y => Ok (Num (x - y))
  | _, _ => Raise TypeError
  end.

Definition cell_mul (a b : cell) : result cell :=
  match a, b with
  | Num x, Num y => Ok (Num (x * y))
  | _, _ => Raise TypeError
  end.

(** [np.sum] of the values of one column: NaN is skipped, the empty sum is 0 *)
Definition np_sum (cs : list cell) : result cell :=
  match cs with
  | [] => Ok (Num 0)
  | c :: cs' => for_each (λ x acc, cell_add acc x) cs' c
  end.

(** the values of one column in a selection of rows, NaN left out *)
Definition column_values (col : string) (rs : list Row) : list cell :=
  omap (λ r, r_cells r !! col) rs.

(** [function(selection)] for a column-wise reduction such as [np.sum]: one
    value per column of the selection *)
Definition reduce_columns (function : list cell → result cell)
    (cols : list string) (rs : list Row) : result (list cell) :=
  mapM (λ c, function (column_values c rs)) cols.

(** [df[out] = df[col]]: KeyError when [col] is no column; [out] is added to
    the columns when it is new *)
Definition df_copy_column (out col : string) (df : DataFrame) : result DataFrame :=
  if decide (col ∈ columns df) then
    Ok (mkDF (index_names df)
          (if decide (out ∈ columns df) then columns df else columns df ++ [out])
          ((λ r, set_row_cells
                   (match r_cells r !! col with
                    | Some c => <[out := c]> (r_cells r)
                    | None => delete out (r_cells r)
                    end) r) <$> rows df))
  else Raise KeyError.

Definition has_columns (cols : list string) (df : DataFrame) : bool :=
  forallb (λ c, bool_decide (c ∈ columns df)) cols.

(** [df.loc[labels, cols]] with a list of node labels: the rows of each label
    in turn; KeyError when a label has no row or a column is missing *)
Definition loc_nodes (labels : list nat) (cols : list string) (df : DataFrame)
  : result (list Row) :=
  if has_columns cols df
     && forallb (λ n, bool_decide (n ∈ df_nodes df)) labels
  then Ok (flat_map (λ n, List.filter (λ r, bool_decide (r_node r = n)) (rows df)) labels)
  else Raise KeyError.

(** [df.loc[(node), cols].index.unique()] on a MultiIndex: the secondary keys
    of the rows of [node] *)
Definition loc_node_index (n : nat) (cols : list string) (df : DataFrame)
  : result (list (list Z)) :=
  if has_columns cols df && bool_decide (n ∈ df_nodes df)
  then Ok (remove_dups (r_sec <$> List.filter (λ r, bool_decide (r_node r = n)) (rows df)))
  else Raise KeyError.

(** [df.loc[(labels, i), cols]] on a MultiIndex: the rows of the labels whose
    secondary key is [i] *)
Definition loc_nodes_sec (labels : list nat) (i : list Z) (cols : list string)
    (df : DataFrame) : result (list Row) :=
  if has_columns cols df
  then Ok (List.filter (λ r, bool_decide (r_node r ∈ labels ∧ r_sec r = i)) (rows df))
  else Raise KeyError.

Definition assign_cells (outs : list string) (vals : list cell)
    (cs : gmap string cell) : gmap string cell :=
  foldr (λ '(o, v) m, <[o := v]> m) cs (zip outs vals).

(** [df.loc[node, outs] = vals] for a list [vals]: written to every row of
    [node] *)
Definition loc_set_node (n : nat) (outs : list string) (vals : list cell)
    (df : DataFrame) : DataFrame :=
  set_rows ((λ r, if decide (r_node r = n)
                  then set_row_cells (assign_cells outs vals (r_cells r)) r
                  else r) <$> rows df) df.

(** [node] labels exactly one row of a single-level index: [df.loc[node, ...]]
    addresses that row by position *)
Definition labels_one_row (n : nat) (df : DataFrame) : bool :=
  negb (is_multiindex df)
  && bool_decide (length (List.filter (λ r, bool_decide (r_node r = n)) (rows df)) = 1%nat).

(** [df.loc[node, outs] = s] for a Series [s] indexed by the column names,
    which is what [function] returns on a table: when [node] labels one row
    of a single-level index the values are written to it; when [node]
    selects a block of rows (several rows with this label, or a MultiIndex)
    pandas aligns [s] on the row labels of the block, finds none of them in
    the index of [s], and writes NaN to the block *)
Definition loc_set_node_series (n : nat) (outs : list string) (vals : list cell)
    (df : DataFrame) : DataFrame :=
  if labels_one_row n df then loc_set_node n outs vals df
  else
    set_rows ((λ r, if decide (r_node r = n)
                    then set_row_cells (foldr delete (r_cells r) outs) r
                    else r) <$> rows df) df.

(** [df.loc[(node, i), outs] = vals] *)
Definition loc_set_node_sec (n : nat) (i : list Z) (outs : list string)
    (vals : list cell) (df : DataFrame) : DataFrame :=
  set_rows ((λ r, if decide (r_node r = n ∧ r_sec r = i)
                  then set_row_cells (assign_cells outs vals (r_cells r)) r
                  else r) <$> rows df) df.

(** [df.groupby(index_names).agg(agg_dict)] for the [agg_dict] of squash:
    [np.sum] on the metric columns, the first value on the others *)
Definition agg_group (metrics : list string) (cols : list string) (grp : list Row)
  : result (gmap string cell) :=
  for_each
    (λ col acc,
       if decide (col ∈ metrics) then
         v ← np_sum (column_values col grp); Ok (<[col := v]> acc)
       else
         match head grp ≫= (λ r, r_cells r !! col) with
         | Some v => Ok (<[col := v]> acc)
         | None => Ok acc
         end)
    cols ∅.

Definition groupby_agg (metrics : list string) (df : DataFrame) : result DataFrame :=
  rs ← mapM (λ k, cs ← agg_group metrics (columns df)
                          (List.filter (λ r, bool_decide (row_key r = k)) (rows df));
                  Ok (mkRow k.1 k.2 cs))
            (remove_dups (row_key <$> rows df));
  Ok (set_rows rs df).

(** the aggregation of one group with [function] on the metric columns and
    the first value on the others *)
Definition agg_group_by (function : list cell → result cell) (metrics : list string)
    (cols : list string) (grp : list Row) : result (gmap string cell) :=
  for_each
    (λ col acc,
       if decide (col ∈ metrics) then
         v ← function (column_values col grp); Ok (<[col := v]> acc)
       else
         match head grp ≫= (λ r, r_cells r !! col) with
         | Some v => Ok (<[col := v]> acc)
         | None => Ok acc
         end)
    cols ∅.

(** [df.reset_index(level="node", inplace=True)]: the node level leaves the
    index (whose remaining levels are [index_names]) and becomes the first
    column of the table; its values stay in [r_node].  ValueError when the
    table has a column "node" already. *)
Definition reset_index_node (index_names : list string) (df : DataFrame)
  : result DataFrame :=
  if decide ("node" ∈ columns df) then Raise ValueError
  else Ok (mkDF index_names ("node" :: columns df) (rows df)).

(** [df.groupby("node").agg(agg_dict)] after [reset_index(level="node")],
    where [cols] are the keys of [agg_dict]: one row for each node, indexed
    by the node alone, with the columns [cols].  The rows are listed by the
    first row of each node; pandas lists them by the order of the Node
    objects, which is defined outside this file. *)
Definition groupby_node_agg (function : list cell → result cell)
    (metrics cols : list string) (df : DataFrame) : result DataFrame :=
  rs ← mapM (λ n, cs ← agg_group_by function metrics cols
                          (List.filter (λ r, bool_decide (r_node r = n)) (rows df));
                  Ok (mkRow n [] cs))
            (remove_dups (df_nodes df));
  Ok (mkDF ["node"] cols rs).

(** [l.remove(x)] on a list: the first occurrence is removed; [None] stands
    for the ValueError when there is none *)
Fixpoint list_remove_first (x : string) (l : list string) : option (list string) :=
  match l with
  | [] => None
  | y :: l' => if decide (y = x) then Some l'
               else (y ::.) <$> list_remove_first x l'
  end.

(** [df[~df.index.isin(other.index)]] *)
Definition not_isin (df other : DataFrame) : list Row :=
  List.filter (λ r, bool_decide (row_key r ∉ (row_key <$> rows other))) (rows df).

(** [df.empty]: some axis has length 0 *)
Definition df_empty (df : DataFrame) : bool :=
  bool_decide (rows df = []) || bool_decide (columns df = []).

(** [new_df = pd.DataFrame(index=df.index); new_df["_missing_node"] = "";
    df.join(new_df)]: a left join on the index, so a row whose key occurs k
    times is matched k times; ValueError when the column already exists *)
Definition join_missing_node (df : DataFrame) : result DataFrame :=
  if decide ("_missing_node" ∈ columns df) then Raise ValueError
  else
    Ok (mkDF (index_names df) (columns df ++ ["_missing_node"])
          (flat_map
             (λ r, replicate
                     (length (List.filter (λ r', bool_decide (row_key r' = row_key r))
                                (rows df)))
                     (set_row_cells (<["_missing_node" := Str ""]> (r_cells r)) r))
             (rows df))).

(** [df.at[i, col] = v]: written to the rows with index label [i]; the column
    is added when it is new *)
Definition at_set (i : nat * list Z) (col : string) (v : cell) (df : DataFrame)
  : DataFrame :=
  mkDF (index_names df)
    (if decide (col ∈ columns df) then columns df else columns df ++ [col])
    ((λ r, if decide (row_key r = i)
           then set_row_cells (<[col := v]> (r_cells r)) r else r) <$> rows df).

(** the order of Python on strings (by code point) *)
Definition string_le : relation string := λ a b, String.leb a b = true.

Global Instance string_le_dec : RelDecision string_le.
Proof. intros a b. unfold string_le. apply _. Defined.

(** [df.append(other, sort=True)]: the rows of both, over the columns of
    both, which [sort=True] puts in sorted order *)
Definition df_append (df other : DataFrame) : DataFrame :=
  mkDF (index_names df)
    (merge_sort string_le (remove_dups (columns df ++ columns other)))
    (rows df ++ rows other).

(** One row of [df.update(df.add(other[metrics]))]: a metric cell is replaced
    by the sum when both operands have a value there, and kept otherwise
    (the sum is NaN, which [update] skips). *)
Definition add_row (op : cell → cell → result cell) (metrics : list string)
    (r o : Row) : result Row :=
  cs ← for_each
         (λ m acc,
            match r_cells r !! m, r_cells o !! m with
            | Some a, Some b => v ← op a b; Ok (<[m := v]> acc)
            | _, _ => Ok acc
            end)
         metrics (r_cells r);
  Ok (set_row_cells cs r).

(** [df.update(op(other[metrics]))] where [op] is the arithmetic method of
    [df] itself: KeyError when [other] lacks a metric column; operands with
    the same index are combined row by row, operands with different indexes
    are aligned by label, which pandas refuses when a label is duplicated. *)
Definition df_update_op (op : cell → cell → result cell) (metrics : list string)
    (df other : DataFrame) : result DataFrame :=
  if has_columns metrics other then
    if decide (row_key <$> rows df = row_key <$> rows other) then
      rs ← mapM (λ '(r, o), add_row op metrics r o) (zip (rows df) (rows other));
      Ok (set_rows rs df)
    else if decide (NoDup (row_key <$> rows df) ∧ NoDup (row_key <$> rows other)) then
      rs ← mapM (λ r, match List.find (λ o, bool_decide (row_key o = row_key r))
                              (rows other) with
                      | Some o => add_row op metrics r o
                      | None => Ok r
                      end) (rows df);
      Ok (set_rows rs df)
    else Raise ValueError
  else Raise KeyError.

(** ** The object store and the monad of the methods *)

Record GraphFrame := mkGF {
  graph : nat;
  dataframe : DataFrame;
  exc_metrics : list string;
  inc_metrics : list string;
}.

Global Instance GraphFrame_eq_dec : EqDecision GraphFrame.
Proof. solve_decision. Defined.

Definition set_dataframe (df : DataFrame) (gf : GraphFrame) : GraphFrame :=
  mkGF (graph gf) df (exc_metrics gf) (inc_metrics gf).
Definition set_graph (g : nat) (gf : GraphFrame) : GraphFrame :=
  mkGF g (dataframe gf) (exc_metrics gf) (inc_metrics gf).
Definition set_inc_metrics (inc : list string) (gf : GraphFrame) : GraphFrame :=
  mkGF (graph gf) (dataframe gf) (exc_metrics gf) inc.

Record world := mkWorld {
  nodes : list Node;
  graphs : list Graph;
  gframes : list GraphFrame;
}.

(** A method runs on the store and leaves a store behind, also when it
    raises. *)
Definition Py (A : Type) : Type := world → result A * world.

Global Instance Py_ret : MRet Py := λ A a w, (Ok a, w).
Global Instance Py_bind : MBind Py := λ A B f m w,
  match m w with
  | (Ok a, w') => f a w'
  | (Raise e, w') => (Raise e, w')
  end.

Definition py_raise {A} (e : exn) : Py A := λ w, (Raise e, w).
Definition lift {A} (r : result A) : Py A := λ w, (r, w).

Definition get_nodes : Py (list Node) := λ w, (Ok (nodes w), w).
Definition put_nodes (ns : list Node) : Py unit :=
  λ w, (Ok tt, mkWorld ns (graphs w) (gframes w)).

Definition get_graph (g : nat) : Py Graph := λ w,
  match graphs w !! g with
  | Some gr => (Ok gr, w)
  | None => (Raise Dangling, w)
  end.
Definition put_graph (g : nat) (gr : Graph) : Py unit :=
  λ w, (Ok tt, mkWorld (nodes w) (<[g := gr]> (graphs w)) (gframes w)).
(** [Graph(roots)] *)
Definition new_graph (gr : Graph) : Py nat :=
  λ w, (Ok (length (graphs w)), mkWorld (nodes w) (graphs w ++ [gr]) (gframes w)).

Definition get_gf (self : nat) : Py GraphFrame := λ w,
  match gframes w !! self with
  | Some gf => (Ok gf, w)
  | None => (Raise Dangling, w)
  end.
Definition put_gf (self : nat) (gf : GraphFrame) : Py unit :=
  λ w, (Ok tt, mkWorld (nodes w) (graphs w) (<[self := gf]> (gframes w))).

(** [self.dataframe = f(self.dataframe)], or an in-place change of it *)
Definition update_dataframe (self : nat) (f : DataFrame → result DataFrame)
  : Py unit :=
  gf ← get_gf self;
  df ← lift (f (dataframe gf));
  put_gf self (set_dataframe df gf).

Fixpoint py_for {A : Type} (l : list A) (body : A → Py unit) : Py unit :=
  match l with
  | [] => mret tt
  | x :: l' => _ ← body x; py_for l' body
  end.

(** ** GraphFrame (hatchet/graphframe.py) *)

(** The argument of [filter]: a callable on rows, a query path list, a
    QueryMatcher object, or anything else.  The query language is outside
    the sources at hand; a query is given by what its [apply] returns, the
    list of matched paths. *)
Inductive filter_arg :=
  | Callable (f : Row → result bool)
  | QueryList (apply : world → nat → result (list (list nat)))
  | QueryMatcher (apply : world → nat → result (list (list nat)))
  | OtherObject.

(** The closure state of [rewire] inside [squash]: the node arena (the new
    nodes are linked in place), [new_roots], [connections] and [visited]. *)
Record rewire_state := mkRW {
  rw_nodes : list Node;
  new_roots : list nat;
  connections : gmap nat (gset nat);
  visited : gset nat;
}.

Module GraphFrame.

(** [GraphFrame(graph, dataframe, exc_metrics, inc_metrics)] *)
Definition __init__ (g : nat) (df : DataFrame) (exc inc : list string) : Py nat :=
  if decide ("node" ∈ index_names df) then
    λ w, (Ok (length (gframes w)),
          mkWorld (nodes w) (graphs w) (gframes w ++ [mkGF g df exc inc]))
  else py_raise ValueError.

Definition copy (self : nat) : Py nat :=
  gf ← get_gf self;
  __init__ (graph gf) (dataframe gf) (exc_metrics gf) (inc_metrics gf).

(** [drop_index_levels]: [agg_dict] is made from the columns of the table
    as they are at the call; [reset_index(level="node", inplace=True)] then
    takes the node out of the index of the table, before the groups are
    aggregated *)
Definition drop_index_levels (self : nat) (function : list cell → result cell)
  : Py unit :=
  gf ← get_gf self;
  match list_remove_first "node" (index_names (dataframe gf)) with
  | None => py_raise ValueError
  | Some index_names =>
    let agg_columns := columns (dataframe gf) in
    _ ← update_dataframe self (reset_index_node index_names);
    gf ← get_gf self;
    agg_df ← lift (groupby_node_agg function (exc_metrics gf ++ inc_metrics gf)
                     agg_columns (dataframe gf));
    put_gf self (set_dataframe agg_df gf)
  end.

(** *** squash *)

(** [{n: n.copy() for n in set(self.dataframe["node"])}] *)
Fixpoint copy_nodes (l : list nat) (ns : list Node) : gmap nat nat * list Node :=
  match l with
  | [] => (∅, ns)
  | n :: l' =>
    let '(new, ns1) := Node_copy n ns in
    let '(m, ns2) := copy_nodes l' ns1 in
    (<[n := new]> m, ns2)
  end.

(** [for i in old_to_new: old_to_new[i]._hatchet_nid = i._hatchet_nid] *)
Definition copy_nids (old_to_new : gmap nat nat) (l : list nat) (ns : list Node)
  : list Node :=
  foldl (λ acc i, match old_to_new !! i with
                  | Some new => alter (set_nid (node_nid acc i)) new acc
                  | None => acc
                  end) ns l.

(** [connections[node]] on the defaultdict *)
Definition conn (s : rewire_state) (node : nat) : gset nat :=
  default ∅ (connections s !! node).

(** the body of [for n in connections[node]] *)
Definition connect (new_parent : option nat) (s : rewire_state) (n : nat)
  : rewire_state :=
  match new_parent with
  | Some p =>
    if decide (n ∈ node_children (rw_nodes s) p) then s
    else mkRW (Node_add_parent n p (Node_add_child p n (rw_nodes s)))
              (new_roots s) (connections s) (visited s)
  | None =>
    if decide (n ∈ new_roots s) then s
    else mkRW (rw_nodes s) (new_roots s ++ [n]) (connections s) (visited s)
  end.

Fixpoint rewire (fuel : nat) (old_to_new : gmap nat nat) (node : nat)
    (new_parent : option nat) (s : rewire_state)
  : result (gset nat * rewire_state) :=
  match fuel with
  | O => Raise RecursionError
  | S fuel =>
    let s1 := foldl (connect new_parent) s (elements (conn s node)) in
    let new_node := old_to_new !! node in
    '(transitive, s2) ←
      (if decide (node ∈ visited s1) then Ok (∅, s1)
       else
         for_each
           (λ child '(tr, st),
              '(r, st') ← rewire fuel old_to_new child
                            (match new_node with
                             | Some nn => Some nn
                             | None => new_parent
                             end) st;
              Ok (tr ∪ r, st'))
           (node_children (rw_nodes s1) node)
           (∅, mkRW (rw_nodes s1) (new_roots s1) (connections s1)
                    ({[node]} ∪ visited s1)));
    match new_node with
    | Some nn => Ok ({[nn]}, s2)
    | None =>
      let c := conn s2 node ∪ transitive in
      Ok (c, mkRW (rw_nodes s2) (new_roots s2) (<[node := c]> (connections s2))
                  (visited s2))
    end
  end.

(** [for root in self.graph.roots: rewire(root, None, visited)] *)
Definition rewire_roots (old_to_new : gmap nat nat) (rs : list nat)
    (s : rewire_state) : result rewire_state :=
  for_each (λ root st, snd <$> rewire (S (length (rw_nodes st))) old_to_new root None st)
           rs s.

(** *** subtree_sum, subgraph_sum *)

Definition _init_sum_columns (self : nat) (columns : list string)
    (out_columns : option (list string)) : Py (list string) :=
  out_columns ←
    match out_columns with
    | None => mret columns
    | Some outs =>
      _ ← py_for (zip columns outs)
            (λ '(col, out), update_dataframe self (df_copy_column out col));
      mret outs
    end;
  if decide (length columns ≠ length out_columns) then py_raise ValueError
  else mret out_columns.

(** the loop of [subtree_sum], after [_init_sum_columns] *)
Definition subtree_sum_loop (self : nat) (out_columns : list string)
    (function : list cell → result cell) : Py unit :=
  gf ← get_gf self;
  g ← get_graph (graph gf);
  ns ← get_nodes;
  order ← lift (Graph_traverse ns true g);
  py_for order
    (λ node,
       match node_children ns node with
       | [] => mret tt
       | cs =>
         update_dataframe self
           (λ df, sel ← loc_nodes (node :: cs) out_columns df;
                  vals ← reduce_columns function out_columns sel;
                  Ok (loc_set_node_series node out_columns vals df))
       end).

Definition subtree_sum (self : nat) (columns : list string)
    (out_columns : option (list string)) (function : list cell → result cell)
  : Py unit :=
  out_columns ← _init_sum_columns self columns out_columns;
  subtree_sum_loop self out_columns function.

(** the loop of the general algorithm of [subgraph_sum] *)
Definition subgraph_sum_loop (self : nat) (columns out_columns : list string)
    (function : list cell → result cell) : Py unit :=
  gf ← get_gf self;
  g ← get_graph (graph gf);
  ns ← get_nodes;
  order ← lift (Graph_traverse ns false g);
  py_for order
    (λ node,
       subgraph_nodes ← lift (traverse_from ns false [node]);
       gf ← get_gf self;
       if is_multiindex (dataframe gf) then
         idx ← lift (loc_node_index node out_columns (dataframe gf));
         py_for idx
           (λ i, update_dataframe self
                   (λ df, sel ← loc_nodes_sec subgraph_nodes i columns df;
                          vals ← reduce_columns function columns sel;
                          Ok (loc_set_node_sec node i out_columns vals df)))
       else
         update_dataframe self
           (λ df, sel ← loc_nodes subgraph_nodes columns df;
                  vals ← reduce_columns function columns sel;
                  Ok (loc_set_node node out_columns vals df))).

(** the general algorithm of [subgraph_sum], after the [is_tree] test *)
Definition subgraph_sum_fallback (self : nat) (columns : list string)
    (out_columns : option (list string)) (function : list cell → result cell)
  : Py unit :=
  out_columns ← _init_sum_columns self columns out_columns;
  subgraph_sum_loop self columns out_columns function.

Definition subgraph_sum (self : nat) (columns : list string)
    (out_columns : option (list string)) (function : list cell → result cell)
  : Py unit :=
  gf ← get_gf self;
  g ← get_graph (graph gf);
  ns ← get_nodes;
  tree ← lift (Graph_is_tree ns g);
  if (tree : bool) then subtree_sum self columns out_columns function
  else subgraph_sum_fallback self columns out_columns function.

Definition update_inclusive_columns (self : nat) : Py unit :=
  gf ← get_gf self;
  let inc := (λ s, s +:+ " (inc)") <$> exc_metrics gf in
  _ ← put_gf self (set_inc_metrics inc gf);
  subgraph_sum self (exc_metrics gf) (Some inc) np_sum.

Definition squash (self : nat) : Py nat :=
  gf ← get_gf self;
  g ← get_graph (graph gf);
  ns ← get_nodes;
  (* create new nodes for each unique node in the old dataframe *)
  let retained := elements (list_to_set (df_nodes (dataframe gf)) : gset nat) in
  let '(old_to_new, ns1) := copy_nodes retained ns in
  let ns2 := copy_nids old_to_new retained ns1 in
  (* run rewire for each root and make a new graph *)
  st ← lift (rewire_roots old_to_new (roots g)
               (mkRW ns2 [] ((λ v, {[v]}) <$> old_to_new) ∅));
  ns3 ← lift (Graph_enumerate_traverse (mkGraph (new_roots st)) (rw_nodes st));
  (* reindex new dataframe with new nodes *)
  df ← lift (df_apply_node (dict_get old_to_new) (dataframe gf));
  '(ns4, gr, merges) ← lift (Graph_normalize (mkGraph (new_roots st)) ns3);
  _ ← put_nodes ns4;
  new_g ← new_graph gr;
  df ← lift (df_apply_node (λ n, Ok (default n (merges !! n))) df);
  (* perform a groupby to merge nodes with the same callpath *)
  agg_df ← lift (groupby_agg (exc_metrics gf ++ inc_metrics gf) df);
  new_gf ← __init__ new_g agg_df (exc_metrics gf) (inc_metrics gf);
  _ ← update_inclusive_columns new_gf;
  mret new_gf.

(** *** unify and the arithmetic operators *)

(** [list(set().union(self.exc_metrics, self.inc_metrics, other.exc_metrics,
    other.inc_metrics))] *)
Definition all_metrics (s o : GraphFrame) : list string :=
  remove_dups (exc_metrics s ++ inc_metrics s ++ exc_metrics o ++ inc_metrics o).

Definition _insert_missing_rows (self other : nat) : Py unit :=
  s ← get_gf self;
  o ← get_gf other;
  let metrics := all_metrics s o in
  let other_not_in_self :=
    set_rows (not_isin (dataframe o) (dataframe s)) (dataframe o) in
  let self_not_in_other :=
    set_rows (not_isin (dataframe s) (dataframe o)) (dataframe s) in
  _ ← (if df_empty self_not_in_other then mret tt
       else update_dataframe self join_missing_node);
  other_not_in_self ←
    (if df_empty other_not_in_self then mret other_not_in_self
     else
       joined ← lift (join_missing_node other_not_in_self);
       _ ← (if df_empty self_not_in_other
            then update_dataframe self join_missing_node else mret tt);
       mret joined);
  _ ← py_for (row_key <$> rows self_not_in_other)
        (λ i, update_dataframe self (λ df, Ok (at_set i "_missing_node" (Str "L") df)));
  let other_not_in_self :=
    foldl (λ df i, at_set i "_missing_node" (Str "R")
                     (foldl (λ df j, at_set i j (Num 0) df) df metrics))
          other_not_in_self (row_key <$> rows other_not_in_self) in
  update_dataframe self (λ df, Ok (df_append df other_not_in_self)).

Definition unify (self other : nat) : Py unit :=
  s ← get_gf self;
  o ← get_gf other;
  if decide (graph s = graph o) then mret tt
  else
    gs ← get_graph (graph s);
    go ← get_graph (graph o);
    ns ← get_nodes;
    '(union_graph, node_map, ns') ← lift (Graph_union gs go ns);
    _ ← put_nodes ns';
    union_graph ← new_graph union_graph;
    _ ← update_dataframe self (df_apply_node (dict_get node_map));
    _ ← update_dataframe other (df_apply_node (dict_get node_map));
    _ ← _insert_missing_rows self other;
    s ← get_gf self;
    _ ← put_gf self (set_graph union_graph s);
    o ← get_gf other;
    put_gf other (set_graph union_graph o).

Definition _operator (self other : nat) (op : cell → cell → result cell) : Py nat :=
  s ← get_gf self;
  o ← get_gf other;
  _ ← update_dataframe self (λ df, df_update_op op (all_metrics s o) df (dataframe o));
  mret self.

Definition add (self other : nat) : Py nat :=
  self_copy ← copy self;
  other_copy ← copy other;
  _ ← unify self_copy other_copy;
  _operator self_copy other_copy cell_add.

Definition sub (self other : nat) : Py nat :=
  self_copy ← copy self;
  other_copy ← copy other;
  _ ← unify self_copy other_copy;
  _operator self_copy other_copy cell_sub.

Definition mul (self other : nat) : Py nat :=
  self_copy ← copy self;
  other_copy ← copy other;
  _ ← unify self_copy other_copy;
  _operator self_copy other_copy cell_mul.

(** [self += other], [self -= other], [self *= other]: the result is stored
    in [self] *)
Definition __iadd__ (self other : nat) : Py nat :=
  other_copy ← copy other;
  _ ← unify self other_copy;
  _operator self other_copy cell_add.

Definition __isub__ (self other : nat) : Py nat :=
  other_copy ← copy other;
  _ ← unify self other_copy;
  _operator self other_copy cell_sub.

Definition __imul__ (self other : nat) : Py nat :=
  other_copy ← copy other;
  _ ← unify self other_copy;
  _operator self other_copy cell_mul.

(** [self + other], [self - other], [self * other] *)
Definition __add__ (self other : nat) : Py nat := add self other.
Definition __sub__ (self other : nat) : Py nat := sub self other.
Definition __mul__ (self other : nat) : Py nat := mul self other.

(** *** filter *)

Definition filter (self : nat) (filter_obj : filter_arg) (squash_flag : bool)
  : Py nat :=
  gf ← get_gf self;
  let dataframe_copy := dataframe gf in
  filtered_df ←
    (match filter_obj return Py DataFrame with
    | Callable f =>
      keep ← lift (mapM f (rows dataframe_copy));
      mret (set_rows (fst <$> List.filter snd (zip (rows dataframe_copy) keep))
              dataframe_copy)
    | QueryList apply | QueryMatcher apply =>
      query_matches ← ((λ w, (apply w self, w)) : Py (list (list nat)));
      let match_set := concat query_matches in
      mret (set_rows (List.filter (λ r, bool_decide (r_node r ∈ match_set))
                        (rows dataframe_copy)) dataframe_copy)
    | OtherObject => py_raise InvalidFilter
    end);
  if decide (rows filtered_df = []) then py_raise EmptyFilter
  else
    filtered_gf ← __init__ (graph gf) filtered_df [] [];
    fg ← get_gf filtered_gf;
    _ ← put_gf filtered_gf (mkGF (graph fg) (dataframe fg) (exc_metrics gf) (inc_metrics gf));
    if squash_flag then squash filtered_gf else mret filtered_gf.

End GraphFrame.

(** ** Reading a store *)

(** the rows of GraphFrame [self] in store [w] *)
Definition gf_rows (w : world) (self : nat) : list Row :=
  default [] ((λ gf, rows (dataframe gf)) <$> gframes w !! self).

(** the value of column [col] in the first row of node [n] *)
Definition gf_metric (w : world) (self : nat) (n : nat) (col : string) : option cell :=
  r ← head (List.filter (λ r, bool_decide (r_node r = n)) (gf_rows w self));
  r_cells r !! col.

(** the value of column [col] in the row of node [n] and secondary key [i] *)
Definition gf_metric_at (w : world) (self : nat) (n : nat) (i : list Z)
    (col : string) : option cell :=
  r ← head (List.filter (λ r, bool_decide (row_key r = (n, i))) (gf_rows w self));
  r_cells r !! col.

(** the roots of the graph of GraphFrame [self] *)
Definition gf_roots (w : world) (self : nat) : list nat :=
  default [] (gf ← gframes w !! self; roots <$> graphs w !! graph gf).

(** ** Example stores *)

Definition named (s : string) : Frame := {[ "name" := s ]}.

Definition time_row (n : nat) (v : Z) : Row := mkRow n [] {[ "time" := Num v ]}.

(** the chain root → child → grandchild → leaf with exclusive times 2, 3, 4, 5 *)
Definition chain_world : world :=
  mkWorld
    [ mkNode (named "root") 0 [] [1];
      mkNode (named "child") 1 [0] [2];
      mkNode (named "grandchild") 2 [1] [3];
      mkNode (named "leaf") 3 [2] [] ]
    [ mkGraph [0] ]
    [ mkGF 0 (mkDF ["node"] ["time"]
                [time_row 0 2; time_row 1 3; time_row 2 4; time_row 3 5])
        ["time"] [] ].


Definition rank_row (n : nat) (rank : Z) (v : Z) : Row :=
  mkRow n [rank] {[ "time" := Num v ]}.

(** the tree root → child with one row per node and rank, for ranks 0 and 1 *)
Definition ranks_world : world :=
  mkWorld
    [ mkNode (named "root") 0 [] [1]; mkNode (named "child") 1 [0] [] ]
    [ mkGraph [0] ]
    [ mkGF 0 (mkDF ["node"; "rank"] ["time"]
                [rank_row 0 0 1; rank_row 0 1 10; rank_row 1 0 100; rank_row 1 1 1000])
        ["time"] [] ].

(** A with the call tree y → x and B with the call tree y → z *)
Definition xyz_world : world :=
  mkWorld
    [ mkNode (named "y") 0 [] [1]; mkNode (named "x") 1 [0] [];
      mkNode (named "y") 0 [] [3]; mkNode (named "z") 1 [2] [] ]
    [ mkGraph [0]; mkGraph [2] ]
    [ mkGF 0 (mkDF ["node"] ["time"] [time_row 0 10; time_row 1 20]) ["time"] [];
      mkGF 1 (mkDF ["node"] ["time"] [time_row 2 1; time_row 3 2]) ["time"] [] ].

(** a row filter that drops the rows of [child] (node 1) *)
Definition not_child : filter_arg :=
  Callable (λ r, Ok (bool_decide (r_node r ≠ 1))).

(** [c + c] *)
Definition double_cell (c : cell) : cell :=
  match c with
  | Num z => Num (2 * z)
  | Str s => Str (s +:+ s)
  end.

(** a row with its [_missing_node] cell set *)
Definition mark_row (v : cell) (r : Row) : Row :=
  set_row_cells (<["_missing_node" := v]> (r_cells r)) r.

(** a row of [other] as it is appended to [self]: metrics 0, marker "R" *)
Definition zero_row (metrics : list string) (r : Row) : Row :=
  mark_row (Str "R")
    (set_row_cells (foldl (λ cs j, <[j := Num 0]> cs) (r_cells r) metrics) r).






(** ** Reachability and well-formed stores *)

(** the nodes reachable from [rs] along child references *)
Inductive reachable (ns : list Node) (rs : list nat) : nat → Prop :=
  | reach_root r : r ∈ rs → reachable ns rs r
  | reach_child p c : reachable ns rs p → c ∈ node_children ns p → reachable ns rs c.

(** every child reference of the arena points into the arena *)
Definition wf_nodes (ns : list Node) : Prop :=
  ∀ i c, c ∈ node_children ns i → (c < length ns)%nat.

(** a graph of the arena: the roots are in the arena *)
Definition wf_graph (ns : list Node) (g : Graph) : Prop :=
  wf_nodes ns ∧ ∀ r, r ∈ roots g → (r < length ns)%nat.

(** the number of old nodes (addresses below [L0]) that [rewire] has not
    visited yet: the bound on the depth of its recursion *)
Definition unvisited (L0 : nat) (V : gset nat) : nat :=
  size (set_seq 0 L0 ∖ V : gset nat).

(** ** The invariant of [rewire]

    [old_to_new] is the map of squash from the retained old nodes to their
    copies; the old nodes have the addresses below [L0]. *)
Section rewire_invariant.
Variable old_to_new : gmap nat nat.
Variable L0 : nat.

Definition is_new (v : nat) : Prop := ∃ k, old_to_new !! k = Some v.

(** what holds of the closure state between two steps of [rewire] *)
Record rw_inv (s : rewire_state) : Prop := {
  inv_new_valid : ∀ v, is_new v → (v < length (rw_nodes s))%nat;
  inv_old_closed : ∀ i c, (i < L0)%nat → c ∈ node_children (rw_nodes s) i → (c < L0)%nat;
  inv_roots_new : ∀ r, r ∈ new_roots s → is_new r;
  inv_conn_new : ∀ k S v, connections s !! k = Some S → v ∈ S → is_new v;
  inv_children_new : ∀ p c, (L0 ≤ p)%nat → c ∈ node_children (rw_nodes s) p → is_new c;
  inv_conn_retained : ∀ k v, old_to_new !! k = Some v → connections s !! k = Some {[v]};
  inv_visited_old : ∀ k, k ∈ visited s → (k < L0)%nat;
  inv_attached : ∀ k v, k ∈ visited s → old_to_new !! k = Some v →
                        reachable (rw_nodes s) (new_roots s) v;
  inv_parents_new : ∀ c p, (L0 ≤ c)%nat → p ∈ node_parents (rw_nodes s) c →
                           (L0 ≤ p)%nat ∧ c ∈ node_children (rw_nodes s) p;
  inv_child_parent : ∀ p c, (L0 ≤ p)%nat → c ∈ node_children (rw_nodes s) p →
                            p ∈ node_parents (rw_nodes s) c
                            ∧ reachable (rw_nodes s) (new_roots s) p;
  inv_nodup : ∀ v, (L0 ≤ v)%nat → NoDup (node_parents (rw_nodes s) v)
                                  ∧ NoDup (node_children (rw_nodes s) v);
  inv_roots_nodup : NoDup (new_roots s);
}.

(** what a step of [rewire] may change *)
Record rw_le (s s' : rewire_state) : Prop := {
  le_length : length (rw_nodes s') = length (rw_nodes s);
  le_old : ∀ i, (i < L0)%nat → rw_nodes s' !! i = rw_nodes s !! i;
  le_frame : ∀ i, node_frame (rw_nodes s') i = node_frame (rw_nodes s) i;
  le_children : ∀ i c, c ∈ node_children (rw_nodes s) i → c ∈ node_children (rw_nodes s') i;
  le_roots : ∀ r, r ∈ new_roots s → r ∈ new_roots s';
  le_visited : visited s ⊆ visited s';
}.

(** the parent that [rewire] hands down is a new node already linked into
    the new graph *)
Definition parent_ok (s : rewire_state) (new_parent : option nat) : Prop :=
  match new_parent with
  | None => True
  | Some p => is_new p ∧ reachable (rw_nodes s) (new_roots s) p
  end.

(** the nodes visited between [s] and [s'] have all their children
    visited in [s'] *)
Definition closed (s s' : rewire_state) : Prop :=
  ∀ v c, v ∈ visited s' → v ∉ visited s →
         c ∈ node_children (rw_nodes s) v → c ∈ visited s'.

Definition rewire_post (node : nat) (s : rewire_state)
    (res : gset nat * rewire_state) : Prop :=
  rw_inv res.2 ∧ rw_le s res.2 ∧ node ∈ visited res.2
  ∧ (∀ v, v ∈ res.1 → is_new v) ∧ closed s res.2.
End rewire_invariant.

Arguments inv_new_valid {old_to_new L0} s _.
Arguments inv_old_closed {old_to_new L0} s _.
Arguments inv_roots_new {old_to_new L0} s _.
Arguments inv_conn_new {old_to_new L0} s _.
Arguments inv_children_new {old_to_new L0} s _.
Arguments inv_conn_retained {old_to_new L0} s _.
Arguments inv_visited_old {old_to_new L0} s _.
Arguments inv_attached {old_to_new L0} s _.
Arguments inv_parents_new {old_to_new L0} s _.
Arguments inv_child_parent {old_to_new L0} s _.
Arguments inv_nodup {old_to_new L0} s _.
Arguments inv_roots_nodup {old_to_new L0} s _.
Arguments le_length {L0} s s' _.
Arguments le_old {L0} s s' _.
Arguments le_frame {L0} s s' _.
Arguments le_children {L0} s s' _.
Arguments le_roots {L0} s s' _.
Arguments le_visited {L0} s s' _.

(** ** Methods that only rewrite the cells of one table *)

(** between [w] and [w'] nothing changed but GraphFrame [self], whose old
    and new values are related by [R] *)
Definition table_only (R : GraphFrame → GraphFrame → Prop) (self : nat)
    (w w' : world) : Prop :=
  nodes w' = nodes w ∧ graphs w' = graphs w
  ∧ length (gframes w') = length (gframes w)
  ∧ (∀ k, k ≠ self → gframes w' !! k = gframes w !! k)
  ∧ ∀ gf, gframes w !! self = Some gf →
      ∃ gf', gframes w' !! self = Some gf' ∧ R gf gf'.

Definition keeps {A} (R : GraphFrame → GraphFrame → Prop) (self : nat)
    (m : Py A) : Prop :=
  ∀ w r w', m w = (r, w') → table_only R self w w'.

(** the GraphFrame kept its graph, its exclusive metrics and the index of
    its table *)
Definition same_index (gf gf' : GraphFrame) : Prop :=
  graph gf' = graph gf ∧ exc_metrics gf' = exc_metrics gf
  ∧ row_key <$> rows (dataframe gf') = row_key <$> rows (dataframe gf).

Global Instance same_index_preorder : PreOrder same_index.
Proof.
  split.
  - by intros gf.
  - intros gf1 gf2 gf3 (? & ? & ?) (? & ? & ?). repeat split; congruence.
Qed.

(** root → a → foo → bar and root → b → foo → bar with rows for root, the
    two foo and the two bar: squash drops a and b, and the two foo (then the
    two bar) become siblings with equal frames *)
Definition elide_world : world :=
  mkWorld
    [ mkNode (named "root") 0 [] [1; 2];
      mkNode (named "a") 1 [0] [3];
      mkNode (named "b") 3 [0] [4];
      mkNode (named "foo") 2 [1] [5];
      mkNode (named "foo") 4 [2] [6];
      mkNode (named "bar") 2 [3] [];
      mkNode (named "bar") 4 [4] [] ]
    [ mkGraph [0] ]
    [ mkGF 0 (mkDF ["node"] ["time"]
                [time_row 0 1; time_row 3 10; time_row 4 100; time_row 5 1000;
                 time_row 6 10000])
        ["time"] [] ].

(** ** Edge lists of a graph

    In the graph under [rs] the parent list of a node names, once each, the
    nodes of the graph that have it as a child; child lists and the root list
    have no duplicates. *)
Definition edges_ok (ns : list Node) (rs : list nat) : Prop :=
  NoDup rs
  ∧ ∀ c, reachable ns rs c →
      NoDup (node_parents ns c) ∧ NoDup (node_children ns c)
      ∧ ∀ p, p ∈ node_parents ns c ↔ reachable ns rs p ∧ c ∈ node_children ns p.

(** ** Renaming the nodes of a graph and of a table *)

(** the result of a traversal, with the nodes renamed *)
Definition rename_traversal (φ : nat → nat) (r : list nat * gset nat)
  : list nat * gset nat :=
  (φ <$> r.1, set_map φ r.2).

(** [if n not in l: l.append(n)] *)
Definition add_new (l : list nat) (n : nat) : list nat :=
  if decide (n ∈ l) then l else l ++ [n].

(** the closure state of [rewire] when every node of the old graph is
    retained: the old nodes are those of [ns0], every retained node is
    connected to its copy only, and the copy of a node that has not been
    visited has no children yet *)
Definition copy_state (old_to_new : gmap nat nat) (L0 : nat) (ns0 : list Node)
    (s : rewire_state) : Prop :=
  (∀ i, (i < L0)%nat → rw_nodes s !! i = ns0 !! i)
  ∧ (∀ k v, old_to_new !! k = Some v → connections s !! k = Some {[v]})
  ∧ (∀ k v, old_to_new !! k = Some v → k ∉ visited s →
            node_children (rw_nodes s) v = [])
  ∧ (∀ k v, old_to_new !! k = Some v → (v < length (rw_nodes s))%nat).

(** what one call of [rewire] on the retained node [node], whose copy is
    [v], does to the child lists of the copies *)
Definition rewire_copy_post (old_to_new : gmap nat nat) (L0 : nat) (ns0 : list Node)
    (φ : nat → nat) (node : nat) (np : option nat) (v : nat)
    (s s' : rewire_state) : Prop :=
  copy_state old_to_new L0 ns0 s' ∧ visited s ⊆ visited s' ∧ node ∈ visited s'
  ∧ new_roots s' = match np with
                   | None => add_new (new_roots s) v
                   | Some _ => new_roots s
                   end
  ∧ (∀ k vk, old_to_new !! k = Some vk → k ∈ visited s →
       node_children (rw_nodes s') vk
       = if decide (np = Some vk) then add_new (node_children (rw_nodes s) vk) v
         else node_children (rw_nodes s) vk)
  ∧ (∀ k vk, old_to_new !! k = Some vk → k ∈ visited s' → k ∉ visited s →
       node_children (rw_nodes s') vk = φ <$> node_children ns0 k).

(** the row of node [φ n] that holds what the row [r] of node [n] holds *)
Definition rekey (φ : nat → nat) (r : Row) : Row :=
  mkRow (φ (r_node r)) (r_sec r) (r_cells r).

Definition rekey_df (φ : nat → nat) (df : DataFrame) : DataFrame :=
  set_rows (rekey φ <$> rows df) df.

(** ** Two runs that correspond

    Whenever the first computation returns from a store related to the
    store of the second, the second returns too, with related results and
    related stores. *)
Definition py_sim {A B} (I : world → world → Prop) (R : A → B → Prop)
    (m1 : Py A) (m2 : Py B) : Prop :=
  ∀ wa wb a wa', I wa wb → m1 wa = (Ok a, wa') →
    ∃ b wb', m2 wb = (Ok b, wb') ∧ I wa' wb' ∧ R a b.

(** the stores of two GraphFrames [sa] and [sb] over graphs of one shape:
    the nodes and the two graphs are fixed, and the table of [sb] is the
    table of [sa] with the nodes renamed *)
Definition sum_sim (φ : nat → nat) (nsa nsb : list Node) (ga gb : nat)
    (Ga Gb : Graph) (sa sb : nat) (wa wb : world) : Prop :=
  nodes wa = nsa ∧ nodes wb = nsb
  ∧ graphs wa !! ga = Some Ga ∧ graphs wb !! gb = Some Gb
  ∧ ∃ gfa gfb, gframes wa !! sa = Some gfa ∧ gframes wb !! sb = Some gfb
      ∧ graph gfa = ga ∧ graph gfb = gb
      ∧ exc_metrics gfb = exc_metrics gfa ∧ inc_metrics gfb = inc_metrics gfa
      ∧ dataframe gfb = rekey_df φ (dataframe gfa).

(** ** What the loops of the sums change *)

(** the row [r'] is the row [r] with new values in the columns [outs] *)
Definition row_off (outs : list string) (r r' : Row) : Prop :=
  row_key r' = row_key r
  ∧ (∀ c, c ∉ outs → r_cells r' !! c = r_cells r !! c).

(** the GraphFrame changed in the cells of the columns [outs] only *)
Definition cells_off (outs : list string) (gf gf' : GraphFrame) : Prop :=
  graph gf' = graph gf ∧ exc_metrics gf' = exc_metrics gf
  ∧ inc_metrics gf' = inc_metrics gf
  ∧ index_names (dataframe gf') = index_names (dataframe gf)
  ∧ columns (dataframe gf') = columns (dataframe gf)
  ∧ Forall2 (row_off outs) (rows (dataframe gf)) (rows (dataframe gf')).

Global Instance row_off_preorder (outs : list string) : PreOrder (row_off outs).
Proof.
  split.
  - by intros r.
  - intros r1 r2 r3 (Hk1 & Ho1) (Hk2 & Ho2).
    split; [congruence |]. intros c Hc. rewrite Ho2, Ho1; done.
Qed.

Global Instance cells_off_preorder (outs : list string) : PreOrder (cells_off outs).
Proof.
  split.
  - intros gf. repeat (split; [done |]). reflexivity.
  - intros gf1 gf2 gf3 (? & ? & ? & ? & ? & HF1) (? & ? & ? & ? & ? & HF2).
    repeat (split; [congruence |]). by etrans.
Qed.

(** the GraphFrame kept its graph, its metric lists, the index of its table
    and its columns, and every cell outside the columns [outs] *)
Definition writes_only (outs : list string) (gf gf' : GraphFrame) : Prop :=
  graph gf' = graph gf ∧ exc_metrics gf' = exc_metrics gf
  ∧ inc_metrics gf' = inc_metrics gf
  ∧ index_names (dataframe gf') = index_names (dataframe gf)
  ∧ (∀ c, c ∈ columns (dataframe gf) → c ∈ columns (dataframe gf'))
  ∧ Forall2 (λ r r', row_key r' = row_key r
                     ∧ ∀ c, c ∉ outs → r_cells r' !! c = r_cells r !! c)
            (rows (dataframe gf)) (rows (dataframe gf')).

Global Instance writes_only_preorder (outs : list string) : PreOrder (writes_only outs).
Proof.
  split.
  - intros gf. repeat (split; [done |]). apply Forall_Forall2_diag, Forall_true. done.
  - intros gf1 gf2 gf3 (? & ? & ? & ? & Hc1 & HF1) (? & ? & ? & ? & Hc2 & HF2).
    repeat (split; [congruence |]). split; [auto |].
    eapply Forall2_trans; [| exact HF1 | exact HF2].
    intros r1 r2 r3 [Hk1 Ho1] [Hk2 Ho2]. split; [congruence |].
    intros c Hc. rewrite Ho2, Ho1; done.
Qed.

(** two GraphFrames over two copies of the diamond a → b, a → c, b → d,
    c → d: the second has the nodes of the first shifted by 4 *)
Definition twin_world : world :=
  mkWorld
    [ mkNode (named "a") 0 [] [1; 2]; mkNode (named "b") 1 [0] [3];
      mkNode (named "c") 2 [0] [3]; mkNode (named "d") 3 [1; 2] [];
      mkNode (named "a") 0 [] [5; 6]; mkNode (named "b") 1 [4] [7];
      mkNode (named "c") 2 [4] [7]; mkNode (named "d") 3 [5; 6] [] ]
    [ mkGraph [0]; mkGraph [4] ]
    [ mkGF 0 (mkDF ["node"] ["time"]
                [time_row 0 1; time_row 1 10; time_row 2 100; time_row 3 1000])
        ["time"] [];
      mkGF 1 (mkDF ["node"] ["time"]
                [time_row 4 1; time_row 5 10; time_row 6 100; time_row 7 1000])
        ["time"] [] ].

(** ** What a method leaves alone

    [untouched S w w']: between the stores [w] and [w'] GraphFrames and
    Graph objects may have been created, but no Graph object that existed
    has changed, and no GraphFrame that existed has changed unless its
    address is in [S]. *)
Definition untouched (S : nat → Prop) (w w' : world) : Prop :=
  (length (gframes w) ≤ length (gframes w'))%nat
  ∧ (∀ k, (k < length (gframes w))%nat → ¬ S k → gframes w' !! k = gframes w !! k)
  ∧ (length (graphs w) ≤ length (graphs w'))%nat
  ∧ (∀ g, (g < length (graphs w))%nat → graphs w' !! g = graphs w !! g).

(** every run of [m] from a store with at least [n0] GraphFrames leaves
    alone what is not in [S], and a result it returns satisfies [P] *)
Definition touches_only {A} (n0 : nat) (S : nat → Prop) (P : A → Prop) (m : Py A)
  : Prop :=
  ∀ w r w', (n0 ≤ length (gframes w))%nat → m w = (r, w') →
    untouched S w w' ∧ ∀ a, r = Ok a → P a.

(** the sum of the numbers of a list of cells *)
Definition cells_total (cs : list cell) : Z :=
  foldr (λ c acc, match c with Num z => z + acc | Str _ => acc end)%Z 0%Z cs.




(** * Properties *)

(** ** Sums on the examples *)

(** C5: on the chain root → child → grandchild → leaf with exclusive values
    2, 3, 4, 5, [subtree_sum] with the default operator writes the inclusive
    sums 14, 12, 9, 5, in place and into a separate output column alike. *)
Theorem subtree_sum_chain_inclusive :
  (∃ w', GraphFrame.subtree_sum 0 ["time"] None np_sum chain_world = (Ok tt, w')
         ∧ (λ n, gf_metric w' 0 n "time") <$> [0; 1; 2; 3]
           = [Some (Num 14); Some (Num 12); Some (Num 9); Some (Num 5)])
  ∧ (∃ w', GraphFrame.subtree_sum 0 ["time"] (Some ["time (inc)"]) np_sum chain_world
           = (Ok tt, w')
         ∧ (λ n, gf_metric w' 0 n "time (inc)") <$> [0; 1; 2; 3]
           = [Some (Num 14); Some (Num 12); Some (Num 9); Some (Num 5)]
         ∧ (λ n, gf_metric w' 0 n "time") <$> [0; 1; 2; 3]
           = [Some (Num 2); Some (Num 3); Some (Num 4); Some (Num 5)]).
Proof.
  split.
  - eexists. split; [vm_compute; reflexivity | vm_compute; reflexivity].
  - eexists. split; [vm_compute; reflexivity | split; vm_compute; reflexivity].
Qed.

(** C8 (the source at the failing input): with one input column and two
    output columns [subtree_sum] raises ValueError, but only after
    [_init_sum_columns] has written the first output column into the
    table. *)
Theorem init_sum_columns_checks_after_writing :
  ∃ w', GraphFrame.subtree_sum 0 ["time"] (Some ["a"; "b"]) np_sum chain_world
        = (Raise ValueError, w')
        ∧ gf_metric chain_world 0 0 "a" = None
        ∧ gf_metric w' 0 0 "a" = Some (Num 2)
        ∧ gframes w' ≠ gframes chain_world.
Proof.
  eexists. split; [vm_compute; reflexivity |].
  repeat split; try (vm_compute; reflexivity).
  vm_compute. discriminate.
Qed.

(** C4 (the source at the failing input): the graph root → child is a tree,
    so [subgraph_sum] runs [subtree_sum]; on the table with ranks 0 and 1
    root has two rows, the Series that [function] returns is aligned on
    their labels, and [subtree_sum] leaves NaN in the output column of both
    rows of root, where the general algorithm writes the sum of each rank. *)
Theorem subtree_sum_differs_from_general_sum :
  Graph_is_tree (nodes ranks_world) (mkGraph [0]) = Ok true
  ∧ GraphFrame.subgraph_sum 0 ["time"] (Some ["time (inc)"]) np_sum ranks_world
    = GraphFrame.subtree_sum 0 ["time"] (Some ["time (inc)"]) np_sum ranks_world
  ∧ (∃ w', GraphFrame.subtree_sum 0 ["time"] (Some ["time (inc)"]) np_sum ranks_world
           = (Ok tt, w')
           ∧ gf_metric_at w' 0 0 [0%Z] "time" = Some (Num 1)
           ∧ gf_metric_at w' 0 0 [1%Z] "time" = Some (Num 10)
           ∧ gf_metric_at w' 0 0 [0%Z] "time (inc)" = None
           ∧ gf_metric_at w' 0 0 [1%Z] "time (inc)" = None)
  ∧ (∃ w', GraphFrame.subgraph_sum_fallback 0 ["time"] (Some ["time (inc)"]) np_sum
             ranks_world = (Ok tt, w')
           ∧ gf_metric_at w' 0 0 [0%Z] "time (inc)" = Some (Num 101)
           ∧ gf_metric_at w' 0 0 [1%Z] "time (inc)" = Some (Num 1010)).
Proof.
  split; [vm_compute; reflexivity |].
  split; [vm_compute; reflexivity |].
  split; eexists; (split; [vm_compute; reflexivity |]);
    repeat split; vm_compute; reflexivity.
Qed.

(** ** Running the monad *)

Lemma py_bind_run {A B} (m : Py A) (f : A → Py B) (w : world) :
  (m ≫= f) w = match m w with
               | (Ok a, w1) => f a w1
               | (Raise e, w1) => (Raise e, w1)
               end.
Proof. reflexivity. Qed.

Lemma py_bind_ok_inv {A B} (m : Py A) (f : A → Py B) (w w' : world) (b : B) :
  (m ≫= f) w = (Ok b, w') →
  ∃ a w1, m w = (Ok a, w1) ∧ f a w1 = (Ok b, w').
Proof.
  rewrite py_bind_run. destruct (m w) as [[a|e] w1]; intros H.
  - eauto.
  - discriminate.
Qed.

Lemma py_bind_ok {A B} (m : Py A) (f : A → Py B) (w w1 : world) (a : A) :
  m w = (Ok a, w1) → (m ≫= f) w = f a w1.
Proof. intros H. rewrite py_bind_run, H. reflexivity. Qed.

Lemma lift_ok_inv {A} (r : result A) (w w' : world) (a : A) :
  lift r w = (Ok a, w') → r = Ok a ∧ w' = w.
Proof. unfold lift. intros H. inversion H. auto. Qed.

Lemma get_gf_ok (w : world) (self : nat) (gf : GraphFrame) :
  gframes w !! self = Some gf → get_gf self w = (Ok gf, w).
Proof. intros H. unfold get_gf. rewrite H. reflexivity. Qed.

Lemma get_gf_ok_inv (w w' : world) (self : nat) (gf : GraphFrame) :
  get_gf self w = (Ok gf, w') → gframes w !! self = Some gf ∧ w' = w.
Proof.
  unfold get_gf. destruct (gframes w !! self); intros H; inversion H; auto.
Qed.

Lemma get_graph_ok_inv (w w' : world) (g : nat) (gr : Graph) :
  get_graph g w = (Ok gr, w') → graphs w !! g = Some gr ∧ w' = w.
Proof.
  unfold get_graph. destruct (graphs w !! g); intros H; inversion H; auto.
Qed.

Lemma init_ok_inv (g : nat) (df : DataFrame) (exc inc : list string)
    (w w' : world) (new : nat) :
  GraphFrame.__init__ g df exc inc w = (Ok new, w') →
  "node" ∈ index_names df ∧ new = length (gframes w)
  ∧ w' = mkWorld (nodes w) (graphs w) (gframes w ++ [mkGF g df exc inc]).
Proof.
  unfold GraphFrame.__init__. case_decide as Hnode; [| discriminate].
  intros Hrun. inversion Hrun. auto.
Qed.

Lemma filter_sublist {A} (p : A → bool) (l : list A) :
  List.filter p l `sublist_of` l.
Proof.
  induction l as [|x l IH]; simpl; [constructor |].
  destruct (p x); [by apply sublist_skip | by apply sublist_cons].
Qed.

Lemma filter_zip_sublist {A} (l : list A) (keep : list bool) :
  (List.filter snd (zip l keep)).*1 `sublist_of` l.
Proof.
  revert keep. induction l as [|x l IH]; intros [|k keep]; simpl;
    try apply sublist_nil_l.
  destruct k; simpl; [by apply sublist_skip | by apply sublist_cons].
Qed.

(** ** filter

    C10: [filter] with [squash=False] returns a new GraphFrame on the very
    same Graph object, with the metric lists of the input and a selection of
    its rows; the node arena, the graphs and the input GraphFrame are left
    as they were. *)
Theorem filter_shares_graph_keeps_input (w w' : world) (self new : nat)
    (gf : GraphFrame) (filter_obj : filter_arg) :
  gframes w !! self = Some gf →
  GraphFrame.filter self filter_obj false w = (Ok new, w') →
  nodes w' = nodes w ∧ graphs w' = graphs w ∧ gframes w' !! self = Some gf
  ∧ new ≠ self
  ∧ ∃ gf', gframes w' = gframes w ++ [gf'] ∧ gframes w' !! new = Some gf'
      ∧ graph gf' = graph gf
      ∧ exc_metrics gf' = exc_metrics gf ∧ inc_metrics gf' = inc_metrics gf
      ∧ rows (dataframe gf') `sublist_of` rows (dataframe gf)
      ∧ rows (dataframe gf') ≠ []
      ∧ columns (dataframe gf') = columns (dataframe gf)
      ∧ index_names (dataframe gf') = index_names (dataframe gf).
Proof.
  intros Hself Hrun. unfold GraphFrame.filter in Hrun.
  rewrite (py_bind_ok _ _ _ _ _ (get_gf_ok _ _ _ Hself)) in Hrun.
  apply py_bind_ok_inv in Hrun as (fdf & w1 & Hsel & Hrun).
  assert (w1 = w ∧ rows fdf `sublist_of` rows (dataframe gf)
          ∧ columns fdf = columns (dataframe gf)
          ∧ index_names fdf = index_names (dataframe gf)) as (-> & Hsub & Hcols & Hidx).
  { destruct filter_obj as [f | apply | apply |].
    - apply py_bind_ok_inv in Hsel as (keep & w2 & Hkeep & Hret).
      apply lift_ok_inv in Hkeep as [_ ->]. inversion Hret; subst; simpl.
      split; [done |]. split; [apply filter_zip_sublist | done].
    - apply py_bind_ok_inv in Hsel as (qm & w2 & Hq & Hret).
      inversion Hq; subst. inversion Hret; subst; simpl.
      split; [done |]. split; [apply filter_sublist | done].
    - apply py_bind_ok_inv in Hsel as (qm & w2 & Hq & Hret).
      inversion Hq; subst. inversion Hret; subst; simpl.
      split; [done |]. split; [apply filter_sublist | done].
    - discriminate. }
  case_decide as Hne; [discriminate |].
  apply py_bind_ok_inv in Hrun as (fg & w2 & Hinit & Hrun).
  apply init_ok_inv in Hinit as (_ & -> & ->).
  apply py_bind_ok_inv in Hrun as (fg' & w3 & Hget & Hrun).
  apply get_gf_ok_inv in Hget as [Hfg ->]. simpl in Hfg.
  rewrite lookup_app_r, Nat.sub_diag in Hfg by done. simpl in Hfg.
  inversion Hfg; subst fg'; clear Hfg.
  apply py_bind_ok_inv in Hrun as ([] & w4 & Hput & Hrun).
  inversion Hput; subst w4; clear Hput. inversion Hrun; subst; clear Hrun.
  simpl.
  assert (self < length (gframes w))%nat as Hlt by (by eapply lookup_lt_Some).
  rewrite insert_app_r_alt by lia. rewrite Nat.sub_diag.
  simpl.
  split; [done |]. split; [done |].
  split; [by rewrite lookup_app_l |].
  split; [lia |].
  eexists. split; [reflexivity |].
  split; [by rewrite lookup_app_r, Nat.sub_diag |].
  simpl. done.
Qed.

Lemma filter_shares_graph_keeps_input_witness :
  gframes chain_world !! 0 = Some (mkGF 0 (mkDF ["node"] ["time"]
           [time_row 0 2; time_row 1 3; time_row 2 4; time_row 3 5]) ["time"] [])
  ∧ GraphFrame.filter 0 not_child false chain_world
    = (Ok 1, (GraphFrame.filter 0 not_child false chain_world).2)
  ∧ graphs (GraphFrame.filter 0 not_child false chain_world).2 = graphs chain_world.
Proof.
  split; [reflexivity |]. split; [vm_compute; reflexivity |].
  eapply (filter_shares_graph_keeps_input chain_world _ 0 1 _ not_child);
    [reflexivity | vm_compute; reflexivity].
Defined.

(** ** Adding a GraphFrame to itself *)


Lemma cell_add_self (c : cell) : cell_add c c = Ok (double_cell c).
Proof. destruct c as [z|s]; simpl; [| done]. do 2 f_equal. lia. Qed.

Lemma add_cells_self (r : Row) (ms : list string) (acc : gmap string cell) :
  ∃ cs,
    for_each
      (λ m acc,
         match r_cells r !! m, r_cells r !! m with
         | Some a, Some b => v ← cell_add a b; Ok (<[m := v]> acc)
         | _, _ => Ok acc
         end) ms acc = Ok cs
    ∧ ∀ m, cs !! m = if decide (m ∈ ms)
                     then match r_cells r !! m with
                          | Some c => Some (double_cell c)
                          | None => acc !! m
                          end
                     else acc !! m.
Proof.
  revert acc. induction ms as [|m0 ms IH]; intros acc.
  - exists acc. split; [reflexivity |]. intros m. rewrite decide_False; [done | by apply not_elem_of_nil].
  - simpl. destruct (r_cells r !! m0) as [a|] eqn:Ha.
    + rewrite cell_add_self. simpl.
      destruct (IH (<[m0 := double_cell a]> acc)) as (cs & Hcs & Hlook).
      exists cs. split; [done |]. intros m. rewrite Hlook.
      destruct (decide (m = m0)) as [->|Hne].
      * rewrite Ha, lookup_insert_eq. rewrite (decide_True _ _ (list_elem_of_here _ _)).
        by case_decide.
      * rewrite lookup_insert_ne by done.
        destruct (decide (m ∈ ms)).
        -- by rewrite decide_True by (by right).
        -- rewrite decide_False; [done |]. by apply not_elem_of_cons.
    + destruct (IH acc) as (cs & Hcs & Hlook).
      exists cs. split; [done |]. intros m. rewrite Hlook.
      destruct (decide (m = m0)) as [->|Hne].
      * rewrite Ha. by repeat case_decide.
      * destruct (decide (m ∈ ms)).
        -- by rewrite decide_True by (by right).
        -- rewrite decide_False; [done |]. by apply not_elem_of_cons.
Qed.

Lemma add_row_self (ms : list string) (r : Row) :
  ∃ r', add_row cell_add ms r r = Ok r'
        ∧ row_key r' = row_key r
        ∧ ∀ m, r_cells r' !! m = if decide (m ∈ ms)
                                 then double_cell <$> r_cells r !! m
                                 else r_cells r !! m.
Proof.
  unfold add_row.
  destruct (add_cells_self r ms (r_cells r)) as (cs & Hcs & Hlook).
  exists (set_row_cells cs r). rewrite Hcs. split; [reflexivity |].
  split; [reflexivity |]. intros m. simpl. rewrite Hlook.
  case_decide; [| done]. by destruct (r_cells r !! m).
Qed.

Lemma elem_of_all_metrics_self (gf : GraphFrame) (m : string) :
  m ∈ GraphFrame.all_metrics gf gf ↔ m ∈ exc_metrics gf ++ inc_metrics gf.
Proof.
  unfold GraphFrame.all_metrics. rewrite elem_of_remove_dups, !elem_of_app. tauto.
Qed.

Lemma add_rows_self (ms : list string) (l : list Row) :
  ∃ rs, mapM (λ '(r, o), add_row cell_add ms r o) (zip l l) = Ok rs
        ∧ Forall2 (λ r r', row_key r' = row_key r
                           ∧ ∀ m, r_cells r' !! m
                                  = if decide (m ∈ ms)
                                    then double_cell <$> r_cells r !! m
                                    else r_cells r !! m) l rs.
Proof.
  induction l as [|r l (rs & Hrs & HF)].
  - exists []. split; [reflexivity | constructor].
  - destruct (add_row_self ms r) as (r' & Hr' & Hkey & Hcells).
    exists (r' :: rs). split; [| by constructor].
    simpl. rewrite Hr'. simpl. rewrite Hrs. reflexivity.
Qed.

Lemma has_columns_spec (cols : list string) (df : DataFrame) :
  has_columns cols df = true ↔ ∀ c, c ∈ cols → c ∈ columns df.
Proof.
  unfold has_columns. rewrite forallb_forall. split.
  - intros H c Hc. apply list_elem_of_In, H in Hc. by apply bool_decide_eq_true in Hc.
  - intros H c Hc. apply bool_decide_eq_true, H. by apply list_elem_of_In.
Qed.

Lemma copy_run (w : world) (self : nat) (gf : GraphFrame) :
  gframes w !! self = Some gf →
  "node" ∈ index_names (dataframe gf) →
  GraphFrame.copy self w
  = (Ok (length (gframes w)), mkWorld (nodes w) (graphs w) (gframes w ++ [gf])).
Proof.
  intros Hself Hnode. unfold GraphFrame.copy.
  rewrite (py_bind_ok _ _ _ _ _ (get_gf_ok _ _ _ Hself)).
  unfold GraphFrame.__init__. rewrite decide_True by done. by destruct gf.
Qed.

Lemma unify_same_graph (w : world) (self other : nat) (s o : GraphFrame) :
  gframes w !! self = Some s →
  gframes w !! other = Some o →
  graph s = graph o →
  GraphFrame.unify self other w = (Ok tt, w).
Proof.
  intros Hs Ho Hg. unfold GraphFrame.unify.
  rewrite (py_bind_ok _ _ _ _ _ (get_gf_ok _ _ _ Hs)).
  rewrite (py_bind_ok _ _ _ _ _ (get_gf_ok _ _ _ Ho)).
  by rewrite decide_True.
Qed.

Lemma update_dataframe_run (w : world) (self : nat) (gf : GraphFrame)
    (f : DataFrame → result DataFrame) (df : DataFrame) :
  gframes w !! self = Some gf →
  f (dataframe gf) = Ok df →
  update_dataframe self f w
  = (Ok tt, mkWorld (nodes w) (graphs w) (<[self := set_dataframe df gf]> (gframes w))).
Proof.
  intros Hself Hf. unfold update_dataframe.
  rewrite (py_bind_ok _ _ _ _ _ (get_gf_ok _ _ _ Hself)).
  rewrite py_bind_run. unfold lift. rewrite Hf. reflexivity.
Qed.

Lemma operator_run (w : world) (self other : nat) (s o : GraphFrame)
    (op : cell → cell → result cell) (df : DataFrame) :
  gframes w !! self = Some s →
  gframes w !! other = Some o →
  df_update_op op (GraphFrame.all_metrics s o) (dataframe s) (dataframe o) = Ok df →
  GraphFrame._operator self other op w
  = (Ok self, mkWorld (nodes w) (graphs w) (<[self := set_dataframe df s]> (gframes w))).
Proof.
  intros Hs Ho Hop. unfold GraphFrame._operator.
  rewrite (py_bind_ok _ _ _ _ _ (get_gf_ok _ _ _ Hs)).
  rewrite (py_bind_ok _ _ _ _ _ (get_gf_ok _ _ _ Ho)).
  rewrite py_bind_run, (update_dataframe_run _ _ _ _ _ Hs Hop). reflexivity.
Qed.

(** C9: [A.add(A)] returns a new GraphFrame on the graph of [A] whose table
    has the rows and columns of [A]'s, every metric cell doubled and every
    other cell as it was; no row and no [_missing_node] column is added, and
    [A] itself is left as it was. *)
Theorem add_self_doubles (w : world) (A : nat) (gf : GraphFrame) :
  gframes w !! A = Some gf →
  "node" ∈ index_names (dataframe gf) →
  has_columns (exc_metrics gf ++ inc_metrics gf) (dataframe gf) = true →
  ∃ w' gf',
    GraphFrame.add A A w = (Ok (length (gframes w)), w')
    ∧ gframes w' !! length (gframes w) = Some gf'
    ∧ nodes w' = nodes w ∧ graphs w' = graphs w ∧ gframes w' !! A = Some gf
    ∧ graph gf' = graph gf
    ∧ columns (dataframe gf') = columns (dataframe gf)
    ∧ Forall2 (λ r r', row_key r' = row_key r
                       ∧ ∀ m, r_cells r' !! m
                              = if decide (m ∈ exc_metrics gf ++ inc_metrics gf)
                                then double_cell <$> r_cells r !! m
                                else r_cells r !! m)
        (rows (dataframe gf)) (rows (dataframe gf')).
Proof.
  intros HA Hnode Hcols.
  assert (A < length (gframes w))%nat as Hlt by (by eapply lookup_lt_Some).
  destruct (add_rows_self (GraphFrame.all_metrics gf gf) (rows (dataframe gf)))
    as (rs & Hrs & HF).
  assert (df_update_op cell_add (GraphFrame.all_metrics gf gf) (dataframe gf)
            (dataframe gf) = Ok (set_rows rs (dataframe gf))) as Hop.
  { unfold df_update_op.
    assert (has_columns (GraphFrame.all_metrics gf gf) (dataframe gf) = true) as ->.
    { apply has_columns_spec. intros c Hc. apply elem_of_all_metrics_self in Hc.
      by eapply has_columns_spec in Hcols. }
    rewrite decide_True by done. by rewrite Hrs. }
  set (n := length (gframes w)).
  set (w1 := mkWorld (nodes w) (graphs w) (gframes w ++ [gf])).
  set (w2 := mkWorld (nodes w) (graphs w) ((gframes w ++ [gf]) ++ [gf])).
  assert (gframes w1 !! A = Some gf) as HA1 by (simpl; by rewrite lookup_app_l).
  assert (gframes w2 !! n = Some gf) as Hn.
  { simpl. rewrite lookup_app_l by (rewrite length_app; simpl; lia).
    subst n. by rewrite lookup_app_r, Nat.sub_diag. }
  assert (gframes w2 !! length (gframes w1) = Some gf) as HSn.
  { simpl. by rewrite lookup_app_r, Nat.sub_diag. }
  eexists _, (set_dataframe (set_rows rs (dataframe gf)) gf).
  split.
  { unfold GraphFrame.add.
    rewrite (py_bind_ok _ _ _ _ _ (copy_run _ _ _ HA Hnode)). fold n w1.
    rewrite (py_bind_ok _ _ _ _ _ (copy_run _ _ _ HA1 Hnode)). fold w2.
    rewrite (py_bind_ok _ _ _ _ _ (unify_same_graph _ _ _ _ _ Hn HSn eq_refl)).
    apply (operator_run _ _ _ _ _ _ _ Hn HSn Hop). }
  simpl. fold n.
  assert (n < length ((gframes w ++ [gf]) ++ [gf]))%nat
    by (rewrite !length_app; simpl; lia).
  split; [by rewrite list_lookup_insert_eq |].
  split; [done |]. split; [done |].
  split.
  { rewrite list_lookup_insert_ne by (subst n; lia).
    rewrite <- app_assoc. by rewrite lookup_app_l. }
  split; [done |]. split; [done |].
  eapply Forall2_impl; [exact HF |].
  intros r r' [Hk Hc]. split; [done |]. intros m. rewrite Hc.
  destruct (decide (m ∈ GraphFrame.all_metrics gf gf)) as [Hin|Hin];
    rewrite elem_of_all_metrics_self in Hin.
  - by rewrite decide_True.
  - by rewrite decide_False.
Qed.

Lemma add_self_doubles_witness :
  gframes chain_world !! 0 = Some (mkGF 0 (mkDF ["node"] ["time"]
           [time_row 0 2; time_row 1 3; time_row 2 4; time_row 3 5]) ["time"] [])
  ∧ has_columns ["time"] (mkDF ["node"] ["time"]
           [time_row 0 2; time_row 1 3; time_row 2 4; time_row 3 5]) = true
  ∧ ∃ w' gf', GraphFrame.add 0 0 chain_world = (Ok 1, w')
              ∧ gframes w' !! 1 = Some gf'
              ∧ columns (dataframe gf') = ["time"].
Proof.
  split; [reflexivity |]. split; [reflexivity |].
  destruct (add_self_doubles chain_world 0 _ eq_refl
              ltac:(simpl; apply list_elem_of_here) eq_refl)
    as (w' & gf' & Hrun & Hnew & _ & _ & _ & _ & Hcols & _).
  exists w', gf'. simpl in *. auto.
Defined.

(** ** Missing rows *)

Lemma py_for_update_dataframe {A} (l : list A) (F : A → DataFrame → DataFrame)
    (w : world) (self : nat) (gf : GraphFrame) :
  gframes w !! self = Some gf →
  py_for l (λ i, update_dataframe self (λ df, Ok (F i df))) w
  = (Ok tt, mkWorld (nodes w) (graphs w)
              (<[self := set_dataframe (foldl (λ df i, F i df) (dataframe gf) l) gf]>
                 (gframes w))).
Proof.
  revert w gf. induction l as [|i l IH]; intros w gf Hself.
  - simpl. rewrite list_insert_id; [by destruct w | by destruct gf].
  - simpl py_for.
    rewrite (py_bind_ok _ _ _ _ _
               (update_dataframe_run w self gf (λ df, Ok (F i df)) _ Hself eq_refl)).
    erewrite IH; [| simpl; apply list_lookup_insert_eq; by eapply lookup_lt_Some].
    simpl. by rewrite list_insert_insert_eq.
Qed.

Lemma row_key_mark (v : cell) (r : Row) : row_key (mark_row v r) = row_key r.
Proof. reflexivity. Qed.

Lemma mark_row_mark (v v' : cell) (r : Row) : mark_row v (mark_row v' r) = mark_row v r.
Proof. unfold mark_row, set_row_cells. simpl. by rewrite insert_insert_eq. Qed.

Lemma rows_at_set (i : nat * list Z) (col : string) (v : cell) (df : DataFrame) :
  rows (at_set i col v df)
  = (λ r, if decide (row_key r = i)
          then set_row_cells (<[col := v]> (r_cells r)) r else r) <$> rows df.
Proof. reflexivity. Qed.

Lemma foldl_mark_rows (v : cell) (l : list (nat * list Z)) (df : DataFrame) :
  rows (foldl (λ df i, at_set i "_missing_node" v df) df l)
  = (λ r, if decide (row_key r ∈ l) then mark_row v r else r) <$> rows df.
Proof.
  revert df. induction l as [|i l IH]; intros df; simpl.
  - rewrite <- (list_fmap_id (rows df)) at 1. apply list_fmap_ext.
    intros _ r _. by simpl.
  - rewrite IH, rows_at_set, <- list_fmap_compose. apply list_fmap_ext.
    intros _ r _. unfold compose. fold (mark_row v r).
    destruct (decide (row_key r = i)) as [<-|Hne].
    + rewrite (decide_True (P := row_key r ∈ row_key r :: l)) by (by left).
      rewrite row_key_mark. case_decide; [apply mark_row_mark | done].
    + destruct (decide (row_key r ∈ l)) as [Hin|Hin].
      * by rewrite decide_True by (by right).
      * rewrite decide_False; [done |]. by apply not_elem_of_cons.
Qed.

Lemma lookup_zero_cells (metrics : list string) (cs : gmap string cell) (c : string) :
  foldl (λ cs j, <[j := Num 0]> cs) cs metrics !! c
  = if decide (c ∈ metrics) then Some (Num 0) else cs !! c.
Proof.
  revert cs. induction metrics as [|j ms IH]; intros cs.
  - done.
  - simpl foldl. rewrite IH. destruct (decide (c ∈ ms)) as [Hin|Hin].
    + by rewrite decide_True by (by right).
    + destruct (decide (c = j)) as [->|Hne].
      * rewrite lookup_insert_eq. by rewrite decide_True by (by left).
      * rewrite lookup_insert_ne by done.
        rewrite decide_False; [done |]. by apply not_elem_of_cons.
Qed.

Lemma lookup_zero_row (metrics : list string) (r : Row) (c : string) :
  r_cells (zero_row metrics r) !! c
  = if decide (c = "_missing_node") then Some (Str "R")
    else if decide (c ∈ metrics) then Some (Num 0) else r_cells r !! c.
Proof.
  unfold zero_row, mark_row. simpl. case_decide as Hc.
  - subst c. by rewrite lookup_insert_eq.
  - rewrite lookup_insert_ne by done. apply lookup_zero_cells.
Qed.

Lemma row_key_zero (metrics : list string) (r : Row) :
  row_key (zero_row metrics r) = row_key r.
Proof. reflexivity. Qed.

Lemma row_ext (r r' : Row) :
  row_key r = row_key r' → (∀ c, r_cells r !! c = r_cells r' !! c) → r = r'.
Proof.
  destruct r, r'. unfold row_key. simpl. intros [= -> ->] H.
  f_equal. by apply map_eq.
Qed.

Lemma zero_row_zero (metrics : list string) (r : Row) :
  zero_row metrics (zero_row metrics r) = zero_row metrics r.
Proof.
  apply row_ext; [reflexivity |]. intros c. rewrite !lookup_zero_row.
  by repeat case_decide.
Qed.

Lemma rows_zero_step (metrics : list string) (i : nat * list Z) (df : DataFrame) :
  rows (at_set i "_missing_node" (Str "R")
          (foldl (λ df j, at_set i j (Num 0) df) df metrics))
  = (λ r, if decide (row_key r = i) then zero_row metrics r else r) <$> rows df.
Proof.
  rewrite rows_at_set.
  assert (∀ df, rows (foldl (λ df j, at_set i j (Num 0) df) df metrics)
                = (λ r, if decide (row_key r = i)
                        then set_row_cells
                               (foldl (λ cs j, <[j := Num 0]> cs) (r_cells r) metrics) r
                        else r) <$> rows df) as ->.
  { clear df. induction metrics as [|j ms IH]; intros df; simpl.
    - rewrite <- (list_fmap_id (rows df)) at 1. apply list_fmap_ext.
      intros _ r _. simpl. case_decide; [by destruct r | done].
    - rewrite IH, rows_at_set, <- list_fmap_compose. apply list_fmap_ext.
      intros _ r _. simpl. destruct (decide (row_key r = i)) as [<-|Hne].
      + by rewrite decide_True by done.
      + by rewrite decide_False by done. }
  rewrite <- list_fmap_compose. apply list_fmap_ext.
  intros _ r _. simpl. destruct (decide (row_key r = i)) as [<-|Hne].
  - by rewrite decide_True by done.
  - by rewrite decide_False by done.
Qed.

Lemma foldl_zero_rows (metrics : list string) (l : list (nat * list Z))
    (df : DataFrame) :
  rows (foldl (λ df i, at_set i "_missing_node" (Str "R")
                         (foldl (λ df j, at_set i j (Num 0) df) df metrics)) df l)
  = (λ r, if decide (row_key r ∈ l) then zero_row metrics r else r) <$> rows df.
Proof.
  revert df. induction l as [|i l IH]; intros df; simpl.
  - rewrite <- (list_fmap_id (rows df)) at 1. apply list_fmap_ext.
    intros _ r _. by simpl.
  - rewrite IH, rows_zero_step, <- list_fmap_compose. apply list_fmap_ext.
    intros _ r _. unfold compose.
    destruct (decide (row_key r = i)) as [<-|Hne].
    + rewrite (decide_True (P := row_key r ∈ row_key r :: l)) by (by left).
      rewrite row_key_zero. case_decide; [apply zero_row_zero | done].
    + destruct (decide (row_key r ∈ l)) as [Hin|Hin].
      * by rewrite decide_True by (by right).
      * rewrite decide_False; [done |]. by apply not_elem_of_cons.
Qed.

Lemma insert_missing_rows_run (w : world) (self other : nat) (s o : GraphFrame)
    (S1 X1 : DataFrame) :
  gframes w !! self = Some s →
  gframes w !! other = Some o →
  let X0 := set_rows (not_isin (dataframe o) (dataframe s)) (dataframe o) in
  let Y0 := set_rows (not_isin (dataframe s) (dataframe o)) (dataframe s) in
  (if df_empty Y0 && df_empty X0 then Ok (dataframe s)
   else join_missing_node (dataframe s)) = Ok S1 →
  (if df_empty X0 then Ok X0 else join_missing_node X0) = Ok X1 →
  GraphFrame._insert_missing_rows self other w
  = (Ok tt,
     mkWorld (nodes w) (graphs w)
       (<[self := set_dataframe
            (df_append
               (foldl (λ df i, at_set i "_missing_node" (Str "L") df) S1
                  (row_key <$> rows Y0))
               (foldl (λ df i, at_set i "_missing_node" (Str "R")
                                 (foldl (λ df j, at_set i j (Num 0) df) df
                                    (GraphFrame.all_metrics s o)))
                  X1 (row_key <$> rows X1))) s]> (gframes w))).
Proof.
  intros Hs Ho X0 Y0 HS1 HX1.
  assert (self < length (gframes w))%nat as Hlt by (by eapply lookup_lt_Some).
  unfold GraphFrame._insert_missing_rows.
  rewrite (py_bind_ok _ _ _ _ _ (get_gf_ok _ _ _ Hs)).
  rewrite (py_bind_ok _ _ _ _ _ (get_gf_ok _ _ _ Ho)).
  fold X0 Y0.
  set (w1 := mkWorld (nodes w) (graphs w) (<[self := set_dataframe S1 s]> (gframes w))).
  assert (gframes w1 !! self = Some (set_dataframe S1 s)) as Hs1
    by (simpl; by apply list_lookup_insert_eq).
  (* the two joins leave [self] with table [S1] *)
  assert (∀ (k : DataFrame → Py unit),
            ((if df_empty Y0 then mret tt
              else update_dataframe self join_missing_node) ≫=
             (λ _, (if df_empty X0 then mret X0
                    else joined ← lift (join_missing_node X0);
                         _ ← (if df_empty Y0
                              then update_dataframe self join_missing_node
                              else mret tt);
                         mret joined) ≫= k)) w = k X1 w1) as Hjoins.
  { intros k. destruct (df_empty Y0) eqn:HY, (df_empty X0) eqn:HX; simpl in HS1, HX1.
    - injection HS1 as <-. injection HX1 as <-.
      unfold w1. rewrite list_insert_id; [by destruct w | by destruct s].
    - rewrite (py_bind_ok _ _ w w tt eq_refl).
      rewrite py_bind_run.
      rewrite (py_bind_ok (lift (join_missing_node X0)) _ w w X1)
        by (unfold lift; by rewrite HX1).
      rewrite (py_bind_ok _ _ _ _ _ (update_dataframe_run _ _ _ _ _ Hs HS1)).
      reflexivity.
    - injection HX1 as <-.
      rewrite (py_bind_ok _ _ _ _ _ (update_dataframe_run _ _ _ _ _ Hs HS1)).
      reflexivity.
    - rewrite (py_bind_ok _ _ _ _ _ (update_dataframe_run _ _ _ _ _ Hs HS1)).
      rewrite py_bind_run.
      rewrite (py_bind_ok (lift (join_missing_node X0)) _ w1 w1 X1)
        by (unfold lift; by rewrite HX1).
      reflexivity. }
  rewrite Hjoins.
  rewrite py_bind_run.
  rewrite (py_for_update_dataframe _
             (λ i df, at_set i "_missing_node" (Str "L") df) _ _ _ Hs1).
  simpl.
  set (gf2 := set_dataframe _ (set_dataframe S1 s)).
  set (w2 := mkWorld _ _ (<[self := gf2]> _)).
  assert (gframes w2 !! self = Some gf2) as Hs2.
  { simpl. apply list_lookup_insert_eq. by rewrite length_insert. }
  rewrite (update_dataframe_run w2 self gf2 (λ df, Ok (df_append df _)) _ Hs2 eq_refl).
  simpl. by rewrite !list_insert_insert_eq.
Qed.

Lemma join_missing_node_ok (df J : DataFrame) :
  join_missing_node df = Ok J →
  ∀ r, r ∈ rows df → mark_row (Str "") r ∈ rows J.
Proof.
  unfold join_missing_node. case_decide as Hcol; [discriminate |].
  intros [= <-] r Hr. simpl. apply list_elem_of_In, in_flat_map.
  exists r. split; [by apply list_elem_of_In |].
  apply list_elem_of_In, elem_of_replicate. split; [reflexivity |].
  assert (r ∈ List.filter (λ r', bool_decide (row_key r' = row_key r)) (rows df)) as Hin.
  { apply list_elem_of_In, filter_In. split; [by apply list_elem_of_In |].
    by apply bool_decide_eq_true. }
  destruct (List.filter _ _); [by apply elem_of_nil in Hin | simpl; lia].
Qed.

Lemma join_missing_node_fresh (df : DataFrame) :
  "_missing_node" ∉ columns df → ∃ J, join_missing_node df = Ok J.
Proof. intros H. unfold join_missing_node. rewrite decide_False by done. eauto. Qed.

Lemma maybe_join_ok (b : bool) (df J : DataFrame) :
  (if b then Ok df else join_missing_node df) = Ok J →
  ∀ r, r ∈ rows df →
       ∃ r0, r0 ∈ rows J ∧ row_key r0 = row_key r
             ∧ ∀ c, c ≠ "_missing_node" → r_cells r0 !! c = r_cells r !! c.
Proof.
  intros HJ r Hr. destruct b.
  - injection HJ as <-. exists r. auto.
  - exists (mark_row (Str "") r). split; [by eapply join_missing_node_ok |].
    split; [reflexivity |]. intros c Hc. simpl. by rewrite lookup_insert_ne.
Qed.

Lemma elem_of_not_isin (df other : DataFrame) (r : Row) :
  r ∈ not_isin df other ↔ r ∈ rows df ∧ row_key r ∉ row_key <$> rows other.
Proof.
  unfold not_isin. rewrite list_elem_of_In, filter_In, bool_decide_eq_true.
  by rewrite <- (list_elem_of_In (rows df) r).
Qed.

(** the rows that [_insert_missing_rows] leaves in the table of [self] *)
Lemma missing_rows_inserted (metrics : list string) (S O S1 X1 : DataFrame)
    (b1 b2 : bool) :
  let X0 := set_rows (not_isin O S) O in
  let Y0 := set_rows (not_isin S O) S in
  (if b1 then Ok S else join_missing_node S) = Ok S1 →
  (if b2 then Ok X0 else join_missing_node X0) = Ok X1 →
  let result :=
    df_append
      (foldl (λ df i, at_set i "_missing_node" (Str "L") df) S1 (row_key <$> rows Y0))
      (foldl (λ df i, at_set i "_missing_node" (Str "R")
                        (foldl (λ df j, at_set i j (Num 0) df) df metrics))
         X1 (row_key <$> rows X1)) in
  (∀ r, r ∈ rows O → row_key r ∉ row_key <$> rows S →
        ∃ r', r' ∈ rows result ∧ row_key r' = row_key r
              ∧ r_cells r' !! "_missing_node" = Some (Str "R")
              ∧ (∀ m, m ∈ metrics → m ≠ "_missing_node" → r_cells r' !! m = Some (Num 0))
              ∧ (∀ c, c ∉ metrics → c ≠ "_missing_node" →
                      r_cells r' !! c = r_cells r !! c))
  ∧ (∀ r, r ∈ rows S → row_key r ∉ row_key <$> rows O →
          ∃ r', r' ∈ rows result ∧ row_key r' = row_key r
                ∧ r_cells r' !! "_missing_node" = Some (Str "L")
                ∧ (∀ c, c ≠ "_missing_node" → r_cells r' !! c = r_cells r !! c)).
Proof.
  intros X0 Y0 HS1 HX1 result. split.
  - intros r Hr Hkey.
    destruct (maybe_join_ok _ _ _ HX1 r) as (r0 & Hr0 & Hk0 & Hc0).
    { simpl. by apply elem_of_not_isin. }
    exists (zero_row metrics r0). split; [| split; [by rewrite row_key_zero |]].
    + unfold result, df_append. simpl. apply elem_of_app. right.
      rewrite foldl_zero_rows. apply list_elem_of_fmap.
      exists r0. split; [| done].
      rewrite decide_True; [done |]. apply list_elem_of_fmap. eauto.
    + split; [by rewrite lookup_zero_row, decide_True |].
      split.
      * intros m Hm Hne. rewrite lookup_zero_row, decide_False by done.
        by rewrite decide_True.
      * intros c Hc Hne. rewrite lookup_zero_row, !decide_False by done. by apply Hc0.
  - intros r Hr Hkey.
    destruct (maybe_join_ok _ _ _ HS1 r Hr) as (r0 & Hr0 & Hk0 & Hc0).
    exists (mark_row (Str "L") r0). split; [| split; [by rewrite row_key_mark |]].
    + unfold result, df_append. simpl. apply elem_of_app. left.
      rewrite foldl_mark_rows. apply list_elem_of_fmap.
      exists r0. split; [| done].
      rewrite decide_True; [done |]. apply list_elem_of_fmap.
      exists r. split; [done |]. simpl. by apply elem_of_not_isin.
    + split; [simpl; by rewrite lookup_insert_eq |].
      intros c Hc. simpl. rewrite lookup_insert_ne by done. by apply Hc0.
Qed.

Lemma get_graph_ok (w : world) (g : nat) (gr : Graph) :
  graphs w !! g = Some gr → get_graph g w = (Ok gr, w).
Proof. intros H. unfold get_graph. by rewrite H. Qed.

(** the store that [unify] leaves when the two graphs are different objects *)
Lemma unify_run (w : world) (self other : nat) (s o : GraphFrame) (gs go ug : Graph)
    (nm : gmap nat nat) (ns' : list Node) (SA SB S1 X1 : DataFrame) :
  gframes w !! self = Some s →
  gframes w !! other = Some o →
  graph s ≠ graph o →
  graphs w !! graph s = Some gs →
  graphs w !! graph o = Some go →
  Graph_union gs go (nodes w) = Ok (ug, nm, ns') →
  df_apply_node (dict_get nm) (dataframe s) = Ok SA →
  df_apply_node (dict_get nm) (dataframe o) = Ok SB →
  let X0 := set_rows (not_isin SB SA) SB in
  let Y0 := set_rows (not_isin SA SB) SA in
  (if df_empty Y0 && df_empty X0 then Ok SA else join_missing_node SA) = Ok S1 →
  (if df_empty X0 then Ok X0 else join_missing_node X0) = Ok X1 →
  let result :=
    df_append
      (foldl (λ df i, at_set i "_missing_node" (Str "L") df) S1 (row_key <$> rows Y0))
      (foldl (λ df i, at_set i "_missing_node" (Str "R")
                        (foldl (λ df j, at_set i j (Num 0) df) df
                           (GraphFrame.all_metrics s o)))
         X1 (row_key <$> rows X1)) in
  ∃ w', GraphFrame.unify self other w = (Ok tt, w')
        ∧ nodes w' = ns' ∧ graphs w' = graphs w ++ [ug]
        ∧ length (gframes w') = length (gframes w)
        ∧ gframes w' !! self
          = Some (mkGF (length (graphs w)) result (exc_metrics s) (inc_metrics s))
        ∧ gframes w' !! other
          = Some (mkGF (length (graphs w)) SB (exc_metrics o) (inc_metrics o))
        ∧ ∀ k, k ≠ self → k ≠ other → gframes w' !! k = gframes w !! k.
Proof.
  intros Hs Ho Hg Hgs Hgo Hunion HSA HSB X0 Y0 HS1 HX1 result.
  assert (self ≠ other) as Hne by (intros ->; congruence).
  assert (self < length (gframes w))%nat as Hlts by (by eapply lookup_lt_Some).
  assert (other < length (gframes w))%nat as Hlto by (by eapply lookup_lt_Some).
  unfold GraphFrame.unify.
  rewrite (py_bind_ok _ _ _ _ _ (get_gf_ok _ _ _ Hs)).
  rewrite (py_bind_ok _ _ _ _ _ (get_gf_ok _ _ _ Ho)).
  rewrite decide_False by done.
  rewrite (py_bind_ok _ _ _ _ _ (get_graph_ok _ _ _ Hgs)).
  rewrite (py_bind_ok _ _ _ _ _ (get_graph_ok _ _ _ Hgo)).
  rewrite (py_bind_ok get_nodes _ w w (nodes w) eq_refl).
  rewrite (py_bind_ok (lift _) _ w w (ug, nm, ns')) by (unfold lift; by rewrite Hunion).
  cbv beta iota.
  rewrite (py_bind_ok (put_nodes ns') _ w _ tt eq_refl).
  rewrite (py_bind_ok (new_graph ug) _ _ _ _ eq_refl).
  simpl length.
  set (wb := mkWorld ns' (graphs w ++ [ug]) (gframes w)).
  rewrite (py_bind_ok _ _ _ _ _ (update_dataframe_run wb self s _ _ Hs HSA)).
  set (wc := mkWorld _ _ _).
  assert (gframes wc !! other = Some o) as Hoc
    by (simpl; by rewrite list_lookup_insert_ne).
  rewrite (py_bind_ok _ _ _ _ _ (update_dataframe_run wc other o _ _ Hoc HSB)).
  set (wd := mkWorld _ _ _).
  assert (gframes wd !! self = Some (set_dataframe SA s)) as Hsd.
  { simpl. rewrite list_lookup_insert_ne by done. by apply list_lookup_insert_eq. }
  assert (gframes wd !! other = Some (set_dataframe SB o)) as Hod.
  { simpl. apply list_lookup_insert_eq. by rewrite length_insert. }
  rewrite (py_bind_ok _ _ _ _ _
             (insert_missing_rows_run wd self other _ _ S1 X1 Hsd Hod HS1 HX1)).
  set (we := mkWorld _ _ _).
  assert (length (gframes we) = length (gframes w)) as Hlen
    by (simpl; by rewrite !length_insert).
  assert (gframes we !! self
          = Some (set_dataframe result (set_dataframe SA s))) as Hse.
  { simpl. apply list_lookup_insert_eq. by rewrite !length_insert. }
  rewrite (py_bind_ok _ _ _ _ _ (get_gf_ok _ _ _ Hse)).
  rewrite (py_bind_ok (put_gf self _) _ we _ tt eq_refl).
  set (wf := mkWorld _ _ _).
  assert (gframes wf !! other = Some (set_dataframe SB o)) as Hof.
  { simpl. rewrite !list_lookup_insert_ne by done.
    apply list_lookup_insert_eq. by rewrite length_insert. }
  rewrite (py_bind_ok _ _ _ _ _ (get_gf_ok _ _ _ Hof)).
  eexists. split; [reflexivity |]. simpl.
  split; [done |]. split; [done |].
  split; [by rewrite !length_insert |].
  split.
  { rewrite list_lookup_insert_ne by done.
    rewrite list_lookup_insert_eq by (by rewrite !length_insert). done. }
  split.
  { rewrite list_lookup_insert_eq by (by rewrite !length_insert). done. }
  intros k Hks Hko. by rewrite !list_lookup_insert_ne by done.
Qed.

Lemma df_apply_node_ok (f : nat → result nat) (df df' : DataFrame) :
  df_apply_node f df = Ok df' →
  columns df' = columns df ∧ index_names df' = index_names df
  ∧ Forall2 (λ r r', f (r_node r) = Ok (r_node r') ∧ r_sec r' = r_sec r
                     ∧ r_cells r' = r_cells r) (rows df) (rows df').
Proof.
  unfold df_apply_node. intros H.
  assert (∀ l rs, mapM (λ r, n ← f (r_node r); Ok (mkRow n (r_sec r) (r_cells r))) l
                  = Ok rs →
                  Forall2 (λ r r', f (r_node r) = Ok (r_node r') ∧ r_sec r' = r_sec r
                                   ∧ r_cells r' = r_cells r) l rs) as Hmap.
  { clear. induction l as [|r l IH]; intros rs Hrs; simpl in Hrs.
    - injection Hrs as <-. constructor.
    - destruct (f (r_node r)) as [n|] eqn:Hn; simpl in Hrs; [| discriminate].
      destruct (mapM _ l) as [rs'|] eqn:Hl; simpl in Hrs; [| discriminate].
      injection Hrs as <-. constructor; [by simpl | by apply IH]. }
  destruct (mapM _ (rows df)) as [rs|] eqn:Hrs; simpl in H; [| discriminate].
  injection H as <-. simpl. auto.
Qed.

(** C7, as the code has it: on GraphFrames with different Graph objects
    whose tables have no [_missing_node] column yet, and for which the union
    of the graphs and the re-keying of both tables succeed, [unify] re-keys
    both tables to the nodes of the union graph; every row of [other] whose
    key is missing from [self] is inserted into the table of [self] with all
    metrics 0 and [_missing_node] = "R"; the rows of [self] whose key is
    missing from [other] stay in [self], marked "L"; the table of [other] is
    only re-keyed, no row is inserted into it. *)
Theorem unify_inserts_rows_into_self (w : world) (self other : nat)
    (s o : GraphFrame) (gs go ug : Graph) (nm : gmap nat nat) (ns' : list Node)
    (SA SB : DataFrame) :
  gframes w !! self = Some s →
  gframes w !! other = Some o →
  graph s ≠ graph o →
  graphs w !! graph s = Some gs →
  graphs w !! graph o = Some go →
  Graph_union gs go (nodes w) = Ok (ug, nm, ns') →
  df_apply_node (dict_get nm) (dataframe s) = Ok SA →
  df_apply_node (dict_get nm) (dataframe o) = Ok SB →
  "_missing_node" ∉ columns (dataframe s) →
  "_missing_node" ∉ columns (dataframe o) →
  ∃ w' s',
    GraphFrame.unify self other w = (Ok tt, w')
    ∧ gframes w' !! self = Some s'
    ∧ gframes w' !! other
      = Some (mkGF (length (graphs w)) SB (exc_metrics o) (inc_metrics o))
    ∧ graph s' = length (graphs w)
    ∧ graphs w' !! length (graphs w) = Some ug
    ∧ (∀ r, r ∈ rows SB → row_key r ∉ row_key <$> rows SA →
            ∃ r', r' ∈ rows (dataframe s') ∧ row_key r' = row_key r
                  ∧ r_cells r' !! "_missing_node" = Some (Str "R")
                  ∧ (∀ m, m ∈ GraphFrame.all_metrics s o → m ≠ "_missing_node" →
                          r_cells r' !! m = Some (Num 0))
                  ∧ (∀ c, c ∉ GraphFrame.all_metrics s o → c ≠ "_missing_node" →
                          r_cells r' !! c = r_cells r !! c))
    ∧ (∀ r, r ∈ rows SA → row_key r ∉ row_key <$> rows SB →
            ∃ r', r' ∈ rows (dataframe s') ∧ row_key r' = row_key r
                  ∧ r_cells r' !! "_missing_node" = Some (Str "L")
                  ∧ (∀ c, c ≠ "_missing_node" → r_cells r' !! c = r_cells r !! c)).
Proof.
  intros Hs Ho Hg Hgs Hgo Hunion HSA HSB Hfs Hfo.
  destruct (df_apply_node_ok _ _ _ HSA) as (HcA & _ & _).
  destruct (df_apply_node_ok _ _ _ HSB) as (HcB & _ & _).
  set (X0 := set_rows (not_isin SB SA) SB).
  set (Y0 := set_rows (not_isin SA SB) SA).
  assert (∃ S1, (if df_empty Y0 && df_empty X0 then Ok SA
                 else join_missing_node SA) = Ok S1) as [S1 HS1].
  { destruct (_ && _); [eauto |]. apply join_missing_node_fresh. by rewrite HcA. }
  assert (∃ X1, (if df_empty X0 then Ok X0 else join_missing_node X0) = Ok X1)
    as [X1 HX1].
  { destruct (df_empty X0); [eauto |]. apply join_missing_node_fresh.
    simpl. by rewrite HcB. }
  destruct (unify_run w self other s o gs go ug nm ns' SA SB S1 X1
              Hs Ho Hg Hgs Hgo Hunion HSA HSB HS1 HX1)
    as (w' & Hrun & Hnodes & Hgraphs & Hlen & Hself & Hother & _).
  eexists w', _. split; [exact Hrun |]. split; [exact Hself |].
  split; [exact Hother |]. split; [reflexivity |].
  split; [rewrite Hgraphs; by rewrite lookup_app_r, Nat.sub_diag |].
  apply (missing_rows_inserted (GraphFrame.all_metrics s o) SA SB S1 X1 _ _ HS1 HX1).
Qed.

Lemma unify_inserts_rows_into_self_witness :
  ∃ w' s', GraphFrame.unify 0 1 xyz_world = (Ok tt, w')
           ∧ gframes w' !! 0 = Some s'
           ∧ ∃ r', r' ∈ rows (dataframe s') ∧ row_key r' = (6, [])
                   ∧ r_cells r' !! "_missing_node" = Some (Str "R")
                   ∧ r_cells r' !! "time" = Some (Num 0).
Proof.
  edestruct (unify_inserts_rows_into_self xyz_world 0 1)
    as (w' & s' & Hrun & Hs' & _ & _ & _ & Hright & _);
    [reflexivity | reflexivity | simpl; lia | reflexivity | reflexivity
    | reflexivity | reflexivity | reflexivity
    | simpl; by intros ?%list_elem_of_singleton
    | simpl; by intros ?%list_elem_of_singleton |].
  exists w', s'. split; [exact Hrun |]. split; [exact Hs' |].
  destruct (Hright (time_row 6 2)) as (r' & Hin & Hkey & Hmark & Hzero & _).
  - simpl. apply elem_of_cons. right. apply list_elem_of_here.
  - simpl. intros H. apply elem_of_cons in H as [H|H]; [discriminate |].
    apply list_elem_of_singleton in H. discriminate.
  - exists r'. split; [exact Hin |]. split; [exact Hkey |]. split; [exact Hmark |].
    apply Hzero; [| discriminate]. apply elem_of_remove_dups. simpl. apply list_elem_of_here.
Defined.

(** C7 as stated fails: x (node 1 of A, node 5 of the union) has a row in the
    left table only; after [unify] the right table still has no row for it. *)
Lemma unify_right_table_gets_no_rows :
  ∃ w', GraphFrame.unify 0 1 xyz_world = (Ok tt, w')
        ∧ r_node <$> gf_rows w' 0 = [4; 5; 6]
        ∧ gf_metric w' 0 5 "_missing_node" = Some (Str "L")
        ∧ r_node <$> gf_rows w' 1 = [4; 6]
        ∧ gf_metric w' 1 5 "_missing_node" = None
        ∧ gf_metric w' 1 5 "time" = None.
Proof.
  eexists. split; [vm_compute; reflexivity |].
  repeat split; vm_compute; reflexivity.
Qed.

(** ** Adding GraphFrames with different node sets *)















(** ** squash: rewiring *)

Lemma reachable_mono (ns ns' : list Node) (rs rs' : list nat) (n : nat) :
  (∀ r, r ∈ rs → r ∈ rs') →
  (∀ p c, c ∈ node_children ns p → c ∈ node_children ns' p) →
  reachable ns rs n → reachable ns' rs' n.
Proof.
  intros Hrs Hch Hn. induction Hn as [r Hr | p c _ IH Hc].
  - apply reach_root. by apply Hrs.
  - eapply reach_child; [exact IH | by apply Hch].
Qed.

Lemma unvisited_mono (L0 : nat) (V V' : gset nat) :
  V ⊆ V' → (unvisited L0 V' ≤ unvisited L0 V)%nat.
Proof. intros HV. apply subseteq_size. set_solver. Qed.

Lemma unvisited_visit (L0 : nat) (V : gset nat) (n : nat) :
  (n < L0)%nat → n ∉ V → (unvisited L0 ({[n]} ∪ V) < unvisited L0 V)%nat.
Proof.
  intros Hn HnV. apply subset_size. split; [set_solver |].
  intros Hsub. assert (n ∈ (set_seq 0 L0 ∖ V : gset nat)) as Hin.
  { apply elem_of_difference. split; [apply elem_of_set_seq; lia | done]. }
  apply Hsub in Hin. set_solver.
Qed.

Lemma node_children_add_parent (c p : nat) (ns : list Node) (i : nat) :
  node_children (Node_add_parent c p ns) i = node_children ns i.
Proof.
  unfold node_children, Node_add_parent.
  destruct (decide (c = i)) as [->|Hne].
  - rewrite list_lookup_alter_eq. by destruct (ns !! i).
  - by rewrite list_lookup_alter_ne.
Qed.

Lemma node_children_add_child (p c : nat) (ns : list Node) (i : nat) :
  (p < length ns)%nat →
  node_children (Node_add_child p c ns) i
  = if decide (i = p) then node_children ns p ++ [c] else node_children ns i.
Proof.
  intros Hp. unfold node_children, Node_add_child.
  destruct (decide (i = p)) as [->|Hne].
  - rewrite list_lookup_alter_eq.
    destruct (lookup_lt_is_Some_2 ns p Hp) as [nd ->]. done.
  - by rewrite list_lookup_alter_ne.
Qed.

Lemma node_parents_add_child (p c : nat) (ns : list Node) (i : nat) :
  node_parents (Node_add_child p c ns) i = node_parents ns i.
Proof.
  unfold node_parents, Node_add_child.
  destruct (decide (p = i)) as [->|Hne].
  - rewrite list_lookup_alter_eq. by destruct (ns !! i).
  - by rewrite list_lookup_alter_ne.
Qed.

Lemma node_parents_add_parent (c p : nat) (ns : list Node) (i : nat) :
  (c < length ns)%nat →
  node_parents (Node_add_parent c p ns) i
  = if decide (i = c) then node_parents ns c ++ [p] else node_parents ns i.
Proof.
  intros Hc. unfold node_parents, Node_add_parent.
  destruct (decide (i = c)) as [->|Hne].
  - rewrite list_lookup_alter_eq.
    destruct (lookup_lt_is_Some_2 ns c Hc) as [nd ->]. done.
  - by rewrite list_lookup_alter_ne.
Qed.

Lemma node_frame_add_parent (c p : nat) (ns : list Node) (i : nat) :
  node_frame (Node_add_parent c p ns) i = node_frame ns i.
Proof.
  unfold node_frame, Node_add_parent.
  destruct (decide (c = i)) as [->|Hne].
  - rewrite list_lookup_alter_eq. by destruct (ns !! i).
  - by rewrite list_lookup_alter_ne.
Qed.

Lemma node_frame_add_child (p c : nat) (ns : list Node) (i : nat) :
  node_frame (Node_add_child p c ns) i = node_frame ns i.
Proof.
  unfold node_frame, Node_add_child.
  destruct (decide (p = i)) as [->|Hne].
  - rewrite list_lookup_alter_eq. by destruct (ns !! i).
  - by rewrite list_lookup_alter_ne.
Qed.

Section rewire.
Variable old_to_new : gmap nat nat.
Variable L0 : nat.
Hypothesis new_above : ∀ k v, old_to_new !! k = Some v → (L0 ≤ v)%nat.

Local Abbreviation is_new := (is_new old_to_new).
Local Abbreviation rw_inv := (rw_inv old_to_new L0).
Local Abbreviation rw_le := (rw_le L0).
Local Abbreviation parent_ok := (parent_ok old_to_new).
Local Abbreviation rewire_post := (rewire_post old_to_new L0).




Lemma rw_le_refl (s : rewire_state) : rw_le s s.
Proof. by constructor. Qed.

Lemma rw_le_trans (s1 s2 s3 : rewire_state) : rw_le s1 s2 → rw_le s2 s3 → rw_le s1 s3.
Proof.
  intros H12 H23. constructor.
  - rewrite (le_length _ _ H23). apply (le_length _ _ H12).
  - intros i Hi. rewrite (le_old _ _ H23) by done. by apply (le_old _ _ H12).
  - intros i. rewrite (le_frame _ _ H23). apply (le_frame _ _ H12).
  - intros i c Hc. by apply (le_children _ _ H23), (le_children _ _ H12).
  - intros r Hr. by apply (le_roots _ _ H23), (le_roots _ _ H12).
  - etrans; [apply (le_visited _ _ H12) | apply (le_visited _ _ H23)].
Qed.

Lemma rw_le_reachable (s s' : rewire_state) (n : nat) :
  rw_le s s' → reachable (rw_nodes s) (new_roots s) n →
  reachable (rw_nodes s') (new_roots s') n.
Proof. intros []. by apply reachable_mono. Qed.

Lemma old_children_le (s s' : rewire_state) (i : nat) :
  rw_le s s' → (i < L0)%nat →
  node_children (rw_nodes s') i = node_children (rw_nodes s) i.
Proof. intros Hle Hi. unfold node_children. by rewrite (le_old _ _ Hle). Qed.


Lemma parent_ok_le (s s' : rewire_state) (np : option nat) :
  rw_le s s' → parent_ok s np → parent_ok s' np.
Proof.
  intros Hle. destruct np as [p|]; [| done]. intros [Hnew Hreach].
  split; [done | by eapply rw_le_reachable].
Qed.

Lemma connect_spec (s : rewire_state) (np : option nat) (n : nat) :
  rw_inv s → parent_ok s np → is_new n →
  rw_inv (GraphFrame.connect np s n)
  ∧ rw_le s (GraphFrame.connect np s n)
  ∧ visited (GraphFrame.connect np s n) = visited s
  ∧ connections (GraphFrame.connect np s n) = connections s
  ∧ reachable (rw_nodes (GraphFrame.connect np s n))
              (new_roots (GraphFrame.connect np s n)) n.
Proof.
  intros Hinv Hnp Hn.
  destruct Hinv as [inv_new_valid0 inv_old_closed0 inv_roots_new0 inv_conn_new0
                      inv_children_new0 inv_conn_retained0 inv_visited_old0 inv_attached0
                      inv_parents_new0 inv_child_parent0 inv_nodup0 inv_roots_nodup0].
  unfold GraphFrame.connect.
  destruct np as [p|].
  - destruct Hnp as [Hp Hreach].
    assert (p < length (rw_nodes s))%nat as Hplt by auto.
    assert (L0 ≤ p)%nat as HpL by (destruct Hp as [k Hk]; eauto).
    assert (L0 ≤ n)%nat as HnL by (destruct Hn as [k Hk]; eauto).
    case_decide as Hin.
    + split; [by constructor |]. split; [apply rw_le_refl |].
      split; [done |]. split; [done |]. by eapply reach_child.
    + set (ns' := Node_add_parent n p (Node_add_child p n (rw_nodes s))).
      assert (∀ i, node_children ns' i
                   = if decide (i = p) then node_children (rw_nodes s) p ++ [n]
                     else node_children (rw_nodes s) i) as Hch.
      { intros i. unfold ns'. rewrite node_children_add_parent.
        by apply node_children_add_child. }
      assert (∀ i, (i < L0)%nat → ns' !! i = rw_nodes s !! i) as Hold.
      { intros i Hi. unfold ns', Node_add_parent, Node_add_child.
        rewrite !list_lookup_alter_ne by lia. done. }
      assert (length ns' = length (rw_nodes s)) as Hlen.
      { unfold ns', Node_add_parent, Node_add_child. by rewrite !length_alter. }
      assert (n < length (rw_nodes s))%nat as Hnlt by auto.
      assert (∀ i, node_parents ns' i
                   = if decide (i = n) then node_parents (rw_nodes s) n ++ [p]
                     else node_parents (rw_nodes s) i) as Hpa.
      { intros i. unfold ns'. rewrite node_parents_add_parent.
        - rewrite !node_parents_add_child. done.
        - unfold Node_add_child. by rewrite length_alter. }
      assert (∀ i c, c ∈ node_children (rw_nodes s) i → c ∈ node_children ns' i) as Hmono.
      { intros i c Hc. rewrite Hch. case_decide; [subst; apply elem_of_app; by left | done]. }
      assert (rw_le s (mkRW ns' (new_roots s) (connections s) (visited s))) as Hle.
      { constructor; simpl; try done.
        intros i. unfold ns'. by rewrite node_frame_add_parent, node_frame_add_child. }
      split; [| split; [exact Hle |]].
      * constructor; simpl; try done.
        -- intros v Hv. rewrite Hlen. auto.
        -- intros i c Hi. rewrite Hch, decide_False by lia. by apply inv_old_closed0.
        -- intros q c Hq. rewrite Hch. case_decide.
           ++ subst q. intros [Hc|Hc%list_elem_of_singleton]%elem_of_app; [eauto | by subst].
           ++ by apply inv_children_new0.
        -- intros k v Hk Hv. eapply (rw_le_reachable s _ v Hle). eauto.
        -- intros c q Hc. rewrite Hpa. case_decide as Hcn.
           ++ subst c. intros [Hq|Hq%list_elem_of_singleton]%elem_of_app.
              ** destruct (inv_parents_new0 n q Hc Hq). auto.
              ** subst q. split; [done |]. rewrite Hch, decide_True by done.
                 apply elem_of_app. right. by apply list_elem_of_singleton.
           ++ intros Hq. destruct (inv_parents_new0 c q Hc Hq). auto.
        -- intros q c Hq. rewrite Hch. case_decide as Hqp.
           ++ subst q. intros [Hc|Hc%list_elem_of_singleton]%elem_of_app.
              ** destruct (inv_child_parent0 p c Hq Hc) as [Hin' Hr]. split.
                 --- rewrite Hpa. case_decide; [subst; apply elem_of_app; by left | done].
                 --- by apply (rw_le_reachable s _ p Hle).
              ** subst c. split.
                 --- rewrite Hpa, decide_True by done. apply elem_of_app. right.
                     by apply list_elem_of_singleton.
                 --- by apply (rw_le_reachable s _ p Hle).
           ++ intros Hc. destruct (inv_child_parent0 q c Hq Hc) as [Hin' Hr]. split.
              ** rewrite Hpa. case_decide; [subst; apply elem_of_app; by left | done].
              ** by apply (rw_le_reachable s _ q Hle).
        -- intros v Hv. rewrite Hpa, Hch. destruct (inv_nodup0 v Hv) as [Hnp' Hnc]. split.
           ++ case_decide; [subst v | done]. apply NoDup_app. split; [done |].
              split; [| apply NoDup_singleton].
              intros q Hq ->%list_elem_of_singleton.
              destruct (inv_parents_new0 n p Hv Hq). done.
           ++ case_decide; [subst v | done]. apply NoDup_app. split; [done |].
              split; [| apply NoDup_singleton].
              by intros q Hq ->%list_elem_of_singleton.
      * split; [done |]. split; [done |].
        eapply (reach_child _ _ p); [by eapply (rw_le_reachable s _ p Hle) |].
        simpl. rewrite Hch, decide_True by done. apply elem_of_app. right.
        by apply list_elem_of_singleton.
  - case_decide as Hin.
    + split; [by constructor |]. split; [apply rw_le_refl |].
      split; [done |]. split; [done |]. by apply reach_root.
    + assert (rw_le s (mkRW (rw_nodes s) (new_roots s ++ [n]) (connections s) (visited s)))
        as Hle.
      { constructor; simpl; try done. intros r Hr. apply elem_of_app. by left. }
      split; [| split; [exact Hle |]].
      * constructor; simpl; try done.
        -- intros r [Hr|Hr%list_elem_of_singleton]%elem_of_app; [eauto | by subst].
        -- intros k v Hk Hv. eapply (rw_le_reachable s _ v Hle). eauto.
        -- intros q c Hq Hc. destruct (inv_child_parent0 q c Hq Hc) as [Hin' Hr].
           split; [done |]. by apply (rw_le_reachable s _ q Hle).
        -- apply NoDup_app. split; [done |]. split; [| apply NoDup_singleton].
           by intros q Hq ->%list_elem_of_singleton.
      * split; [done |]. split; [done |]. apply reach_root. simpl.
        apply elem_of_app. right. by apply list_elem_of_singleton.
Qed.

Lemma connect_all (l : list nat) (s : rewire_state) (np : option nat) :
  rw_inv s → parent_ok s np → (∀ v, v ∈ l → is_new v) →
  rw_inv (foldl (GraphFrame.connect np) s l)
  ∧ rw_le s (foldl (GraphFrame.connect np) s l)
  ∧ visited (foldl (GraphFrame.connect np) s l) = visited s
  ∧ connections (foldl (GraphFrame.connect np) s l) = connections s
  ∧ ∀ v, v ∈ l → reachable (rw_nodes (foldl (GraphFrame.connect np) s l))
                            (new_roots (foldl (GraphFrame.connect np) s l)) v.
Proof.
  revert s. induction l as [|n l IH]; intros s Hinv Hnp Hl; simpl.
  - split; [done |]. split; [apply rw_le_refl |]. split; [done |]. split; [done |].
    intros v Hv. by apply elem_of_nil in Hv.
  - destruct (connect_spec s np n Hinv Hnp) as (Hinv1 & Hle1 & Hvis1 & Hconn1 & Hreach1).
    { apply Hl. by left. }
    destruct (IH (GraphFrame.connect np s n) Hinv1) as (Hinv2 & Hle2 & Hvis2 & Hconn2 & Hreach2).
    { by eapply parent_ok_le. }
    { intros v Hv. apply Hl. by right. }
    split; [done |]. split; [by eapply rw_le_trans |].
    split; [congruence |]. split; [congruence |].
    intros v [->|Hv]%elem_of_cons; [| by apply Hreach2].
    by eapply rw_le_reachable.
Qed.


Lemma closed_trans (s1 s2 s3 : rewire_state) :
  rw_le s1 s2 → rw_le s2 s3 → closed s1 s2 → closed s2 s3 → closed s1 s3.
Proof.
  intros H12 H23 C12 C23 v c Hv3 Hv1 Hc.
  destruct (decide (v ∈ visited s2)) as [Hv2|Hv2].
  - apply (le_visited _ _ H23). by eapply C12.
  - eapply C23; [done | done |]. by apply (le_children _ _ H12).
Qed.


Lemma rewire_children (fuel : nat) (np : option nat) :
  (∀ node np s,
      (unvisited L0 (visited s) < fuel)%nat → rw_inv s → (node < L0)%nat →
      parent_ok s np →
      ∃ res, GraphFrame.rewire fuel old_to_new node np s = Ok res
             ∧ rewire_post node s res) →
  ∀ (cs : list nat) (tr : gset nat) (s : rewire_state),
    (unvisited L0 (visited s) < fuel)%nat → rw_inv s →
    (∀ c, c ∈ cs → (c < L0)%nat) → parent_ok s np → (∀ v, v ∈ tr → is_new v) →
    ∃ tr' s',
      for_each
        (λ child '(tr, st),
           '(r, st') ← GraphFrame.rewire fuel old_to_new child np st;
           Ok (tr ∪ r, st'))
        cs (tr, s) = Ok (tr', s')
      ∧ rw_inv s' ∧ rw_le s s' ∧ (∀ c, c ∈ cs → c ∈ visited s')
      ∧ (∀ v, v ∈ tr' → is_new v) ∧ closed s s'.
Proof.
  intros IHf. induction cs as [|c cs IH]; intros tr s Hfuel Hinv Hcs Hnp Htr.
  - exists tr, s. split; [reflexivity |]. split; [done |]. split; [apply rw_le_refl |].
    split; [intros c Hc; by apply elem_of_nil in Hc |]. split; [done |].
    intros v c Hv Hv'. done.
  - destruct (IHf c np s Hfuel Hinv) as ([r s1] & Hrun & Hinv1 & Hle1 & Hc1 & Hr1 & Hcl1).
    { apply Hcs. by left. }
    { done. }
    simpl in *.
    destruct (IH (tr ∪ r) s1) as (tr' & s' & Hrun' & Hinv' & Hle' & Hcs' & Htr' & Hcl').
    { eapply Nat.le_lt_trans; [| exact Hfuel].
      apply unvisited_mono, (le_visited _ _ Hle1). }
    { done. }
    { intros c' Hc'. apply Hcs. by right. }
    { by eapply parent_ok_le. }
    { intros v [Hv|Hv]%elem_of_union; auto. }
    exists tr', s'. split.
    { simpl. rewrite Hrun. simpl. exact Hrun'. }
    split; [done |]. split; [by eapply rw_le_trans |].
    split.
    { intros c' [->|Hc']%elem_of_cons; [| by apply Hcs'].
      by apply (le_visited _ _ Hle'). }
    split; [done |]. by eapply closed_trans.
Qed.

Lemma conn_new (s : rewire_state) (node v : nat) :
  rw_inv s → v ∈ GraphFrame.conn s node → is_new v.
Proof.
  intros Hinv. unfold GraphFrame.conn.
  destruct (connections s !! node) as [S|] eqn:HS; simpl; [| set_solver].
  by eapply inv_conn_new.
Qed.

(** [rewire] returns when its fuel exceeds the number of unvisited old
    nodes, and keeps the invariant *)
Lemma rewire_spec (fuel : nat) (node : nat) (np : option nat) (s : rewire_state) :
  (unvisited L0 (visited s) < fuel)%nat → rw_inv s → (node < L0)%nat →
  parent_ok s np →
  ∃ res, GraphFrame.rewire fuel old_to_new node np s = Ok res
         ∧ rewire_post node s res.
Proof.
  revert node np s. induction fuel as [|fuel IH]; intros node np s Hfuel Hinv Hnode Hnp;
    [lia |].
  simpl GraphFrame.rewire.
  destruct (connect_all (elements (GraphFrame.conn s node)) s np Hinv Hnp)
    as (Hinv1 & Hle1 & Hvis1 & Hconn1 & Hreach1).
  { intros v Hv%elem_of_elements. by eapply conn_new. }
  set (s1 := foldl (GraphFrame.connect np) s (elements (GraphFrame.conn s node))) in *.
  set (np' := match old_to_new !! node with Some nn => Some nn | None => np end).
  (* the traversal of the children *)
  assert (∃ tr s2,
            (if decide (node ∈ visited s1) then Ok (∅, s1)
             else for_each
                    (λ child '(tr, st),
                       '(r, st') ← GraphFrame.rewire fuel old_to_new child np' st;
                       Ok (tr ∪ r, st'))
                    (node_children (rw_nodes s1) node)
                    (∅, mkRW (rw_nodes s1) (new_roots s1) (connections s1)
                             ({[node]} ∪ visited s1))) = Ok (tr, s2)
            ∧ rw_inv s2 ∧ rw_le s s2 ∧ node ∈ visited s2
            ∧ (∀ v, v ∈ tr → is_new v) ∧ closed s s2)
    as (tr & s2 & Hrun & Hinv2 & Hle2 & Hvis2 & Htr & Hcl2).
  { case_decide as Hseen.
    - exists ∅, s1. split; [done |]. split; [done |]. split; [done |].
      split; [done |]. split; [set_solver |].
      intros v c Hv Hv'. rewrite Hvis1 in Hv. done.
    - set (s1' := mkRW (rw_nodes s1) (new_roots s1) (connections s1)
                       ({[node]} ∪ visited s1)).
      assert (rw_le s1 s1') as Hle1'.
      { constructor; simpl; try done. set_solver. }
      assert (rw_inv s1') as Hinv1'.
      { destruct Hinv1 as [I1 I2 I3 I4 I5 I6 I7 I8 I9 I10 I11 I12]. constructor; simpl; try done.
        - intros k [->%elem_of_singleton|Hk]%elem_of_union; auto.
        - intros k v [->%elem_of_singleton|Hk]%elem_of_union Hv; [| eauto].
          apply Hreach1. apply elem_of_elements. unfold GraphFrame.conn.
          rewrite (inv_conn_retained _ Hinv _ _ Hv). simpl. set_solver. }
      assert (parent_ok s1' np') as Hnp'.
      { unfold np'. destruct (old_to_new !! node) as [nn|] eqn:Hnn.
        - split; [by exists node |]. apply (inv_attached _ Hinv1' node); [| done].
          simpl. set_solver.
        - eapply parent_ok_le; [exact Hle1' |]. by eapply parent_ok_le. }
      destruct (rewire_children fuel np' IH (node_children (rw_nodes s1) node) ∅ s1')
        as (tr & s2 & Hrun & Hinv2 & Hle2 & Hcs & Htr & Hcl).
      { simpl. rewrite Hvis1.
        assert (unvisited L0 ({[node]} ∪ visited s) < unvisited L0 (visited s))%nat.
        { apply unvisited_visit; [done |]. by rewrite <- Hvis1. }
        lia. }
      { done. }
      { intros c Hc. by eapply (inv_old_closed _ Hinv1). }
      { done. }
      { set_solver. }
      exists tr, s2. split; [exact Hrun |]. split; [done |].
      assert (rw_le s s1') as Hle' by (by eapply rw_le_trans).
      split; [by eapply rw_le_trans |].
      split; [apply (le_visited _ _ Hle2); simpl; set_solver |].
      split; [done |].
      intros v c Hv Hv' Hc.
      destruct (decide (v = node)) as [->|Hne].
      + apply Hcs. by rewrite (old_children_le s s1).
      + eapply (Hcl v c); [done | |].
        * simpl. rewrite Hvis1. set_solver.
        * simpl. by apply (le_children _ _ Hle1). }
  rewrite Hrun. simpl.
  destruct (old_to_new !! node) as [nn|] eqn:Hnn.
  - eexists. split; [reflexivity |]. split; [done |]. split; [done |].
    split; [done |]. split; [| done].
    simpl. intros v ->%elem_of_singleton. by exists node.
  - eexists. split; [reflexivity |]. unfold rewire_post. simpl.
    assert (∀ v, v ∈ GraphFrame.conn s2 node ∪ tr → is_new v) as Hc.
    { intros v [Hv|Hv]%elem_of_union; [by eapply conn_new | auto]. }
    split; [| split; [| split; [done | split; [done |]]]].
    + destruct Hinv2 as [I1 I2 I3 I4 I5 I6 I7 I8 I9 I10 I11 I12]. constructor; simpl; try done.
      * intros k S v. destruct (decide (k = node)) as [->|Hne].
        -- rewrite lookup_insert_eq. intros [= <-]. apply Hc.
        -- rewrite lookup_insert_ne by done. eauto.
      * intros k v Hk. rewrite lookup_insert_ne by congruence. eauto.
    + destruct Hle2 as [E1 E2 E3 E4 E5 E6]. by constructor.
    + exact Hcl2.
Qed.

Lemma unvisited_le (V : gset nat) : (unvisited L0 V ≤ L0)%nat.
Proof.
  unfold unvisited. rewrite <- (size_set_seq (C := gset nat) 0 L0) at 2.
  apply subseteq_size. set_solver.
Qed.

Lemma rewire_roots_spec (rs : list nat) (s : rewire_state) :
  rw_inv s → (L0 ≤ length (rw_nodes s))%nat → (∀ r, r ∈ rs → (r < L0)%nat) →
  ∃ s', GraphFrame.rewire_roots old_to_new rs s = Ok s'
        ∧ rw_inv s' ∧ rw_le s s' ∧ (∀ r, r ∈ rs → r ∈ visited s') ∧ closed s s'.
Proof.
  unfold GraphFrame.rewire_roots.
  revert s. induction rs as [|r rs IH]; intros s Hinv Hlen Hrs.
  - exists s. split; [reflexivity |]. split; [done |]. split; [apply rw_le_refl |].
    split; [intros r Hr; by apply elem_of_nil in Hr |]. by intros v c Hv Hv'.
  - destruct (rewire_spec (S (length (rw_nodes s))) r None s)
      as ([res s1] & Hrun & Hinv1 & Hle1 & Hr1 & _ & Hcl1).
    { pose proof (unvisited_le (visited s)). lia. }
    { done. }
    { apply Hrs. by left. }
    { done. }
    simpl in *.
    destruct (IH s1) as (s' & Hrun' & Hinv' & Hle' & Hrs' & Hcl').
    { done. }
    { by rewrite (le_length _ _ Hle1). }
    { intros r' Hr'. apply Hrs. by right. }
    exists s'. split.
    { simpl. rewrite Hrun. simpl. exact Hrun'. }
    split; [done |]. split; [by eapply rw_le_trans |].
    split.
    { intros r' [->|Hr']%elem_of_cons; [| by apply Hrs'].
      by apply (le_visited _ _ Hle'). }
    by eapply closed_trans.
Qed.

(** after [rewire] has run from every root, the new graph consists of the
    copies of the retained nodes that the old graph reaches *)
Lemma rewire_roots_reach (rs : list nat) (s s' : rewire_state) :
  rw_inv s → visited s = ∅ → new_roots s = [] →
  (L0 ≤ length (rw_nodes s))%nat → (∀ r, r ∈ rs → (r < L0)%nat) →
  GraphFrame.rewire_roots old_to_new rs s = Ok s' →
  rw_le s s' ∧ rw_inv s'
  ∧ (∀ n, reachable (rw_nodes s') (new_roots s') n → is_new n)
  ∧ (∀ k v, reachable (rw_nodes s) rs k → old_to_new !! k = Some v →
            reachable (rw_nodes s') (new_roots s') v).
Proof.
  intros Hinv Hvis Hroots Hlen Hrs Hrun.
  destruct (rewire_roots_spec rs s Hinv Hlen Hrs)
    as (s'' & Hrun' & Hinv' & Hle & Hvisited & Hcl).
  rewrite Hrun in Hrun'. injection Hrun' as <-.
  split; [done |]. split; [done |]. split.
  - intros n Hn. induction Hn as [r Hr | p c Hp IHp Hc].
    + by eapply inv_roots_new.
    + eapply inv_children_new; [done | | done].
      destruct IHp as [k Hk]. eauto.
  - assert (∀ k, reachable (rw_nodes s) rs k → k ∈ visited s' ∧ (k < L0)%nat) as Hall.
    { intros k Hk. induction Hk as [r Hr | p c Hp [IHp IHlt] Hc].
      - split; [by apply Hvisited | by apply Hrs].
      - split; [| by eapply (inv_old_closed _ Hinv)].
        eapply (Hcl p c); [done | | done]. rewrite Hvis. set_solver. }
    intros k v Hk Hv. eapply inv_attached; [done | | done]. by apply Hall.
Qed.
End rewire.

Lemma copy_nodes_spec (l : list nat) (ns : list Node) :
  NoDup l →
  ∀ O ns', GraphFrame.copy_nodes l ns = (O, ns') →
    length ns' = (length ns + length l)%nat
    ∧ (∀ i, (i < length ns)%nat → ns' !! i = ns !! i)
    ∧ (∀ i, (length ns ≤ i)%nat → node_children ns' i = [])
    ∧ (∀ k v, O !! k = Some v ↔ ∃ j, l !! j = Some k ∧ v = (length ns + j)%nat).
Proof.
  revert ns. induction l as [|n l IH]; intros ns Hnd O ns' Hcopy; simpl in Hcopy.
  - injection Hcopy as <- <-. split; [simpl; lia |]. split; [done |].
    split.
    + intros i Hi. unfold node_children. by rewrite lookup_ge_None_2.
    + intros k v. rewrite lookup_empty. split; [done |]. by intros (j & Hj & _).
  - apply NoDup_cons in Hnd as [Hn Hnd].
    destruct (GraphFrame.copy_nodes l (ns ++ [_])) as [m ns2] eqn:Hrec.
    injection Hcopy as <- <-.
    destruct (IH _ Hnd _ _ Hrec) as (Hlen & Hold & Hnew & Hmap).
    rewrite length_app in Hlen, Hold, Hnew, Hmap. simpl in *.
    split; [lia |]. split; [| split].
    + intros i Hi. rewrite Hold by lia. by rewrite lookup_app_l.
    + intros i Hi. destruct (decide (i = length ns)) as [->|Hne].
      * unfold node_children. rewrite Hold by lia.
        by rewrite lookup_app_r, Nat.sub_diag.
      * apply Hnew. lia.
    + intros k v. destruct (decide (k = n)) as [->|Hne].
      * rewrite lookup_insert_eq. split.
        -- intros [= <-]. exists 0%nat. split; [done | lia].
        -- intros ([|j] & Hj & ->); simpl in Hj; [f_equal; lia |].
           exfalso. apply Hn. by eapply list_elem_of_lookup_2.
      * rewrite lookup_insert_ne by done. rewrite Hmap. split.
        -- intros (j & Hj & ->). exists (S j). split; [done | lia].
        -- intros ([|j] & Hj & ->); simpl in Hj; [congruence |].
           exists j. split; [done | lia].
Qed.

Lemma copy_nids_spec (O : gmap nat nat) (l : list nat) (ns : list Node) :
  length (GraphFrame.copy_nids O l ns) = length ns
  ∧ (∀ i, node_children (GraphFrame.copy_nids O l ns) i = node_children ns i)
  ∧ (∀ i, node_frame (GraphFrame.copy_nids O l ns) i = node_frame ns i).
Proof.
  unfold GraphFrame.copy_nids. revert ns. induction l as [|k l IH]; intros ns; [done |].
  simpl. destruct (IH (match O !! k with
                       | Some new => alter (set_nid (node_nid ns k)) new ns
                       | None => ns
                       end)) as (Hlen & Hch & Hfr).
  rewrite Hlen. split; [| split].
  - destruct (O !! k); [by rewrite length_alter | done].
  - intros i. rewrite Hch. destruct (O !! k) as [new|]; [| done].
    unfold node_children. destruct (decide (new = i)) as [->|Hne].
    + rewrite list_lookup_alter_eq. by destruct (ns !! i).
    + by rewrite list_lookup_alter_ne.
  - intros i. rewrite Hfr. destruct (O !! k) as [new|]; [| done].
    unfold node_frame. destruct (decide (new = i)) as [->|Hne].
    + rewrite list_lookup_alter_eq. by destruct (ns !! i).
    + by rewrite list_lookup_alter_ne.
Qed.

(** ** squash on a table without rows *)




Lemma wf_nodes_intro (ns : list Node) :
  Forall (λ nd, Forall (λ c, c < length ns)%nat (children nd)) ns → wf_nodes ns.
Proof.
  intros HF i c Hc. unfold node_children in Hc.
  destruct (ns !! i) as [nd|] eqn:Hi; simpl in Hc; [| by apply elem_of_nil in Hc].
  eapply Forall_lookup_1 in HF; [| exact Hi].
  by eapply Forall_forall in HF.
Qed.



(** ** Traversal and normalization keep the reachable nodes *)

Lemma for_each_inv {A S} (body : A → S → result S) (P : S → Prop) (l : list A)
    (s s' : S) :
  (∀ x s s', x ∈ l → body x s = Ok s' → P s → P s') →
  for_each body l s = Ok s' → P s → P s'.
Proof.
  revert s. induction l as [|x l IH]; intros s Hbody Hrun HP; simpl in Hrun.
  - by injection Hrun as <-.
  - destruct (body x s) as [s1|] eqn:Hx; simpl in Hrun; [| discriminate].
    eapply (IH s1); [| done |].
    + intros y t t' Hy. apply Hbody. by right.
    + eapply Hbody; [by left | done | done].
Qed.

Lemma reachable_child_list (ns : list Node) (rs rs' : list nat) (n : nat) :
  (∀ r, r ∈ rs' → reachable ns rs r) → reachable ns rs' n → reachable ns rs n.
Proof.
  intros Hrs Hn. induction Hn as [r Hr | p c _ IH Hc]; [by apply Hrs |].
  by eapply reach_child.
Qed.

Lemma Node_traverse_sound (fuel : nat) (ns : list Node) (post : bool) (n : nat)
    (seen seen' : gset nat) (l : list nat) :
  Node_traverse fuel ns post n seen = Ok (l, seen') →
  ∀ x, x ∈ l → reachable ns [n] x.
Proof.
  revert n seen seen' l. induction fuel as [|fuel IH]; intros n seen seen' l Hrun;
    [discriminate |].
  simpl in Hrun. case_decide as Hseen.
  { injection Hrun as <- <-. intros x Hx. by apply elem_of_nil in Hx. }
  destruct (for_each _ _ _) as [[sub sn]|] eqn:Hloop; simpl in Hrun; [| discriminate].
  injection Hrun as <- <-.
  assert (∀ x, x ∈ sub → reachable ns [n] x) as Hsub.
  { eapply (for_each_inv _ (λ st, ∀ x, x ∈ st.1 → reachable ns [n] x) _ _ _ _ Hloop).
    Unshelve.
    - intros x Hx. by apply elem_of_nil in Hx.
    - intros c [acc sn0] [acc' sn1] Hc Hbody Hacc. simpl in *.
      destruct (Node_traverse fuel ns post c sn0) as [[lc sc]|] eqn:Hc'; simpl in Hbody;
        [| discriminate].
      injection Hbody as <- <-. intros x [Hx|Hx]%elem_of_app; [by apply Hacc |].
      eapply reachable_child_list; [| by eapply IH].
      intros r ->%list_elem_of_singleton.
      eapply reach_child; [apply reach_root; by left | done]. }
  intros x Hx. destruct post.
  - apply elem_of_app in Hx as [Hx|Hx%list_elem_of_singleton]; [by apply Hsub |].
    subst. apply reach_root. by left.
  - apply elem_of_cons in Hx as [->|Hx]; [| by apply Hsub].
    apply reach_root. by left.
Qed.

Lemma traverse_from_sound (ns : list Node) (post : bool) (starts l : list nat) :
  traverse_from ns post starts = Ok l → ∀ x, x ∈ l → reachable ns starts x.
Proof.
  unfold traverse_from. intros Hrun.
  destruct (for_each _ _ _) as [[acc sn]|] eqn:Hloop; simpl in Hrun; [| discriminate].
  injection Hrun as <-.
  eapply (for_each_inv _ (λ st, ∀ x, x ∈ st.1 → reachable ns starts x) _ _ _ _ Hloop).
  Unshelve.
  - intros x Hx. by apply elem_of_nil in Hx.
  - intros r [acc0 sn0] [acc' sn1] Hr Hbody Hacc. simpl in Hacc |- *.
    destruct (Node_traverse _ ns post r sn0) as [[lr sr]|] eqn:Hr'; simpl in Hbody;
      [| discriminate].
    injection Hbody as <- <-. intros x [Hx|Hx]%elem_of_app; [by apply Hacc |].
    eapply reachable_child_list; [| by eapply Node_traverse_sound].
    intros r' ->%list_elem_of_singleton. by apply reach_root.
Qed.

Lemma find_dup_Some (ns : list Node) (l : list nat) (a b : nat) :
  find_dup ns l = Some (a, b) → a ∈ l ∧ b ∈ l ∧ b ≠ a.
Proof.
  induction l as [|x l IH]; [discriminate |]. simpl.
  destruct (List.find _ l) as [y|] eqn:Hfind.
  - intros [= <- <-]. apply find_some in Hfind as [Hy Hp].
    apply bool_decide_eq_true in Hp as [Hne _].
    split; [by left |]. split; [right; by apply list_elem_of_In | done].
  - intros H. destruct (IH H) as (Ha & Hb & Hne).
    split; [by right |]. split; [by right | done].
Qed.

Lemma find_merge_Some (ns : list Node) (order : list nat) (a b : nat) :
  find_merge ns order = Some (a, b) →
  ∃ n, n ∈ order ∧ a ∈ node_children ns n ∧ b ∈ node_children ns n ∧ b ≠ a.
Proof.
  induction order as [|n order IH]; [discriminate |]. simpl.
  destruct (find_dup ns (node_children ns n)) as [[a' b']|] eqn:Hdup.
  - intros [= <- <-]. apply find_dup_Some in Hdup. exists n. split; [by left | done].
  - intros H. destruct (IH H) as (m & Hm & Hab). exists m. split; [by right | done].
Qed.

Lemma elem_of_subst_ref (a b : nat) (l : list nat) (x : nat) :
  x ∈ subst_ref a b l ↔ ∃ y, y ∈ l ∧ x = redirect a b y.
Proof.
  unfold subst_ref. rewrite elem_of_remove_dups, list_elem_of_fmap. naive_solver.
Qed.

Lemma node_children_merge (a b : nat) (ns : list Node) (i : nat) :
  (a < length ns)%nat →
  node_children (merge_nodes a b ns) i
  = subst_ref a b (if decide (i = a) then node_children ns a ++ node_children ns b
                   else node_children ns i).
Proof.
  intros Ha. unfold merge_nodes, node_children at 1.
  rewrite list_lookup_imap.
  destruct (ns !! i) as [nd|] eqn:Hi; simpl.
  - destruct (decide (i = a)) as [->|Hne]; simpl.
    + replace (node_children ns a) with (children nd); [done |].
      unfold node_children. by rewrite Hi.
    + unfold node_children. by rewrite Hi.
  - rewrite decide_False.
    + unfold node_children. by rewrite Hi.
    + intros ->. apply lookup_ge_None in Hi. lia.
Qed.

Lemma length_merge_nodes (a b : nat) (ns : list Node) :
  length (merge_nodes a b ns) = length ns.
Proof. unfold merge_nodes. apply length_imap. Qed.

Lemma reachable_valid (ns : list Node) (rs : list nat) (n : nat) :
  wf_nodes ns → (∀ r, r ∈ rs → (r < length ns)%nat) →
  reachable ns rs n → (n < length ns)%nat.
Proof.
  intros Hwf Hrs Hn. destruct Hn as [r Hr | p c _ Hc]; [by apply Hrs | by eapply Hwf].
Qed.

Lemma redirect_eq (a b : nat) : redirect a b b = a.
Proof. unfold redirect. by rewrite decide_True. Qed.

Lemma redirect_ne (a b x : nat) : x ≠ b → redirect a b x = x.
Proof. intros H. unfold redirect. by rewrite decide_False. Qed.

Lemma merge_reachable (a b : nat) (ns : list Node) (rs : list nat) :
  wf_nodes ns → (∀ r, r ∈ rs → (r < length ns)%nat) →
  reachable ns rs a → reachable ns rs b →
  ∀ n', reachable (merge_nodes a b ns) (subst_ref a b rs) n'
        ↔ ∃ n, reachable ns rs n ∧ n' = redirect a b n.
Proof.
  intros Hwf Hrs Ha Hb n'.
  assert (a < length ns)%nat as Hlt by (by eapply reachable_valid).
  split.
  - intros Hn'. induction Hn' as [r Hr | p c _ (p0 & Hp0 & ->) Hc].
    + apply elem_of_subst_ref in Hr as (y & Hy & ->). exists y.
      split; [by apply reach_root | done].
    + rewrite node_children_merge in Hc by done.
      apply elem_of_subst_ref in Hc as (y & Hy & ->). exists y. split; [| done].
      destruct (decide (p0 = b)) as [->|Hne].
      * rewrite redirect_eq, decide_True in Hy by done.
        apply elem_of_app in Hy as [Hy|Hy];
          [by apply (reach_child _ _ a) | by apply (reach_child _ _ b)].
      * rewrite redirect_ne in Hy by done.
        destruct (decide (p0 = a)) as [->|Hne'].
        -- apply elem_of_app in Hy as [Hy|Hy];
             [by apply (reach_child _ _ a) | by apply (reach_child _ _ b)].
        -- by apply (reach_child _ _ p0).
  - intros (n & Hn & ->). induction Hn as [r Hr | p c _ IH Hc].
    + apply reach_root. apply elem_of_subst_ref. eauto.
    + eapply reach_child; [exact IH |].
      rewrite node_children_merge by done. apply elem_of_subst_ref.
      exists c. split; [| done].
      destruct (decide (p = b)) as [->|Hne].
      * rewrite redirect_eq, decide_True by done. apply elem_of_app. by right.
      * rewrite (redirect_ne a b p) by done.
        destruct (decide (p = a)) as [->|Hne']; [apply elem_of_app; by left | done].
Qed.

Lemma merge_wf (a b : nat) (ns : list Node) (rs : list nat) :
  wf_nodes ns → (∀ r, r ∈ rs → (r < length ns)%nat) → (a < length ns)%nat →
  wf_nodes (merge_nodes a b ns)
  ∧ ∀ r, r ∈ subst_ref a b rs → (r < length (merge_nodes a b ns))%nat.
Proof.
  intros Hwf Hrs Ha. rewrite length_merge_nodes. split.
  - intros i c. rewrite node_children_merge, length_merge_nodes by done.
    intros (y & Hy & ->)%elem_of_subst_ref.
    destruct (decide (y = b)) as [->|Hne]; [by rewrite redirect_eq |].
    rewrite redirect_ne by done.
    destruct (decide (i = a)); [| by eapply Hwf].
    apply elem_of_app in Hy as [Hy|Hy]; by eapply Hwf.
  - intros r (y & Hy & ->)%elem_of_subst_ref.
    destruct (decide (y = b)) as [->|Hne]; [by rewrite redirect_eq |].
    rewrite redirect_ne by done. by apply Hrs.
Qed.

Lemma record_merge_lookup (a b : nat) (merges : gmap nat nat) (n : nat) :
  default n (record_merge a b merges !! n) = redirect a b (default n (merges !! n)).
Proof.
  unfold record_merge.
  destruct ((redirect a b <$> merges) !! b) as [v|] eqn:Hb.
  - rewrite lookup_fmap. destruct (merges !! n) as [u|] eqn:Hn; simpl; [done |].
    unfold redirect. case_decide; [| done]. subst n.
    rewrite lookup_fmap, Hn in Hb. discriminate.
  - destruct (decide (n = b)) as [->|Hne].
    + rewrite lookup_insert_eq. rewrite lookup_fmap in Hb.
      destruct (merges !! b); [discriminate |]. simpl.
      unfold redirect. by rewrite decide_True.
    + rewrite lookup_insert_ne by done. rewrite lookup_fmap.
      destruct (merges !! n) as [u|]; simpl; [done |].
      unfold redirect. by rewrite decide_False.
Qed.

Lemma normalize_loop_reach (fuel : nat) (ns : list Node) (rs : list nat)
    (merges : gmap nat nat) (ns' : list Node) (rs' : list nat) (merges' : gmap nat nat) :
  normalize_loop fuel ns rs merges = Ok (ns', rs', merges') →
  wf_nodes ns → (∀ r, r ∈ rs → (r < length ns)%nat) →
  ∃ ρ : nat → nat,
    (∀ n, default n (merges' !! n) = ρ (default n (merges !! n)))
    ∧ (∀ n', reachable ns' rs' n' ↔ ∃ n, reachable ns rs n ∧ n' = ρ n)
    ∧ wf_nodes ns' ∧ (∀ r, r ∈ rs' → (r < length ns')%nat).
Proof.
  revert ns rs merges. induction fuel as [|fuel IH]; intros ns rs merges Hrun Hwf Hrs;
    [discriminate |].
  simpl in Hrun.
  destruct (traverse_from ns false rs) as [order|] eqn:Horder; simpl in Hrun;
    [| discriminate].
  destruct (find_merge ns order) as [[a b]|] eqn:Hfind.
  - apply find_merge_Some in Hfind as (n & Hn & Ha & Hb & Hne).
    assert (reachable ns rs n) as Hreach by (by eapply traverse_from_sound).
    assert (reachable ns rs a) as Hra by (by apply (reach_child _ _ n)).
    assert (reachable ns rs b) as Hrb by (by apply (reach_child _ _ n)).
    assert (a < length ns)%nat as Hlt by (by eapply Hwf).
    destruct (merge_wf a b ns rs Hwf Hrs Hlt) as [Hwf' Hrs'].
    destruct (IH _ _ _ Hrun Hwf' Hrs') as (ρ & Hρ & Hreach' & Hwf'' & Hrs'').
    exists (ρ ∘ redirect a b). split; [| split; [| done]].
    + intros m. rewrite Hρ, record_merge_lookup. done.
    + intros n'. rewrite Hreach'. split.
      * intros (m & Hm & ->). apply merge_reachable in Hm as (m0 & Hm0 & ->); eauto.
      * intros (m & Hm & ->). exists (redirect a b m). split; [| done].
        apply merge_reachable; eauto.
  - injection Hrun as <- <- <-. exists id. split; [done |]. split; [| done].
    intros n'. naive_solver.
Qed.

Lemma enumerate_traverse_children (g : Graph) (ns ns' : list Node) :
  Graph_enumerate_traverse g ns = Ok ns' →
  length ns' = length ns
  ∧ (∀ i, node_children ns' i = node_children ns i)
  ∧ (∀ i, node_frame ns' i = node_frame ns i).
Proof.
  unfold Graph_enumerate_traverse.
  destruct (Graph_traverse ns false g) as [order|]; simpl; [| discriminate].
  intros [= <-]. generalize (imap (λ i n, (i, n)) order). intros l.
  induction l as [|[i n] l (Hlen & Hch & Hfr)]; [done |]. simpl.
  rewrite length_alter. split; [done |]. split.
  - intros j. rewrite <- Hch. unfold node_children.
    destruct (decide (n = j)) as [->|Hne].
    + rewrite list_lookup_alter_eq. by destruct (_ !! j).
    + by rewrite list_lookup_alter_ne.
  - intros j. rewrite <- Hfr. unfold node_frame.
    destruct (decide (n = j)) as [->|Hne].
    + rewrite list_lookup_alter_eq. by destruct (_ !! j).
    + by rewrite list_lookup_alter_ne.
Qed.

(** ** The sums only rewrite cells *)

Section keeps.
Context {R : relation GraphFrame} `{!PreOrder R}.

Lemma table_only_refl (self : nat) (w : world) : table_only R self w w.
Proof. repeat split; try done. intros gf Hgf. exists gf. split; [done | reflexivity]. Qed.

Lemma table_only_trans (self : nat) (w1 w2 w3 : world) :
  table_only R self w1 w2 → table_only R self w2 w3 → table_only R self w1 w3.
Proof.
  intros (Hn1 & Hg1 & Hl1 & Ho1 & Hs1) (Hn2 & Hg2 & Hl2 & Ho2 & Hs2).
  split; [congruence |]. split; [congruence |]. split; [congruence |].
  split.
  - intros k Hk. rewrite Ho2 by done. by apply Ho1.
  - intros gf Hgf. destruct (Hs1 gf Hgf) as (gf1 & Hgf1 & HR1).
    destruct (Hs2 gf1 Hgf1) as (gf2 & Hgf2 & HR2).
    exists gf2. split; [done |]. by etrans.
Qed.

Lemma keeps_ret {A} (self : nat) (a : A) : keeps R self (mret a).
Proof. intros w r w' [= <- <-]. apply table_only_refl. Qed.

Lemma keeps_raise {A} (self : nat) (e : exn) : keeps R self (@py_raise A e).
Proof. intros w r w' [= <- <-]. apply table_only_refl. Qed.

Lemma keeps_lift {A} (self : nat) (x : result A) : keeps R self (lift x).
Proof. intros w r w' [= <- <-]. apply table_only_refl. Qed.

Lemma keeps_get_gf (self k : nat) : keeps R self (get_gf k).
Proof.
  intros w r w'. unfold get_gf. destruct (gframes w !! k); intros [= <- <-];
    apply table_only_refl.
Qed.

Lemma keeps_get_graph (self k : nat) : keeps R self (get_graph k).
Proof.
  intros w r w'. unfold get_graph. destruct (graphs w !! k); intros [= <- <-];
    apply table_only_refl.
Qed.

Lemma keeps_get_nodes (self : nat) : keeps R self get_nodes.
Proof. intros w r w' [= <- <-]. apply table_only_refl. Qed.

Lemma keeps_bind {A B} (self : nat) (m : Py A) (f : A → Py B) :
  keeps R self m → (∀ a, keeps R self (f a)) → keeps R self (m ≫= f).
Proof.
  intros Hm Hf w r w'. rewrite py_bind_run.
  destruct (m w) as [[a|e] w1] eqn:Hrun.
  - intros Hrun'. eapply table_only_trans; [by eapply Hm | by eapply Hf].
  - intros [= <- <-]. by eapply Hm.
Qed.

Lemma keeps_for {A} (self : nat) (l : list A) (body : A → Py unit) :
  (∀ x, keeps R self (body x)) → keeps R self (py_for l body).
Proof.
  intros Hbody. induction l as [|x l IH]; simpl.
  - apply keeps_ret.
  - apply keeps_bind; [apply Hbody | by intros _].
Qed.

Lemma keeps_update_dataframe (self : nat) (f : DataFrame → result DataFrame) :
  (∀ gf df', f (dataframe gf) = Ok df' → R gf (set_dataframe df' gf)) →
  keeps R self (update_dataframe self f).
Proof.
  intros Hf w r w'. unfold update_dataframe. rewrite py_bind_run. unfold get_gf.
  destruct (gframes w !! self) as [gf|] eqn:Hgf; [| intros [= <- <-]; apply table_only_refl].
  rewrite py_bind_run. unfold lift.
  destruct (f (dataframe gf)) as [df'|] eqn:Hdf; [| intros [= <- <-]; apply table_only_refl].
  unfold put_gf. intros [= <- <-]. simpl.
  assert (self < length (gframes w))%nat by (by eapply lookup_lt_Some).
  split; [done |]. split; [done |]. split; [simpl; by rewrite length_insert |].
  split; [intros k Hk; simpl; by rewrite list_lookup_insert_ne |].
  intros gf0 Hgf0. rewrite Hgf in Hgf0. injection Hgf0 as <-.
  eexists. split; [simpl; by apply list_lookup_insert_eq |]. auto.
Qed.
End keeps.

Lemma df_copy_column_keys (out col : string) (df df' : DataFrame) :
  df_copy_column out col df = Ok df' → row_key <$> rows df' = row_key <$> rows df.
Proof.
  unfold df_copy_column. case_decide; [| discriminate]. intros [= <-]. simpl.
  rewrite <- list_fmap_compose. by apply list_fmap_ext.
Qed.

Lemma loc_set_node_keys (n : nat) (outs : list string) (vals : list cell) (df : DataFrame) :
  row_key <$> rows (loc_set_node n outs vals df) = row_key <$> rows df.
Proof.
  simpl. rewrite <- list_fmap_compose. apply list_fmap_ext. intros i r _. simpl.
  by case_decide.
Qed.

Lemma loc_set_node_series_keys (n : nat) (outs : list string) (vals : list cell)
    (df : DataFrame) :
  row_key <$> rows (loc_set_node_series n outs vals df) = row_key <$> rows df.
Proof.
  unfold loc_set_node_series. destruct (labels_one_row n df); [apply loc_set_node_keys |].
  simpl. rewrite <- list_fmap_compose. apply list_fmap_ext. intros i r _. simpl.
  by case_decide.
Qed.

Lemma loc_set_node_sec_keys (n : nat) (i : list Z) (outs : list string)
    (vals : list cell) (df : DataFrame) :
  row_key <$> rows (loc_set_node_sec n i outs vals df) = row_key <$> rows df.
Proof.
  simpl. rewrite <- list_fmap_compose. apply list_fmap_ext. intros j r _. simpl.
  by case_decide.
Qed.

Lemma keeps_index_init_sum_columns (self : nat) (cols : list string)
    (outs : option (list string)) :
  keeps same_index self (GraphFrame._init_sum_columns self cols outs).
Proof.
  unfold GraphFrame._init_sum_columns. apply keeps_bind.
  - destruct outs as [outs|]; [| apply keeps_ret].
    apply keeps_bind; [| intros _; apply keeps_ret].
    apply keeps_for. intros [col out].
    apply keeps_update_dataframe. intros gf df' Hdf.
    split; [done |]. split; [done |]. by eapply df_copy_column_keys.
  - intros out_columns.
    case_decide; [apply keeps_raise | apply keeps_ret].
Qed.

Lemma keeps_index_subtree_sum_loop (self : nat) (outs : list string)
    (function : list cell → result cell) :
  keeps same_index self (GraphFrame.subtree_sum_loop self outs function).
Proof.
  unfold GraphFrame.subtree_sum_loop.
  apply keeps_bind; [apply keeps_get_gf | intros gf].
  apply keeps_bind; [apply keeps_get_graph | intros g].
  apply keeps_bind; [apply keeps_get_nodes | intros ns].
  apply keeps_bind; [apply keeps_lift | intros order].
  apply keeps_for. intros node.
  destruct (node_children ns node) as [|c cs]; [apply keeps_ret |].
  apply keeps_update_dataframe. intros gf0 df' Hdf.
  destruct (loc_nodes _ _ _) as [sel|]; simpl in Hdf; [| discriminate].
  destruct (reduce_columns _ _ sel) as [vals|]; simpl in Hdf; [| discriminate].
  injection Hdf as <-. split; [done |]. split; [done |].
  apply loc_set_node_series_keys.
Qed.

Lemma keeps_index_subgraph_sum_loop (self : nat) (cols outs : list string)
    (function : list cell → result cell) :
  keeps same_index self (GraphFrame.subgraph_sum_loop self cols outs function).
Proof.
  unfold GraphFrame.subgraph_sum_loop.
  apply keeps_bind; [apply keeps_get_gf | intros gf].
  apply keeps_bind; [apply keeps_get_graph | intros g].
  apply keeps_bind; [apply keeps_get_nodes | intros ns].
  apply keeps_bind; [apply keeps_lift | intros order].
  apply keeps_for. intros node.
  apply keeps_bind; [apply keeps_lift | intros sub].
  apply keeps_bind; [apply keeps_get_gf | intros gf'].
  destruct (is_multiindex (dataframe gf')).
  - apply keeps_bind; [apply keeps_lift | intros idx].
    apply keeps_for. intros i.
    apply keeps_update_dataframe. intros gf0 df' Hdf.
    destruct (loc_nodes_sec _ _ _ _) as [sel|]; simpl in Hdf; [| discriminate].
    destruct (reduce_columns _ _ sel) as [vals|]; simpl in Hdf; [| discriminate].
    injection Hdf as <-. split; [done |]. split; [done |]. apply loc_set_node_sec_keys.
  - apply keeps_update_dataframe. intros gf0 df' Hdf.
    destruct (loc_nodes _ _ _) as [sel|]; simpl in Hdf; [| discriminate].
    destruct (reduce_columns _ _ sel) as [vals|]; simpl in Hdf; [| discriminate].
    injection Hdf as <-. split; [done |]. split; [done |]. apply loc_set_node_keys.
Qed.

Lemma keeps_index_subgraph_sum (self : nat) (cols : list string)
    (outs : option (list string)) (function : list cell → result cell) :
  keeps same_index self (GraphFrame.subgraph_sum self cols outs function).
Proof.
  unfold GraphFrame.subgraph_sum.
  apply keeps_bind; [apply keeps_get_gf | intros gf].
  apply keeps_bind; [apply keeps_get_graph | intros g].
  apply keeps_bind; [apply keeps_get_nodes | intros ns].
  apply keeps_bind; [apply keeps_lift | intros tree].
  destruct tree.
  - unfold GraphFrame.subtree_sum. apply keeps_bind.
    + apply keeps_index_init_sum_columns.
    + intros out_columns. apply keeps_index_subtree_sum_loop.
  - unfold GraphFrame.subgraph_sum_fallback. apply keeps_bind.
    + apply keeps_index_init_sum_columns.
    + intros out_columns. apply keeps_index_subgraph_sum_loop.
Qed.

Lemma keeps_index_update_inclusive_columns (self : nat) :
  keeps same_index self (GraphFrame.update_inclusive_columns self).
Proof.
  intros w r w'. unfold GraphFrame.update_inclusive_columns.
  rewrite py_bind_run. unfold get_gf.
  destruct (gframes w !! self) as [gf|] eqn:Hgf;
    [| intros [= <- <-]; apply table_only_refl].
  rewrite py_bind_run. unfold put_gf at 1. intros Hrun.
  eapply table_only_trans; [| eapply keeps_index_subgraph_sum; exact Hrun].
  assert (self < length (gframes w))%nat by (by eapply lookup_lt_Some).
  split; [done |]. split; [done |]. split; [simpl; by rewrite length_insert |].
  split; [intros k Hk; simpl; by rewrite list_lookup_insert_ne |].
  intros gf0 Hgf0. rewrite Hgf in Hgf0. injection Hgf0 as <-.
  eexists. split; [simpl; by apply list_lookup_insert_eq |]. done.
Qed.

(** ** squash: the graph and the table of the result have the same nodes *)

Lemma mapM_result_inv {A B} (f : A → result B) (l : list A) (ys : list B) :
  mapM f l = Ok ys → Forall2 (λ x y, f x = Ok y) l ys.
Proof.
  revert ys. induction l as [|x l IH]; intros ys Hrun; simpl in Hrun.
  - injection Hrun as <-. constructor.
  - destruct (f x) as [y|] eqn:Hy; simpl in Hrun; [| discriminate].
    destruct (mapM f l) as [ys'|]; simpl in Hrun; [| discriminate].
    injection Hrun as <-. constructor; [done | by apply IH].
Qed.

Lemma Forall2_elem_l {A B} (P : A → B → Prop) (l : list A) (k : list B) (x : A) :
  Forall2 P l k → x ∈ l → ∃ y, y ∈ k ∧ P x y.
Proof.
  intros HF Hx. apply list_elem_of_lookup in Hx as [i Hi].
  destruct (Forall2_lookup_l _ _ _ _ _ HF Hi) as (y & Hy & HP).
  exists y. split; [by eapply list_elem_of_lookup_2 | done].
Qed.

Lemma Forall2_elem_r {A B} (P : A → B → Prop) (l : list A) (k : list B) (y : B) :
  Forall2 P l k → y ∈ k → ∃ x, x ∈ l ∧ P x y.
Proof.
  intros HF Hy. apply list_elem_of_lookup in Hy as [i Hi].
  destruct (Forall2_lookup_r _ _ _ _ _ HF Hi) as (x & Hx & HP).
  exists x. split; [by eapply list_elem_of_lookup_2 | done].
Qed.

Lemma df_apply_node_nodes (f : nat → result nat) (df df' : DataFrame) (n' : nat) :
  df_apply_node f df = Ok df' →
  n' ∈ df_nodes df' ↔ ∃ n, n ∈ df_nodes df ∧ f n = Ok n'.
Proof.
  intros Hrun. apply df_apply_node_ok in Hrun as (_ & _ & HF).
  unfold df_nodes. rewrite !list_elem_of_fmap. split.
  - intros (r' & -> & Hr').
    destruct (Forall2_elem_r _ _ _ _ HF Hr') as (r & Hr & Hf & _).
    exists (r_node r). split; [| done]. apply list_elem_of_fmap. eauto.
  - intros (n & Hn & Hf). apply list_elem_of_fmap in Hn as (r & -> & Hr).
    destruct (Forall2_elem_l _ _ _ _ HF Hr) as (r' & Hr' & Hf' & _).
    exists r'. split; [congruence | done].
Qed.

Lemma groupby_agg_nodes (metrics : list string) (df df' : DataFrame) (n : nat) :
  groupby_agg metrics df = Ok df' → n ∈ df_nodes df' ↔ n ∈ df_nodes df.
Proof.
  unfold groupby_agg. intros Hrun.
  destruct (mapM _ _) as [rs|] eqn:Hmap; simpl in Hrun; [| discriminate].
  injection Hrun as <-. apply mapM_result_inv in Hmap.
  unfold df_nodes. simpl. rewrite !list_elem_of_fmap. split.
  - intros (r' & -> & Hr').
    destruct (Forall2_elem_r _ _ _ _ Hmap Hr') as (k & Hk & Hagg).
    destruct (agg_group _ _ _) as [cs|]; simpl in Hagg; [| discriminate].
    injection Hagg as <-. simpl.
    apply elem_of_remove_dups, list_elem_of_fmap in Hk as (r & -> & Hr).
    exists r. done.
  - intros (r & -> & Hr).
    assert (row_key r ∈ remove_dups (row_key <$> rows df)) as Hk.
    { apply elem_of_remove_dups, list_elem_of_fmap. eauto. }
    destruct (Forall2_elem_l _ _ _ _ Hmap Hk) as (r' & Hr' & Hagg).
    destruct (agg_group _ _ _) as [cs|]; simpl in Hagg; [| discriminate].
    injection Hagg as <-. eexists. split; [| exact Hr']. done.
Qed.

Lemma row_key_nodes (l l' : list Row) :
  row_key <$> l = row_key <$> l' → r_node <$> l = r_node <$> l'.
Proof.
  intros H. apply (f_equal (fmap fst)) in H.
  rewrite <- !list_fmap_compose in H. exact H.
Qed.

Lemma copy_nodes_prefix (l : list nat) (ns : list Node) (O : gmap nat nat)
    (ns' : list Node) :
  GraphFrame.copy_nodes l ns = (O, ns') →
  ∀ i, (i < length ns)%nat → ∃ nd, ns !! i = Some nd ∧ ns' !! i = Some nd.
Proof.
  revert ns O ns'. induction l as [|n l IH]; intros ns O ns' Hcopy i Hi; simpl in Hcopy.
  - injection Hcopy as <- <-. destruct (lookup_lt_is_Some_2 ns i Hi) as [nd Hnd]. eauto.
  - destruct (GraphFrame.copy_nodes l (ns ++ [_])) as [m ns2] eqn:Hrec.
    injection Hcopy as <- <-.
    destruct (IH _ _ _ Hrec i) as (nd & Hnd & Hnd').
    { rewrite length_app. lia. }
    rewrite lookup_app_l in Hnd by done. eauto.
Qed.

Lemma copy_nodes_parents (l : list nat) (ns : list Node) (O : gmap nat nat)
    (ns' : list Node) :
  GraphFrame.copy_nodes l ns = (O, ns') →
  ∀ i, (length ns ≤ i)%nat → node_parents ns' i = [].
Proof.
  revert ns O ns'. induction l as [|n l IH]; intros ns O ns' Hcopy i Hi; simpl in Hcopy.
  - injection Hcopy as <- <-. unfold node_parents. by rewrite lookup_ge_None_2.
  - destruct (GraphFrame.copy_nodes l (ns ++ [_])) as [m ns2] eqn:Hrec.
    injection Hcopy as <- <-.
    destruct (decide (i = length ns)) as [->|Hne].
    + destruct (copy_nodes_prefix _ _ _ _ Hrec (length ns)) as [nd [Hnd Hnd']].
      { rewrite length_app. simpl. lia. }
      unfold node_parents. rewrite Hnd'. rewrite lookup_app_r, Nat.sub_diag in Hnd by done.
      by injection Hnd as <-.
    + eapply IH; [exact Hrec |]. rewrite length_app. simpl. lia.
Qed.

Lemma copy_nids_parents (O : gmap nat nat) (l : list nat) (ns : list Node) (i : nat) :
  node_parents (GraphFrame.copy_nids O l ns) i = node_parents ns i.
Proof.
  unfold GraphFrame.copy_nids. revert ns. induction l as [|k l IH]; intros ns; [done |].
  simpl. rewrite IH. destruct (O !! k) as [new|]; [| done].
  unfold node_parents. destruct (decide (new = i)) as [->|Hne].
  - rewrite list_lookup_alter_eq. by destruct (ns !! i).
  - by rewrite list_lookup_alter_ne.
Qed.

(** the state in which squash starts [rewire] satisfies its invariant *)
Lemma squash_initial_inv (ns : list Node) (retained : list nat)
    (old_to_new : gmap nat nat) (ns1 : list Node) :
  wf_nodes ns → NoDup retained →
  GraphFrame.copy_nodes retained ns = (old_to_new, ns1) →
  let ns2 := GraphFrame.copy_nids old_to_new retained ns1 in
  rw_inv old_to_new (length ns) (mkRW ns2 [] ((λ v, {[v]}) <$> old_to_new) ∅)
  ∧ (∀ k v, old_to_new !! k = Some v → (length ns ≤ v)%nat)
  ∧ (length ns ≤ length ns2)%nat
  ∧ (∀ i, (i < length ns)%nat → node_children ns2 i = node_children ns i)
  ∧ (∀ k v, old_to_new !! k = Some v → k ∈ retained).
Proof.
  intros Hwf Hnd Hcopy ns2.
  destruct (copy_nodes_spec retained ns Hnd _ _ Hcopy) as (Hlen & Hold & Hnew & Hmap).
  destruct (copy_nids_spec old_to_new retained ns1) as (Hlen2 & Hch2 & _).
  fold ns2 in Hlen2, Hch2.
  assert (∀ i, (i < length ns)%nat → node_children ns2 i = node_children ns i) as Hch.
  { intros i Hi. rewrite Hch2. unfold node_children. by rewrite Hold. }
  split; [| split; [| split; [| split]]].
  - constructor; simpl.
    + intros v [k Hk]. apply Hmap in Hk as (j & Hj & ->).
      apply lookup_lt_Some in Hj. lia.
    + intros i c Hi Hc. rewrite Hch in Hc by done. by eapply Hwf.
    + intros r Hr. by apply elem_of_nil in Hr.
    + intros k S v Hk Hv. rewrite lookup_fmap in Hk.
      destruct (old_to_new !! k) as [v'|] eqn:Hk'; simpl in Hk; [| discriminate].
      injection Hk as <-. apply elem_of_singleton in Hv as ->. by exists k.
    + intros p c Hp Hc. rewrite Hch2, Hnew in Hc by done. by apply elem_of_nil in Hc.
    + intros k v Hk. by rewrite lookup_fmap, Hk.
    + intros k Hk. by apply elem_of_empty in Hk.
    + intros k v Hk. by apply elem_of_empty in Hk.
    + intros c p Hc Hp. unfold ns2 in Hp.
      rewrite copy_nids_parents, (copy_nodes_parents _ _ _ _ Hcopy) in Hp by done.
      by apply elem_of_nil in Hp.
    + intros p c Hp Hc. rewrite Hch2, Hnew in Hc by done. by apply elem_of_nil in Hc.
    + intros v Hv. unfold ns2 at 1.
      rewrite copy_nids_parents, (copy_nodes_parents _ _ _ _ Hcopy), Hch2, Hnew by done.
      split; apply NoDup_nil_2.
    + apply NoDup_nil_2.
  - intros k v Hk. apply Hmap in Hk as (j & _ & ->). lia.
  - lia.
  - done.
  - intros k v Hk. apply Hmap in Hk as (j & Hj & _). by eapply list_elem_of_lookup_2.
Qed.

(** after [rewire] every child reference points into the arena *)
Lemma rw_inv_wf (old_to_new : gmap nat nat) (L0 : nat) (s : rewire_state) :
  rw_inv old_to_new L0 s → (L0 ≤ length (rw_nodes s))%nat →
  wf_nodes (rw_nodes s) ∧ ∀ r, r ∈ new_roots s → (r < length (rw_nodes s))%nat.
Proof.
  intros Hinv Hlen. split.
  - intros i c Hc. destruct (decide (i < L0)%nat) as [Hi|Hi].
    + pose proof (inv_old_closed _ Hinv i c Hi Hc). lia.
    + eapply (inv_new_valid _ Hinv), (inv_children_new _ Hinv); [| done]. lia.
  - intros r Hr. by eapply (inv_new_valid _ Hinv), (inv_roots_new _ Hinv).
Qed.

(** C2: when squash succeeds on a GraphFrame whose rows are rows of nodes of
    its graph, the nodes reachable from the roots of the graph of the result
    are exactly the node values of the table of the result: every row is the
    row of a node of the graph and every node of the graph has a row. *)
Theorem squash_graph_matches_table (w w' : world) (self new : nat)
    (gf : GraphFrame) (g : Graph) :
  gframes w !! self = Some gf →
  graphs w !! graph gf = Some g →
  wf_graph (nodes w) g →
  (∀ n, n ∈ df_nodes (dataframe gf) → reachable (nodes w) (roots g) n) →
  GraphFrame.squash self w = (Ok new, w') →
  ∀ n, reachable (nodes w') (gf_roots w' new) n ↔ n ∈ r_node <$> gf_rows w' new.
Proof.
  intros Hself Hg [Hwf Hroots] Hrows Hrun.
  unfold GraphFrame.squash in Hrun.
  rewrite (py_bind_ok _ _ _ _ _ (get_gf_ok _ _ _ Hself)) in Hrun.
  rewrite (py_bind_ok _ _ _ _ _ (get_graph_ok _ _ _ Hg)) in Hrun.
  rewrite (py_bind_ok get_nodes _ w w (nodes w) eq_refl) in Hrun.
  set (retained := elements (list_to_set (df_nodes (dataframe gf)) : gset nat)) in Hrun.
  destruct (GraphFrame.copy_nodes retained (nodes w)) as [old_to_new ns1] eqn:Hcopy.
  set (ns2 := GraphFrame.copy_nids old_to_new retained ns1) in Hrun.
  destruct (squash_initial_inv (nodes w) retained old_to_new ns1 Hwf
              (NoDup_elements _) Hcopy) as (Hinv & Habove & Hlen2 & Hch2 & Hdom).
  fold ns2 in Hinv, Hlen2, Hch2.
  apply py_bind_ok_inv in Hrun as (st & w1 & Hst & Hrun).
  apply lift_ok_inv in Hst as [Hst ->].
  apply py_bind_ok_inv in Hrun as (ns3 & w1 & Hns3 & Hrun).
  apply lift_ok_inv in Hns3 as [Hns3 ->].
  apply py_bind_ok_inv in Hrun as (df1 & w1 & Hdf1 & Hrun).
  apply lift_ok_inv in Hdf1 as [Hdf1 ->].
  apply py_bind_ok_inv in Hrun as ([[ns4 gr] merges] & w1 & Hnorm & Hrun).
  apply lift_ok_inv in Hnorm as [Hnorm ->].
  apply py_bind_ok_inv in Hrun as ([] & w1 & Hput & Hrun).
  injection Hput as <-.
  apply py_bind_ok_inv in Hrun as (new_g & w1 & Hnewg & Hrun).
  injection Hnewg as <- <-. simpl in Hrun.
  apply py_bind_ok_inv in Hrun as (df2 & w1 & Hdf2 & Hrun).
  apply lift_ok_inv in Hdf2 as [Hdf2 ->].
  apply py_bind_ok_inv in Hrun as (agg_df & w1 & Hagg & Hrun).
  apply lift_ok_inv in Hagg as [Hagg ->].
  apply py_bind_ok_inv in Hrun as (new_gf & w1 & Hinit & Hrun).
  apply init_ok_inv in Hinit as (_ & -> & ->). simpl in Hrun.
  apply py_bind_ok_inv in Hrun as ([] & w1 & Hsum & Hrun).
  injection Hrun as <- <-.
  apply keeps_index_update_inclusive_columns in Hsum
    as (Hnodes & Hgraphs & _ & _ & Hgf'). simpl in *.
  destruct (Hgf' (mkGF (length (graphs w)) agg_df (exc_metrics gf) (inc_metrics gf)))
    as (gf' & Hnew & Hgraph' & _ & Hkeys).
  { by rewrite lookup_app_r, Nat.sub_diag. }
  simpl in *. apply row_key_nodes in Hkeys.
  (* the graph and the rows of the result *)
  unfold gf_roots, gf_rows. rewrite Hnew. simpl. rewrite Hgraph', Hgraphs, Hnodes.
  rewrite lookup_app_r, Nat.sub_diag by done. simpl. rewrite Hkeys.
  (* rewire *)
  destruct (rewire_roots_reach old_to_new (length (nodes w)) Habove (roots g) _ st
              Hinv eq_refl eq_refl Hlen2 Hroots Hst)
    as (Hle & Hinv' & Hnew_only & Hall). simpl in *.
  destruct (rw_inv_wf _ _ st Hinv') as [Hwf_st Hroots_st].
  { rewrite (le_length _ _ Hle). done. }
  (* enumerate_traverse *)
  destruct (enumerate_traverse_children _ _ _ Hns3) as (Hlen3 & Hch3 & _).
  assert (∀ r n, reachable ns3 r n ↔ reachable (rw_nodes st) r n) as Hreach3.
  { intros r n. split; apply reachable_mono; try done; intros p c; by rewrite Hch3. }
  (* normalize *)
  unfold Graph_normalize in Hnorm.
  destruct (normalize_loop _ _ _ _) as [[[ns4' rs4] merges']|] eqn:Hloop;
    simpl in Hnorm; [| discriminate].
  injection Hnorm as <- <- <-.
  apply normalize_loop_reach in Hloop as (ρ & Hρ & Hreach4 & _).
  2: { intros i c. rewrite Hch3, Hlen3. apply Hwf_st. }
  2: { simpl. intros r Hr. rewrite Hlen3. by apply Hroots_st. }
  simpl in *.
  assert (∀ n, default n (merges' !! n) = ρ n) as Hρ'.
  { intros n. by rewrite Hρ, lookup_empty. }
  (* the old nodes of the table are reachable among the copies *)
  assert (∀ k, k ∈ df_nodes (dataframe gf) → reachable ns2 (roots g) k) as Hrows2.
  { intros k Hk. specialize (Hrows k Hk). clear Hk.
    induction Hrows as [r Hr | p c Hp IH Hc]; [by apply reach_root |].
    apply (reach_child _ _ p); [done |]. rewrite Hch2; [done |].
    by eapply (reachable_valid (nodes w) (roots g)). }
  intros n. rewrite Hreach4. unfold df_nodes in *.
  fold (df_nodes agg_df). rewrite (groupby_agg_nodes _ _ _ _ Hagg).
  rewrite (df_apply_node_nodes _ _ _ _ Hdf2). split.
  - intros (v & Hv & ->). apply Hreach3 in Hv.
    destruct (Hnew_only v Hv) as [k Hk]. exists v. split; [| by rewrite Hρ'].
    apply (df_apply_node_nodes _ _ _ _ Hdf1). exists k. split.
    + apply Hdom in Hk. by apply elem_of_elements, elem_of_list_to_set in Hk.
    + unfold dict_get. by rewrite Hk.
  - intros (v & Hv & Hn). injection Hn as <-. rewrite Hρ'.
    apply (df_apply_node_nodes _ _ _ _ Hdf1) in Hv as (k & Hk & Hv).
    unfold dict_get in Hv. destruct (old_to_new !! k) as [v'|] eqn:Hk'; [| discriminate].
    injection Hv as ->. exists v. split; [| done].
    apply Hreach3. eapply Hall; [| done]. by apply Hrows2.
Qed.

Lemma squash_graph_matches_table_witness :
  wf_graph (nodes elide_world) (mkGraph [0])
  ∧ (∀ n, n ∈ [0; 3; 4; 5; 6]%nat → reachable (nodes elide_world) [0%nat] n)
  ∧ (GraphFrame.squash 0 elide_world).1 = Ok 1%nat
  ∧ ∀ n, reachable (nodes (GraphFrame.squash 0 elide_world).2)
                   (gf_roots (GraphFrame.squash 0 elide_world).2 1) n
         ↔ n ∈ r_node <$> gf_rows (GraphFrame.squash 0 elide_world).2 1.
Proof.
  assert (wf_graph (nodes elide_world) (mkGraph [0])) as Hwf.
  { split.
    - apply wf_nodes_intro. simpl. repeat constructor.
    - intros r Hr. apply list_elem_of_singleton in Hr as ->. simpl. lia. }
  assert (∀ n, n ∈ [0; 3; 4; 5; 6]%nat → reachable (nodes elide_world) [0%nat] n) as Hreach.
  { intros n Hn.
    apply (traverse_from_sound (nodes elide_world) false [0%nat] [0; 1; 3; 5; 2; 4; 6]%nat);
      [vm_compute; reflexivity |].
    set_solver. }
  split; [exact Hwf |]. split; [exact Hreach |]. split; [vm_compute; reflexivity |].
  apply (squash_graph_matches_table elide_world _ 0 1
           (mkGF 0 (mkDF ["node"] ["time"]
                [time_row 0 1; time_row 3 10; time_row 4 100; time_row 5 1000; time_row 6 10000])
              ["time"] [])
           (mkGraph [0])).
  - reflexivity.
  - reflexivity.
  - exact Hwf.
  - exact Hreach.
  - vm_compute. reflexivity.
Defined.

(** ** The edge lists after rewire *)

Lemma rw_inv_reach_new (old_to_new : gmap nat nat) (L0 : nat) (s : rewire_state) (n : nat) :
  rw_inv old_to_new L0 s →
  (∀ k v, old_to_new !! k = Some v → (L0 ≤ v)%nat) →
  reachable (rw_nodes s) (new_roots s) n → is_new old_to_new n.
Proof.
  intros Hinv Habove Hn. induction Hn as [r Hr | p c Hp IHp Hc].
  - by eapply inv_roots_new.
  - eapply inv_children_new; [done | | done]. destruct IHp as [k Hk]. eauto.
Qed.

Lemma rw_inv_edges (old_to_new : gmap nat nat) (L0 : nat) (s : rewire_state) :
  rw_inv old_to_new L0 s →
  (∀ k v, old_to_new !! k = Some v → (L0 ≤ v)%nat) →
  edges_ok (rw_nodes s) (new_roots s).
Proof.
  intros Hinv Habove. split; [by eapply inv_roots_nodup |].
  assert (∀ n, reachable (rw_nodes s) (new_roots s) n → (L0 ≤ n)%nat) as Hnew.
  { intros n Hn. destruct (rw_inv_reach_new _ _ _ _ Hinv Habove Hn) as [k Hk]. eauto. }
  intros c Hc. destruct (inv_nodup _ Hinv c (Hnew c Hc)) as [Hnp Hnc].
  split; [done |]. split; [done |]. intros p. split.
  - intros Hp. destruct (inv_parents_new _ Hinv c p (Hnew c Hc) Hp) as [HpL Hcp].
    split; [| done]. by eapply (inv_child_parent _ Hinv p c).
  - intros [Hp Hcp]. by eapply (inv_child_parent _ Hinv p c); [apply Hnew |].
Qed.

(** ** rewire with every node retained copies the graph *)

Lemma for_each_cons {A S} (body : A → S → result S) (x : A) (l : list A) (s : S) :
  for_each body (x :: l) s = body x s ≫= for_each body l.
Proof. reflexivity. Qed.

Lemma add_new_in (l : list nat) (n : nat) : n ∈ l → add_new l n = l.
Proof. intros H. unfold add_new. by destruct (decide (n ∈ l)). Qed.

Lemma add_new_notin (l : list nat) (n : nat) : n ∉ l → add_new l n = l ++ [n].
Proof. intros H. unfold add_new. by destruct (decide (n ∈ l)). Qed.

Lemma foldl_add_new (acc l : list nat) :
  NoDup (acc ++ l) → foldl add_new acc l = acc ++ l.
Proof.
  revert acc. induction l as [|x l IH]; intros acc Hnd; simpl.
  - by rewrite app_nil_r.
  - rewrite add_new_notin.
    + rewrite IH; rewrite <- app_assoc; done.
    + apply NoDup_app in Hnd as (_ & Hnd & _). intros Hx. apply (Hnd x Hx). by left.
Qed.

Section rewire_copy.
Variable old_to_new : gmap nat nat.
Variable L0 : nat.
Variable ns0 : list Node.
Variable φ : nat → nat.
Hypothesis new_above : ∀ k v, old_to_new !! k = Some v → (L0 ≤ v)%nat.
Hypothesis retained_old : ∀ k v, old_to_new !! k = Some v → (k < L0)%nat.
Hypothesis copies_differ : ∀ k k' v, old_to_new !! k = Some v → old_to_new !! k' = Some v → k = k'.
Hypothesis retained_closed : ∀ k v c, old_to_new !! k = Some v → c ∈ node_children ns0 k →
                                      is_Some (old_to_new !! c).
Hypothesis φ_copy : ∀ k v, old_to_new !! k = Some v → φ k = v.

Local Abbreviation copy_state := (copy_state old_to_new L0 ns0).

Lemma connect_copy (np : option nat) (s : rewire_state) (v : nat) :
  (L0 ≤ v)%nat → (∀ p, np = Some p → (L0 ≤ p)%nat ∧ (p < length (rw_nodes s))%nat) →
  let s' := GraphFrame.connect np s v in
  connections s' = connections s ∧ visited s' = visited s
  ∧ length (rw_nodes s') = length (rw_nodes s)
  ∧ (∀ i, (i < L0)%nat → rw_nodes s' !! i = rw_nodes s !! i)
  ∧ new_roots s' = match np with
                   | None => add_new (new_roots s) v
                   | Some _ => new_roots s
                   end
  ∧ ∀ w, node_children (rw_nodes s') w
         = if decide (np = Some w) then add_new (node_children (rw_nodes s) w) v
           else node_children (rw_nodes s) w.
Proof.
  intros Hv Hnp. unfold GraphFrame.connect. destruct np as [p|].
  - destruct (Hnp p eq_refl) as [HpL Hplt].
    destruct (decide (v ∈ node_children (rw_nodes s) p)) as [Hin|Hin]; simpl.
    + repeat (split; [done |]). intros w. case_decide as Hw; [| done].
      injection Hw as <-. by rewrite add_new_in.
    + unfold Node_add_parent, Node_add_child. rewrite !length_alter.
      repeat (split; [done |]). split.
      { intros i Hi. rewrite !list_lookup_alter_ne by lia. done. }
      split; [done |]. intros w.
      fold (Node_add_child p v (rw_nodes s)).
      fold (Node_add_parent v p (Node_add_child p v (rw_nodes s))).
      rewrite node_children_add_parent, node_children_add_child by done.
      destruct (decide (w = p)) as [->|Hne].
      * rewrite decide_True by done. by rewrite add_new_notin.
      * rewrite decide_False by congruence. done.
  - destruct (decide (v ∈ new_roots s)) as [Hin|Hin]; simpl.
    + repeat (split; [done |]). split; [by rewrite add_new_in |].
      intros w. done.
    + repeat (split; [done |]). split; [by rewrite add_new_notin |].
      intros w. done.
Qed.

Local Abbreviation rewire_copy_post := (rewire_copy_post old_to_new L0 ns0 φ).

Lemma rewire_copy_children (fuel : nat) (kp vp : nat) :
  (∀ node np s res s' v,
      GraphFrame.rewire fuel old_to_new node np s = Ok (res, s') →
      old_to_new !! node = Some v → copy_state s →
      (∀ p, np = Some p → ∃ k, old_to_new !! k = Some p ∧ k ∈ visited s) →
      rewire_copy_post node np v s s') →
  old_to_new !! kp = Some vp →
  ∀ (cs : list nat) (tr : gset nat) (st : rewire_state) tr' st',
    for_each
      (λ child '(tr, st),
         '(r, st') ← GraphFrame.rewire fuel old_to_new child (Some vp) st;
         Ok (tr ∪ r, st'))
      cs (tr, st) = Ok (tr', st') →
    copy_state st → kp ∈ visited st → (∀ c, c ∈ cs → is_Some (old_to_new !! c)) →
    copy_state st' ∧ visited st ⊆ visited st' ∧ new_roots st' = new_roots st
    ∧ node_children (rw_nodes st') vp
      = foldl add_new (node_children (rw_nodes st) vp) (φ <$> cs)
    ∧ (∀ k vk, old_to_new !! k = Some vk → k ∈ visited st → vk ≠ vp →
         node_children (rw_nodes st') vk = node_children (rw_nodes st) vk)
    ∧ (∀ k vk, old_to_new !! k = Some vk → k ∈ visited st' → k ∉ visited st →
         node_children (rw_nodes st') vk = φ <$> node_children ns0 k).
Proof.
  intros IHf Hkp. induction cs as [|c cs IH]; intros tr st tr' st' Hrun Hst Hvis Hcs.
  - simpl in Hrun. injection Hrun as <- <-.
    split; [done |]. split; [done |]. split; [done |]. split; [done |].
    split; [done |]. intros k vk _ Hk Hk'. done.
  - simpl in Hrun.
    destruct (GraphFrame.rewire fuel old_to_new c (Some vp) st) as [[r st1]|] eqn:Hc;
      simpl in Hrun; [| discriminate].
    destruct (Hcs c) as [vc Hvc]; [by left |].
    destruct (IHf c (Some vp) st r st1 vc Hc Hvc Hst) as (Hst1 & Hv1 & _ & Hr1 & Ha1 & Hc1).
    { intros p [= <-]. eauto. }
    destruct (IH _ _ _ _ Hrun Hst1) as (Hst' & Hv' & Hr' & Hp' & Ha' & Hc').
    { by apply Hv1. }
    { intros c' Hc'. apply Hcs. by right. }
    split; [done |]. split; [set_solver |]. split; [congruence |].
    split.
    { rewrite Hp'. rewrite fmap_cons. simpl. f_equal.
      rewrite (Ha1 kp vp Hkp Hvis), decide_True by done.
      by rewrite (φ_copy c vc). }
    split.
    { intros k vk Hk Hkv Hne. rewrite (Ha' k vk Hk) by auto.
      rewrite (Ha1 k vk Hk Hkv), decide_False by congruence. done. }
    intros k vk Hk Hkv' Hkv.
    destruct (decide (k ∈ visited st1)) as [Hk1|Hk1].
    + rewrite (Ha' k vk Hk Hk1); [by apply Hc1 |].
      intros ->. assert (k = kp) by eauto. by subst.
    + by apply Hc'.
Qed.

Lemma rewire_copy (fuel : nat) (node : nat) (np : option nat) (s : rewire_state)
    (res : gset nat) (s' : rewire_state) (v : nat) :
  (∀ k v, old_to_new !! k = Some v → NoDup (node_children ns0 k)) →
  GraphFrame.rewire fuel old_to_new node np s = Ok (res, s') →
  old_to_new !! node = Some v → copy_state s →
  (∀ p, np = Some p → ∃ k, old_to_new !! k = Some p ∧ k ∈ visited s) →
  rewire_copy_post node np v s s'.
Proof.
  intros Hnodup. revert node np s res s' v.
  induction fuel as [|fuel IH]; intros node np s res s' v Hrun Hv Hst Hnp; [discriminate |].
  simpl in Hrun. destruct Hst as (Hold & Hconn & Hfresh & Hlen).
  unfold GraphFrame.conn in Hrun. rewrite (Hconn node v Hv) in Hrun. simpl in Hrun.
  rewrite elements_singleton in Hrun. simpl in Hrun. rewrite Hv in Hrun.
  destruct (connect_copy np s v) as (Hc1 & Hv1 & Hl1 & Ho1 & Hr1 & Hch1).
  { eauto. }
  { intros p ->. destruct (Hnp p eq_refl) as (k & Hk & _). eauto. }
  set (s1 := GraphFrame.connect np s v) in *.
  assert (copy_state s1) as Hst1.
  { split; [| split; [| split]].
    - intros i Hi. rewrite Ho1 by done. auto.
    - intros k vk Hk. rewrite Hc1. eauto.
    - intros k vk Hk Hkv. rewrite Hv1 in Hkv. rewrite Hch1.
      rewrite decide_False; [eauto |].
      intros ->. destruct (Hnp vk eq_refl) as (k' & Hk' & Hkv').
      assert (k = k') by eauto. by subst.
    - intros k vk Hk. rewrite Hl1. eauto. }
  rewrite Hv1 in Hrun.
  destruct (decide (node ∈ visited s)) as [Hseen|Hseen].
  - simpl in Hrun. injection Hrun as <- <-.
    split; [done |]. split; [by rewrite Hv1 |]. split; [by rewrite Hv1 |].
    split; [done |]. split.
    + intros k vk Hk Hkv. apply Hch1.
    + intros k vk Hk Hkv' Hkv. by rewrite Hv1 in Hkv'.
  - set (s1' := mkRW (rw_nodes s1) (new_roots s1) (connections s1) ({[node]} ∪ visited s))
      in *.
    destruct (for_each _ _ _) as [[tr s2]|] eqn:Hloop; simpl in Hrun; [| discriminate].
    injection Hrun as <- <-.
    assert (node_children (rw_nodes s1) v = []) as Hv_nil.
    { destruct Hst1 as (_ & _ & Hfresh1 & _). apply (Hfresh1 node v Hv).
      by rewrite Hv1. }
    assert (copy_state s1') as Hst1'.
    { destruct Hst1 as (H1 & H2 & H3 & H4).
      split; [done |]. split; [done |]. split; [| done].
      intros k vk Hk Hkv. simpl in *. apply (H3 k vk Hk). rewrite Hv1. set_solver. }
    assert (node_children (rw_nodes s1) node = node_children ns0 node) as Hcs.
    { unfold node_children. destruct Hst1 as (H1 & _). rewrite H1; [done | eauto]. }
    rewrite Hcs in Hloop.
    destruct (rewire_copy_children fuel node v IH Hv _ _ _ _ _ Hloop Hst1')
      as (Hst2 & Hv2 & Hr2 & Hp2 & Ha2 & Hc2).
    { simpl. set_solver. }
    { intros c Hc. eauto. }
    simpl in Hv2, Hr2, Hp2, Ha2, Hc2.
    rewrite Hv_nil in Hp2.
    rewrite foldl_add_new in Hp2.
    2: { simpl. apply NoDup_fmap_2_strong; [| eauto].
         intros c c' Hc Hc' Heq.
         destruct (retained_closed _ _ c Hv Hc) as [vc Hvc].
         destruct (retained_closed _ _ c' Hv Hc') as [vc' Hvc'].
         rewrite (φ_copy _ _ Hvc), (φ_copy _ _ Hvc') in Heq. subst vc'. eauto. }
    simpl in Hp2.
    split; [done |]. split; [set_solver |]. split; [set_solver |].
    split; [by rewrite Hr2 |]. split.
    + intros k vk Hk Hkv. rewrite <- Hch1. apply (Ha2 k vk Hk); [set_solver |].
      intros ->. assert (k = node) by eauto. by subst.
    + intros k vk Hk Hkv' Hkv. destruct (decide (k = node)) as [->|Hne].
      * assert (vk = v) by congruence. by subst.
      * apply (Hc2 k vk Hk Hkv'). set_solver.
Qed.

Lemma rewire_roots_copy (rs : list nat) (s s' : rewire_state) :
  (∀ k v, old_to_new !! k = Some v → NoDup (node_children ns0 k)) →
  GraphFrame.rewire_roots old_to_new rs s = Ok s' →
  copy_state s → (∀ r, r ∈ rs → is_Some (old_to_new !! r)) →
  copy_state s' ∧ visited s ⊆ visited s' ∧ (∀ r, r ∈ rs → r ∈ visited s')
  ∧ new_roots s' = foldl add_new (new_roots s) (φ <$> rs)
  ∧ (∀ k vk, old_to_new !! k = Some vk → k ∈ visited s →
       node_children (rw_nodes s') vk = node_children (rw_nodes s) vk)
  ∧ (∀ k vk, old_to_new !! k = Some vk → k ∈ visited s' → k ∉ visited s →
       node_children (rw_nodes s') vk = φ <$> node_children ns0 k).
Proof.
  intros Hnodup. unfold GraphFrame.rewire_roots.
  revert s. induction rs as [|r rs IH]; intros s Hrun Hst Hrs.
  - simpl in Hrun. injection Hrun as <-.
    split; [done |]. split; [done |]. split; [intros r Hr; by apply elem_of_nil in Hr |].
    split; [done |]. split; [done |]. intros k vk _ Hk Hk'. done.
  - rewrite for_each_cons in Hrun.
    destruct (GraphFrame.rewire _ old_to_new r None s) as [[res s1]|] eqn:Hr;
      [| discriminate].
    change (for_each
              (λ root st, snd <$> GraphFrame.rewire (S (length (rw_nodes st))) old_to_new
                                    root None st) rs s1 = Ok s') in Hrun.
    destruct (Hrs r) as [v Hv]; [by left |].
    destruct (rewire_copy _ _ _ _ _ _ v Hnodup Hr Hv Hst)
      as (Hst1 & Hv1 & Hr1 & Hroots1 & Ha1 & Hc1); [done |].
    destruct (IH s1 Hrun Hst1) as (Hst' & Hv' & Hrs' & Hroots' & Ha' & Hc').
    { intros r' Hr'. apply Hrs. by right. }
    split; [done |]. split; [set_solver |]. split.
    { intros r' [->|Hr']%elem_of_cons; [by apply Hv' | by apply Hrs']. }
    split.
    { rewrite Hroots', Hroots1, fmap_cons. simpl. by rewrite (φ_copy r v). }
    split.
    { intros k vk Hk Hkv. rewrite (Ha' k vk Hk) by auto.
      by rewrite (Ha1 k vk Hk Hkv). }
    intros k vk Hk Hkv' Hkv.
    destruct (decide (k ∈ visited s1)) as [Hk1|Hk1].
    + rewrite (Ha' k vk Hk Hk1). by apply Hc1.
    + by apply Hc'.
Qed.
End rewire_copy.

(** ** Traversals of two graphs with the same shape *)

Lemma result_fmap_bind {A B C} (f : A → B) (g : B → result C) (m : result A) :
  (f <$> m) ≫= g = m ≫= (λ a, g (f a)).
Proof. by destruct m. Qed.

Lemma Node_traverse_fuel (fuel fuel' : nat) (ns : list Node) (post : bool) (n : nat)
    (seen : gset nat) (r : list nat * gset nat) :
  Node_traverse fuel ns post n seen = Ok r → (fuel ≤ fuel')%nat →
  Node_traverse fuel' ns post n seen = Ok r.
Proof.
  revert fuel' n seen r. induction fuel as [|fuel IH]; intros fuel' n seen r Hrun Hle;
    [discriminate |].
  destruct fuel' as [|fuel']; [lia |].
  simpl in *. case_decide; [done |].
  assert (∀ cs st st',
            for_each (λ c '(acc, sn),
                        '(l, sn') ← Node_traverse fuel ns post c sn; Ok (acc ++ l, sn'))
              cs st = Ok st' →
            for_each (λ c '(acc, sn),
                        '(l, sn') ← Node_traverse fuel' ns post c sn; Ok (acc ++ l, sn'))
              cs st = Ok st') as Hloop.
  { induction cs as [|c cs IHcs]; intros [acc sn] st' Hcs; simpl in *; [done |].
    destruct (Node_traverse fuel ns post c sn) as [[l sn']|] eqn:Hc; simpl in Hcs;
      [| discriminate].
    rewrite (IH fuel' c sn (l, sn') Hc) by lia. simpl. by apply IHcs. }
  destruct (for_each _ (node_children ns n) _) as [[sub seen']|] eqn:Hsub; simpl in Hrun;
    [| discriminate].
  rewrite (Hloop _ _ _ Hsub). simpl. done.
Qed.

Lemma find_none_intro {A} (f : A → bool) (l : list A) :
  (∀ x, x ∈ l → f x = false) → List.find f l = None.
Proof.
  induction l as [|a l IH]; intros Hf; [done |].
  simpl. rewrite (Hf a) by (by left). apply IH. intros x Hx. apply Hf. by right.
Qed.

Section traverse_equiv.
Variable φ : nat → nat.
Hypothesis φ_inj : Inj (=) (=) φ.
Variables ns ns' : list Node.
Variable D : nat → Prop.
Hypothesis D_closed : ∀ n c, D n → c ∈ node_children ns n → D c.
Hypothesis children_φ : ∀ n, D n → node_children ns' (φ n) = φ <$> node_children ns n.

Lemma elem_of_set_map_inj (n : nat) (X : gset nat) :
  φ n ∈ (set_map φ X : gset nat) ↔ n ∈ X.
Proof.
  rewrite elem_of_map. split.
  - intros (m & Hm & Hin). apply φ_inj in Hm. by subst.
  - intros Hn. eauto.
Qed.

Lemma Node_traverse_equiv (fuel : nat) (post : bool) (n : nat) (seen : gset nat) :
  D n →
  Node_traverse fuel ns' post (φ n) (set_map φ seen)
  = rename_traversal φ <$> Node_traverse fuel ns post n seen.
Proof.
  revert n seen. induction fuel as [|fuel IH]; intros n seen Hn; [done |].
  simpl. destruct (decide (n ∈ seen)) as [Hin|Hin].
  - rewrite decide_True by (by apply elem_of_set_map_inj). done.
  - rewrite decide_False by (by rewrite elem_of_set_map_inj).
    rewrite (children_φ n Hn).
    assert (∀ cs acc sn,
              (∀ c, c ∈ cs → D c) →
              for_each (λ c '(acc, sn),
                          '(l, sn') ← Node_traverse fuel ns' post c sn; Ok (acc ++ l, sn'))
                (φ <$> cs) (φ <$> acc, set_map φ sn)
              = rename_traversal φ
                  <$> for_each (λ c '(acc, sn),
                                  '(l, sn') ← Node_traverse fuel ns post c sn;
                                  Ok (acc ++ l, sn'))
                        cs (acc, sn)) as Hloop.
    { induction cs as [|c cs IHcs]; intros acc sn Hcs; [done |].
      simpl. rewrite IH by (apply Hcs; by left).
      destruct (Node_traverse fuel ns post c sn) as [[l sn']|]; simpl; [| done].
      rewrite <- fmap_app. apply IHcs. intros c' Hc'. apply Hcs. by right. }
    pose proof (Hloop (node_children ns n) [] ({[n]} ∪ seen)) as Hl.
    rewrite set_map_union_L, set_map_singleton_L in Hl.
    change (φ <$> []) with (@nil nat) in Hl.
    rewrite Hl by (intros c Hc; by eapply D_closed). clear Hl Hloop.
    destruct (for_each _ (node_children ns n) _) as [[sub seen']|]; simpl; [| done].
    unfold rename_traversal. destruct post; simpl; [| done]. by rewrite fmap_app.
Qed.

Lemma traverse_from_equiv (post : bool) (starts order : list nat) :
  (∀ r, r ∈ starts → D r) → (length ns ≤ length ns')%nat →
  traverse_from ns post starts = Ok order →
  traverse_from ns' post (φ <$> starts) = Ok (φ <$> order).
Proof.
  unfold traverse_from. intros Hstarts Hlen Hrun.
  assert (∀ rs acc sn st,
            (∀ r, r ∈ rs → D r) →
            for_each (λ r '(acc, sn),
                        '(l, sn') ← Node_traverse (S (length ns)) ns post r sn;
                        Ok (acc ++ l, sn'))
              rs (acc, sn) = Ok st →
            for_each (λ r '(acc, sn),
                        '(l, sn') ← Node_traverse (S (length ns')) ns' post r sn;
                        Ok (acc ++ l, sn'))
              (φ <$> rs) (φ <$> acc, set_map φ sn) = Ok (φ <$> st.1, set_map φ st.2))
    as Hloop.
  { induction rs as [|r rs IHrs]; intros acc sn st Hrs Hst.
    - simpl in *. by injection Hst as <-.
    - rewrite for_each_cons in Hst. rewrite fmap_cons, for_each_cons.
      cbv beta iota in Hst |- *.
      destruct (Node_traverse (S (length ns)) ns post r sn) as [[l sn']|] eqn:Hr;
        [| discriminate].
      change (for_each
                (λ r '(acc, sn),
                   '(l, sn') ← Node_traverse (S (length ns)) ns post r sn;
                   Ok (acc ++ l, sn')) rs (acc ++ l, sn') = Ok st) in Hst.
      assert (Node_traverse (S (length ns')) ns' post (φ r) (set_map φ sn)
              = Ok (φ <$> l, set_map φ sn')) as ->.
      { eapply (Node_traverse_fuel (S (length ns))); [| lia].
        rewrite Node_traverse_equiv by (apply Hrs; by left). by rewrite Hr. }
      change (for_each
                (λ r '(acc, sn),
                   '(l, sn') ← Node_traverse (S (length ns')) ns' post r sn;
                   Ok (acc ++ l, sn')) (φ <$> rs) ((φ <$> acc) ++ (φ <$> l), set_map φ sn')
              = Ok (φ <$> st.1, set_map φ st.2)).
      rewrite <- fmap_app. apply IHrs; [| done].
      intros r' Hr'. apply Hrs. by right. }
  destruct (for_each _ starts _) as [[acc sn]|] eqn:Hst; [| discriminate].
  simpl in Hrun. injection Hrun as <-.
  pose proof (Hloop _ _ _ _ Hstarts Hst) as Hl.
  rewrite set_map_empty in Hl. change (φ <$> []) with (@nil nat) in Hl.
  rewrite Hl. done.
Qed.

Lemma find_dup_equiv (l : list nat) :
  (∀ n, n ∈ l → node_frame ns' (φ n) = node_frame ns n) →
  find_dup ns l = None → find_dup ns' (φ <$> l) = None.
Proof.
  induction l as [|a l IH]; intros Hfr Hnone; [done |].
  rewrite fmap_cons. cbn [find_dup] in Hnone |- *.
  destruct (List.find _ l) as [b|] eqn:Hfind; [discriminate |].
  assert (List.find (λ b, bool_decide (b ≠ φ a ∧ node_frame ns' b = node_frame ns' (φ a)))
            (φ <$> l) = None) as ->.
  { apply find_none_intro. intros x Hx.
    apply list_elem_of_fmap in Hx as (b & -> & Hb).
    pose proof (List.find_none _ _ Hfind b) as Hb'.
    rewrite <- list_elem_of_In in Hb'. specialize (Hb' Hb).
    apply bool_decide_eq_false in Hb'. apply bool_decide_eq_false.
    intros [Hne Heq]. apply Hb'. split; [congruence |].
    rewrite !Hfr in Heq; [done | by left | by right]. }
  apply IH; [| done]. intros n Hn. apply Hfr. by right.
Qed.

Lemma find_merge_equiv (order : list nat) :
  (∀ n, n ∈ order → D n) →
  (∀ n, D n → node_frame ns' (φ n) = node_frame ns n) →
  find_merge ns order = None → find_merge ns' (φ <$> order) = None.
Proof.
  intros Hord Hfr. induction order as [|n order IH]; intros Hnone; [done |].
  rewrite fmap_cons. cbn [find_merge] in Hnone |- *. rewrite children_φ by (apply Hord; by left).
  destruct (find_dup ns (node_children ns n)) as [ab|] eqn:Hdup; [discriminate |].
  rewrite find_dup_equiv; [| | done].
  - apply IH; [| done]. intros m Hm. apply Hord. by right.
  - intros c Hc. apply Hfr. eapply D_closed; [| done]. apply Hord. by left.
Qed.

Lemma Graph_is_tree_equiv (rs : list nat) (tree : bool) :
  (∀ r, r ∈ rs → D r) → (length ns ≤ length ns')%nat →
  (∀ n, D n → length (node_parents ns' (φ n)) = length (node_parents ns n)) →
  Graph_is_tree ns (mkGraph rs) = Ok tree →
  Graph_is_tree ns' (mkGraph (φ <$> rs)) = Ok tree.
Proof.
  unfold Graph_is_tree, Graph_traverse. simpl. intros Hrs Hlen Hpa Hrun.
  destruct (traverse_from ns false rs) as [order|] eqn:Horder; [| discriminate].
  simpl in Hrun. injection Hrun as <-.
  rewrite (traverse_from_equiv _ _ _ Hrs Hlen Horder). simpl. f_equal.
  assert (∀ n, n ∈ order → D n) as Hord.
  { intros n Hn. pose proof (traverse_from_sound _ _ _ _ Horder n Hn) as Hreach.
    clear Hn. induction Hreach as [r Hr | p c _ IH Hc]; [by apply Hrs |].
    by eapply D_closed. }
  clear Horder. induction order as [|n order IH]; [done |].
  rewrite fmap_cons. cbn [forallb].
  rewrite IH by (intros m Hm; apply Hord; by right). f_equal.
  rewrite Hpa by (apply Hord; by left). f_equal.
  apply bool_decide_ext. rewrite list_elem_of_fmap. split.
  - intros (r & Hr & Hin). apply φ_inj in Hr. by subst.
  - eauto.
Qed.
End traverse_equiv.

(** ** Tables with renamed nodes *)

Lemma filter_fmap_ext {A B} (f : A → B) (p : A → bool) (q : B → bool) (l : list A) :
  (∀ x, x ∈ l → q (f x) = p x) →
  List.filter q (f <$> l) = f <$> List.filter p l.
Proof.
  induction l as [|x l IH]; intros Hpq; [done |].
  rewrite fmap_cons. simpl. rewrite (Hpq x) by (by left).
  rewrite IH by (intros y Hy; apply Hpq; by right).
  by destruct (p x).
Qed.

Section rekey.
Variable φ : nat → nat.
Hypothesis φ_inj : Inj (=) (=) φ.

Lemma df_nodes_rekey (df : DataFrame) : df_nodes (rekey_df φ df) = φ <$> df_nodes df.
Proof. unfold df_nodes, rekey_df. simpl. by rewrite <- !list_fmap_compose. Qed.

Lemma has_columns_rekey (cols : list string) (df : DataFrame) :
  has_columns cols (rekey_df φ df) = has_columns cols df.
Proof. done. Qed.

Lemma elem_of_fmap_inj (n : nat) (l : list nat) : φ n ∈ φ <$> l ↔ n ∈ l.
Proof.
  rewrite list_elem_of_fmap. split.
  - intros (m & Hm & Hin). apply φ_inj in Hm. by subst.
  - eauto.
Qed.

Lemma column_values_rekey (col : string) (rs : list Row) :
  column_values col (rekey φ <$> rs) = column_values col rs.
Proof.
  unfold column_values. induction rs as [|r rs IH]; [done |].
  rewrite fmap_cons. cbn [omap list_omap]. cbn [rekey r_cells]. by rewrite IH.
Qed.

Lemma reduce_columns_rekey (f : list cell → result cell) (cols : list string)
    (rs : list Row) :
  reduce_columns f cols (rekey φ <$> rs) = reduce_columns f cols rs.
Proof.
  unfold reduce_columns. induction cols as [|c cols IH]; [done |].
  simpl. by rewrite column_values_rekey, IH.
Qed.

Lemma loc_nodes_rekey (labels : list nat) (cols : list string) (df : DataFrame) :
  loc_nodes (φ <$> labels) cols (rekey_df φ df)
  = (λ rs : list Row, rekey φ <$> rs) <$> loc_nodes labels cols df.
Proof.
  unfold loc_nodes. rewrite has_columns_rekey, df_nodes_rekey.
  assert (forallb (λ n, bool_decide (n ∈ φ <$> df_nodes df)) (φ <$> labels)
          = forallb (λ n, bool_decide (n ∈ df_nodes df)) labels) as ->.
  { induction labels as [|n l IH]; [done |]. rewrite fmap_cons. simpl. rewrite IH.
    f_equal. apply bool_decide_ext, elem_of_fmap_inj. }
  destruct (_ && _); [| done]. simpl. f_equal.
  induction labels as [|n l IH]; [done |].
  rewrite fmap_cons. simpl. rewrite fmap_app, IH. f_equal.
  apply filter_fmap_ext. intros r _. simpl. apply bool_decide_ext. split.
  - apply φ_inj.
  - by intros ->.
Qed.

Lemma loc_node_index_rekey (n : nat) (cols : list string) (df : DataFrame) :
  loc_node_index (φ n) cols (rekey_df φ df) = loc_node_index n cols df.
Proof.
  unfold loc_node_index. rewrite has_columns_rekey, df_nodes_rekey.
  rewrite (bool_decide_ext _ _ (elem_of_fmap_inj n (df_nodes df))).
  destruct (_ && _); [| done]. f_equal. f_equal. simpl.
  rewrite (filter_fmap_ext (rekey φ) (λ r, bool_decide (r_node r = n))).
  - rewrite <- list_fmap_compose. done.
  - intros r _. simpl. apply bool_decide_ext. split; [apply φ_inj | by intros ->].
Qed.

Lemma loc_nodes_sec_rekey (labels : list nat) (i : list Z) (cols : list string)
    (df : DataFrame) :
  loc_nodes_sec (φ <$> labels) i cols (rekey_df φ df)
  = (λ rs : list Row, rekey φ <$> rs) <$> loc_nodes_sec labels i cols df.
Proof.
  unfold loc_nodes_sec. rewrite has_columns_rekey.
  destruct (has_columns cols df); [| done]. simpl. f_equal.
  apply filter_fmap_ext. intros r _. simpl. apply bool_decide_ext.
  by rewrite elem_of_fmap_inj.
Qed.

Lemma loc_set_node_rekey (n : nat) (outs : list string) (vals : list cell)
    (df : DataFrame) :
  loc_set_node (φ n) outs vals (rekey_df φ df) = rekey_df φ (loc_set_node n outs vals df).
Proof.
  unfold loc_set_node, rekey_df, set_rows. simpl. f_equal.
  rewrite <- !list_fmap_compose. apply list_fmap_ext. intros j r _. simpl.
  destruct (decide (r_node r = n)) as [->|Hne].
  - by rewrite decide_True.
  - rewrite decide_False; [done |]. intros Heq. by apply φ_inj in Heq.
Qed.

Lemma labels_one_row_rekey (n : nat) (df : DataFrame) :
  labels_one_row (φ n) (rekey_df φ df) = labels_one_row n df.
Proof.
  unfold labels_one_row. f_equal. apply bool_decide_ext.
  change (rows (rekey_df φ df)) with (rekey φ <$> rows df).
  rewrite (filter_fmap_ext (rekey φ) (λ r, bool_decide (r_node r = n))).
  - by rewrite length_fmap.
  - intros r _. simpl. apply bool_decide_ext. split; [apply φ_inj | by intros ->].
Qed.

Lemma loc_set_node_series_rekey (n : nat) (outs : list string) (vals : list cell)
    (df : DataFrame) :
  loc_set_node_series (φ n) outs vals (rekey_df φ df)
  = rekey_df φ (loc_set_node_series n outs vals df).
Proof.
  unfold loc_set_node_series. rewrite labels_one_row_rekey.
  destruct (labels_one_row n df); [apply loc_set_node_rekey |].
  unfold rekey_df, set_rows. simpl. f_equal.
  rewrite <- !list_fmap_compose. apply list_fmap_ext. intros j r _. simpl.
  destruct (decide (r_node r = n)) as [->|Hne].
  - by rewrite decide_True.
  - rewrite decide_False; [done |]. intros Heq. by apply φ_inj in Heq.
Qed.

Lemma loc_set_node_sec_rekey (n : nat) (i : list Z) (outs : list string)
    (vals : list cell) (df : DataFrame) :
  loc_set_node_sec (φ n) i outs vals (rekey_df φ df)
  = rekey_df φ (loc_set_node_sec n i outs vals df).
Proof.
  unfold loc_set_node_sec, rekey_df, set_rows. simpl. f_equal.
  rewrite <- !list_fmap_compose. apply list_fmap_ext. intros j r _. simpl.
  destruct (decide (r_node r = n ∧ r_sec r = i)) as [[-> ->]|Hne].
  - by rewrite decide_True.
  - rewrite decide_False; [done |]. intros [Heq ?]. apply φ_inj in Heq. auto.
Qed.

Lemma df_copy_column_rekey (out col : string) (df : DataFrame) :
  df_copy_column out col (rekey_df φ df) = rekey_df φ <$> df_copy_column out col df.
Proof.
  unfold df_copy_column. simpl. case_decide; [| done]. simpl. f_equal.
  unfold rekey_df, set_rows. simpl. f_equal.
  rewrite <- !list_fmap_compose. by apply list_fmap_ext.
Qed.
End rekey.

(** ** The loops of the sums write the output columns only *)

Lemma assign_cells_off (outs : list string) (vals : list cell) (cs : gmap string cell)
    (c : string) :
  c ∉ outs → assign_cells outs vals cs !! c = cs !! c.
Proof.
  unfold assign_cells. revert vals. induction outs as [|o outs IH]; intros vals Hc; [done |].
  destruct vals as [|v vals]; [done |]. simpl.
  rewrite lookup_insert_ne by (intros ->; apply Hc; by left).
  apply IH. intros Hin. apply Hc. by right.
Qed.

Lemma row_off_assign (outs : list string) (vals : list cell) (r : Row) :
  row_off outs r (set_row_cells (assign_cells outs vals (r_cells r)) r).
Proof.
  split; [done |]. simpl. intros c Hc. by apply assign_cells_off.
Qed.

Lemma delete_cells_off (outs : list string) (cs : gmap string cell) (c : string) :
  c ∉ outs → foldr delete cs outs !! c = cs !! c.
Proof.
  induction outs as [|o outs IH]; intros Hc; [done |]. simpl.
  rewrite lookup_delete_ne by (intros ->; apply Hc; by left).
  apply IH. intros Hin. apply Hc. by right.
Qed.

Lemma cells_off_loc_set_node_series (n : nat) (outs : list string) (vals : list cell)
    (gf : GraphFrame) :
  cells_off outs gf (set_dataframe (loc_set_node_series n outs vals (dataframe gf)) gf).
Proof.
  unfold loc_set_node_series. destruct (labels_one_row n (dataframe gf)).
  - repeat (split; [done |]). simpl.
    apply Forall2_fmap_r, Forall_Forall2_diag, Forall_true.
    intros r. simpl. destruct (decide (r_node r = n)); [apply row_off_assign | reflexivity].
  - repeat (split; [done |]). simpl.
    apply Forall2_fmap_r, Forall_Forall2_diag, Forall_true.
    intros r. simpl. destruct (decide (r_node r = n)); [| reflexivity].
    split; [done |]. simpl. intros c Hc. by apply delete_cells_off.
Qed.

Lemma cells_off_loc_set_node (n : nat) (outs : list string) (vals : list cell)
    (gf : GraphFrame) :
  cells_off outs gf (set_dataframe (loc_set_node n outs vals (dataframe gf)) gf).
Proof.
  repeat (split; [done |]). simpl. apply Forall2_fmap_r, Forall_Forall2_diag, Forall_true.
  intros r. simpl. destruct (decide (r_node r = n)); [apply row_off_assign | reflexivity].
Qed.

Lemma cells_off_loc_set_node_sec (n : nat) (i : list Z) (outs : list string)
    (vals : list cell) (gf : GraphFrame) :
  cells_off outs gf (set_dataframe (loc_set_node_sec n i outs vals (dataframe gf)) gf).
Proof.
  repeat (split; [done |]). simpl. apply Forall2_fmap_r, Forall_Forall2_diag, Forall_true.
  intros r. simpl.
  destruct (decide (r_node r = n ∧ r_sec r = i)); [apply row_off_assign | reflexivity].
Qed.

Lemma keeps_cells_subtree_sum_loop (self : nat) (outs : list string)
    (function : list cell → result cell) :
  keeps (cells_off outs) self (GraphFrame.subtree_sum_loop self outs function).
Proof.
  unfold GraphFrame.subtree_sum_loop.
  apply keeps_bind; [apply keeps_get_gf | intros gf].
  apply keeps_bind; [apply keeps_get_graph | intros g].
  apply keeps_bind; [apply keeps_get_nodes | intros ns].
  apply keeps_bind; [apply keeps_lift | intros order].
  apply keeps_for. intros node.
  destruct (node_children ns node) as [|c cs]; [apply keeps_ret |].
  apply keeps_update_dataframe. intros gf0 df' Hdf.
  destruct (loc_nodes _ _ _) as [sel|]; simpl in Hdf; [| discriminate].
  destruct (reduce_columns _ _ sel) as [vals|]; simpl in Hdf; [| discriminate].
  injection Hdf as <-. apply cells_off_loc_set_node_series.
Qed.

Lemma keeps_cells_subgraph_sum_loop (self : nat) (cols outs : list string)
    (function : list cell → result cell) :
  keeps (cells_off outs) self (GraphFrame.subgraph_sum_loop self cols outs function).
Proof.
  unfold GraphFrame.subgraph_sum_loop.
  apply keeps_bind; [apply keeps_get_gf | intros gf].
  apply keeps_bind; [apply keeps_get_graph | intros g].
  apply keeps_bind; [apply keeps_get_nodes | intros ns].
  apply keeps_bind; [apply keeps_lift | intros order].
  apply keeps_for. intros node.
  apply keeps_bind; [apply keeps_lift | intros sub].
  apply keeps_bind; [apply keeps_get_gf | intros gf'].
  destruct (is_multiindex (dataframe gf')).
  - apply keeps_bind; [apply keeps_lift | intros idx].
    apply keeps_for. intros i.
    apply keeps_update_dataframe. intros gf0 df' Hdf.
    destruct (loc_nodes_sec _ _ _ _) as [sel|]; simpl in Hdf; [| discriminate].
    destruct (reduce_columns _ _ sel) as [vals|]; simpl in Hdf; [| discriminate].
    injection Hdf as <-. apply cells_off_loc_set_node_sec.
  - apply keeps_update_dataframe. intros gf0 df' Hdf.
    destruct (loc_nodes _ _ _) as [sel|]; simpl in Hdf; [| discriminate].
    destruct (reduce_columns _ _ sel) as [vals|]; simpl in Hdf; [| discriminate].
    injection Hdf as <-. apply cells_off_loc_set_node.
Qed.

(** ** The sums on two graphs of one shape *)

Lemma py_sim_ret {A B} (I : world → world → Prop) (R : A → B → Prop) (a : A) (b : B) :
  R a b → py_sim I R (mret a) (mret b).
Proof. intros HR wa wb a' wa' HI [= <- <-]. eauto. Qed.

Lemma py_sim_bind {A B A' B'} (I : world → world → Prop) (R : A → B → Prop)
    (R' : A' → B' → Prop) (m1 : Py A) (m2 : Py B) (f1 : A → Py A') (f2 : B → Py B') :
  py_sim I R m1 m2 → (∀ a b, R a b → py_sim I R' (f1 a) (f2 b)) →
  py_sim I R' (m1 ≫= f1) (m2 ≫= f2).
Proof.
  intros Hm Hf wa wb a' wa' HI Hrun.
  apply py_bind_ok_inv in Hrun as (a & wa1 & Ha & Hrun).
  destruct (Hm wa wb a wa1 HI Ha) as (b & wb1 & Hb & HI1 & HR).
  destruct (Hf a b HR wa1 wb1 a' wa' HI1 Hrun) as (b' & wb' & Hb' & HI' & HR').
  exists b', wb'. split; [| done]. by rewrite (py_bind_ok _ _ _ _ _ Hb).
Qed.

Lemma py_sim_lift {A B} (I : world → world → Prop) (R : A → B → Prop)
    (r1 : result A) (r2 : result B) :
  (∀ a, r1 = Ok a → ∃ b, r2 = Ok b ∧ R a b) → py_sim I R (lift r1) (lift r2).
Proof.
  intros Hr wa wb a wa' HI Hrun. apply lift_ok_inv in Hrun as [Ha ->].
  destruct (Hr a Ha) as (b & -> & HR). exists b, wb. done.
Qed.

Lemma py_sim_for {A B} (I : world → world → Prop) (R : A → B → Prop)
    (l1 : list A) (l2 : list B) (b1 : A → Py unit) (b2 : B → Py unit) :
  Forall2 R l1 l2 → (∀ x y, R x y → py_sim I eq (b1 x) (b2 y)) →
  py_sim I eq (py_for l1 b1) (py_for l2 b2).
Proof.
  intros HF Hb. induction HF as [|x y l1 l2 Hxy HF IH]; simpl.
  - by apply py_sim_ret.
  - eapply py_sim_bind; [by apply Hb | intros _ _ _; exact IH].
Qed.

Section sums.
Variable φ : nat → nat.
Hypothesis φ_inj : Inj (=) (=) φ.
Variables nsa nsb : list Node.
Variables ga gb : nat.
Variables Ga Gb : Graph.
Variables sa sb : nat.
Hypothesis roots_φ : roots Gb = φ <$> roots Ga.
Hypothesis children_φ : ∀ n, reachable nsa (roots Ga) n →
                              node_children nsb (φ n) = φ <$> node_children nsa n.
Hypothesis length_le : (length nsa ≤ length nsb)%nat.

Local Abbreviation I := (sum_sim φ nsa nsb ga gb Ga Gb sa sb).
Local Abbreviation D := (reachable nsa (roots Ga)).

Lemma D_closed (n c : nat) : D n → c ∈ node_children nsa n → D c.
Proof. intros Hn Hc. by apply (reach_child _ _ n). Qed.

Lemma sim_get_gf :
  py_sim I (λ gfa gfb, graph gfa = ga ∧ graph gfb = gb
                       ∧ dataframe gfb = rekey_df φ (dataframe gfa))
    (get_gf sa) (get_gf sb).
Proof.
  intros wa wb gfa wa' HI Hrun. apply get_gf_ok_inv in Hrun as [Hgfa ->].
  pose proof HI as (_ & _ & _ & _ & gfa' & gfb & Ha & Hb & Hga & Hgb & _ & _ & Hdf).
  rewrite Hgfa in Ha. injection Ha as <-.
  exists gfb, wb. split; [by apply get_gf_ok | done].
Qed.

Lemma sim_get_graph :
  py_sim I (λ a b, a = Ga ∧ b = Gb) (get_graph ga) (get_graph gb).
Proof.
  intros wa wb g wa' HI Hrun. apply get_graph_ok_inv in Hrun as [Hg ->].
  pose proof HI as (_ & _ & Ha & Hb & _).
  rewrite Hg in Ha. injection Ha as ->.
  exists Gb, wb. split; [by apply get_graph_ok | done].
Qed.

Lemma sim_get_nodes : py_sim I (λ a b, a = nsa ∧ b = nsb) get_nodes get_nodes.
Proof.
  intros wa wb ns wa' HI [= <- <-]. pose proof HI as (Ha & Hb & _).
  exists (nodes wb), wb. done.
Qed.

Lemma sim_update_dataframe (fa fb : DataFrame → result DataFrame) :
  (∀ df df', fa df = Ok df' → fb (rekey_df φ df) = Ok (rekey_df φ df')) →
  py_sim I eq (update_dataframe sa fa) (update_dataframe sb fb).
Proof.
  intros Hf wa wb [] wa' HI Hrun. unfold update_dataframe in Hrun.
  apply py_bind_ok_inv in Hrun as (gfa & wa1 & Hgfa & Hrun).
  apply get_gf_ok_inv in Hgfa as [Hgfa ->].
  apply py_bind_ok_inv in Hrun as (df' & wa1 & Hdf' & Hrun).
  apply lift_ok_inv in Hdf' as [Hdf' ->]. injection Hrun as <-.
  destruct HI as (Hna & Hnb & Hga & Hgb & gfa' & gfb & Ha & Hb & Hgra & Hgrb & He & Hi & Hdf).
  rewrite Hgfa in Ha. injection Ha as <-.
  exists tt, (mkWorld (nodes wb) (graphs wb)
                (<[sb := set_dataframe (rekey_df φ df') gfb]> (gframes wb))).
  split.
  { unfold update_dataframe. rewrite (py_bind_ok _ _ _ _ _ (get_gf_ok _ _ _ Hb)).
    rewrite Hdf, (Hf _ _ Hdf'). done. }
  split; [| done].
  split; [done |]. split; [done |]. split; [done |]. split; [done |].
  exists (set_dataframe df' gfa), (set_dataframe (rekey_df φ df') gfb). simpl.
  split; [apply list_lookup_insert_eq; by eapply lookup_lt_Some |].
  split; [apply list_lookup_insert_eq; by eapply lookup_lt_Some |].
  by destruct gfa, gfb.
Qed.

Lemma subtree_sum_loop_sim (outs : list string) (f : list cell → result cell) :
  py_sim I eq (GraphFrame.subtree_sum_loop sa outs f) (GraphFrame.subtree_sum_loop sb outs f).
Proof.
  unfold GraphFrame.subtree_sum_loop.
  eapply py_sim_bind; [apply sim_get_gf | intros gfa gfb (-> & -> & Hdf)].
  eapply py_sim_bind; [apply sim_get_graph | intros ? ? [-> ->]].
  eapply py_sim_bind; [apply sim_get_nodes | intros ? ? [-> ->]].
  eapply (py_sim_bind _ (λ oa ob, ob = φ <$> oa ∧ ∀ n, n ∈ oa → D n)).
  { apply py_sim_lift. intros order Horder. unfold Graph_traverse in *.
    exists (φ <$> order). split; [| split; [done |]].
    - rewrite roots_φ.
      by apply (traverse_from_equiv φ φ_inj nsa nsb D D_closed children_φ);
        [apply reach_root | |].
    - intros n Hn. by eapply traverse_from_sound. }
  intros oa ob [-> Hoa].
  eapply (py_sim_for _ (λ x y, y = φ x ∧ D x)).
  { clear -Hoa. induction oa as [|n oa IH]; [constructor |].
    rewrite fmap_cons. constructor.
    - split; [done |]. apply Hoa. by left.
    - apply IH. intros m Hm. apply Hoa. by right. }
  intros n ? [-> Hn]. rewrite (children_φ n Hn).
  destruct (node_children nsa n) as [|c cs] eqn:Hcs; [by apply py_sim_ret |].
  rewrite fmap_cons. apply sim_update_dataframe. intros df df' Hrun.
  rewrite <- !fmap_cons. rewrite loc_nodes_rekey by done.
  destruct (loc_nodes _ _ df) as [sel|]; simpl in *; [| discriminate].
  rewrite reduce_columns_rekey.
  destruct (reduce_columns f outs sel) as [vals|]; simpl in *; [| discriminate].
  injection Hrun as <-. by rewrite loc_set_node_series_rekey.
Qed.

Lemma subgraph_sum_loop_sim (cols outs : list string) (f : list cell → result cell) :
  py_sim I eq (GraphFrame.subgraph_sum_loop sa cols outs f)
    (GraphFrame.subgraph_sum_loop sb cols outs f).
Proof.
  unfold GraphFrame.subgraph_sum_loop.
  eapply py_sim_bind; [apply sim_get_gf | intros gfa gfb (-> & -> & Hdf)].
  eapply py_sim_bind; [apply sim_get_graph | intros ? ? [-> ->]].
  eapply py_sim_bind; [apply sim_get_nodes | intros ? ? [-> ->]].
  eapply (py_sim_bind _ (λ oa ob, ob = φ <$> oa ∧ ∀ n, n ∈ oa → D n)).
  { apply py_sim_lift. intros order Horder. unfold Graph_traverse in *.
    exists (φ <$> order). split; [| split; [done |]].
    - rewrite roots_φ.
      by apply (traverse_from_equiv φ φ_inj nsa nsb D D_closed children_φ);
        [apply reach_root | |].
    - intros n Hn. by eapply traverse_from_sound. }
  intros oa ob [-> Hoa].
  eapply (py_sim_for _ (λ x y, y = φ x ∧ D x)).
  { clear -Hoa. induction oa as [|n oa IH]; [constructor |].
    rewrite fmap_cons. constructor.
    - split; [done |]. apply Hoa. by left.
    - apply IH. intros m Hm. apply Hoa. by right. }
  intros n ? [-> Hn].
  eapply (py_sim_bind _ (λ la lb, lb = φ <$> la)).
  { apply py_sim_lift. intros sub Hsub. exists (φ <$> sub). split; [| done].
    change [φ n] with (φ <$> [n]).
    apply (traverse_from_equiv φ φ_inj nsa nsb D D_closed children_φ); [| done | done].
    intros r ->%list_elem_of_singleton. done. }
  intros sub ? ->.
  eapply py_sim_bind; [apply sim_get_gf | intros gfa' gfb' (_ & _ & Hdf')].
  rewrite Hdf'.
  change (is_multiindex (rekey_df φ (dataframe gfa'))) with (is_multiindex (dataframe gfa')).
  destruct (is_multiindex (dataframe gfa')).
  - rewrite loc_node_index_rekey by done.
    eapply (py_sim_bind _ eq); [apply py_sim_lift; eauto |]. intros idx ? <-.
    eapply (py_sim_for _ eq); [by apply Forall_Forall2_diag, Forall_true |]. intros i ? <-.
    apply sim_update_dataframe. intros df df' Hrun.
    rewrite loc_nodes_sec_rekey by done.
    destruct (loc_nodes_sec _ _ _ df) as [sel|]; simpl in *; [| discriminate].
    rewrite reduce_columns_rekey.
    destruct (reduce_columns f cols sel) as [vals|]; simpl in *; [| discriminate].
    injection Hrun as <-. by rewrite loc_set_node_sec_rekey.
  - apply sim_update_dataframe. intros df df' Hrun.
    rewrite loc_nodes_rekey by done.
    destruct (loc_nodes _ _ df) as [sel|]; simpl in *; [| discriminate].
    rewrite reduce_columns_rekey.
    destruct (reduce_columns f cols sel) as [vals|]; simpl in *; [| discriminate].
    injection Hrun as <-. by rewrite loc_set_node_rekey.
Qed.
End sums.

(** ** squash: what the rewiring does to the two graphs *)

Lemma copy_nids_old (O : gmap nat nat) (l : list nat) (ns : list Node) (L0 i : nat) :
  (∀ k v, O !! k = Some v → (L0 ≤ v)%nat) → (i < L0)%nat →
  GraphFrame.copy_nids O l ns !! i = ns !! i.
Proof.
  intros Habove Hi. unfold GraphFrame.copy_nids. revert ns.
  induction l as [|k l IH]; intros ns; [done |].
  simpl. rewrite IH. destruct (O !! k) as [new|] eqn:Hk; [| done].
  apply list_lookup_alter_ne. apply Habove in Hk. lia.
Qed.

Lemma copy_nodes_dom (l : list nat) (ns : list Node) (O : gmap nat nat)
    (ns' : list Node) (k v : nat) :
  GraphFrame.copy_nodes l ns = (O, ns') → O !! k = Some v → k ∈ l.
Proof.
  revert ns O ns'. induction l as [|a l IH]; intros ns O ns' Hcopy Hk; simpl in Hcopy.
  - injection Hcopy as <- <-. by rewrite lookup_empty in Hk.
  - destruct (GraphFrame.copy_nodes l (ns ++ [_])) as [m ns2] eqn:Hrec.
    injection Hcopy as <- <-. destruct (decide (k = a)) as [->|Hka]; [by left |].
    rewrite lookup_insert_ne in Hk by done. right. by eapply IH.
Qed.

Lemma copy_nodes_frame (l : list nat) (ns : list Node) (O : gmap nat nat)
    (ns' : list Node) (k v : nat) :
  GraphFrame.copy_nodes l ns = (O, ns') → (∀ k, k ∈ l → (k < length ns)%nat) →
  O !! k = Some v → node_frame ns' v = node_frame ns k.
Proof.
  revert ns O ns'. induction l as [|n l IH]; intros ns O ns' Hcopy Hl Hk; simpl in Hcopy.
  - injection Hcopy as <- <-. by rewrite lookup_empty in Hk.
  - destruct (GraphFrame.copy_nodes l (ns ++ [_])) as [m ns2] eqn:Hrec.
    injection Hcopy as <- <-.
    destruct (decide (k = n)) as [->|Hne].
    + rewrite lookup_insert_eq in Hk. injection Hk as <-.
      destruct (copy_nodes_prefix _ _ _ _ Hrec (length ns)) as (nd & Hnd & Hnd').
      { rewrite length_app. simpl. lia. }
      unfold node_frame at 1. rewrite Hnd'.
      rewrite lookup_app_r, Nat.sub_diag in Hnd by done. by injection Hnd as <-.
    + rewrite lookup_insert_ne in Hk by done.
      assert (k ∈ l) as Hkl by (by eapply copy_nodes_dom).
      rewrite (IH _ _ _ Hrec); [| | done].
      * unfold node_frame. rewrite lookup_app_l; [done |]. apply Hl. by right.
      * intros k' Hk'. rewrite length_app. simpl.
        assert (k' < length ns)%nat by (apply Hl; by right). lia.
Qed.

(** X1: the rewiring of squash, started as squash starts it from the copies
    of the retained nodes, returns for every well-formed graph; it leaves
    every node of the old graph as it was, and every node of the new graph
    (the nodes under [new_roots]) is the copy of a retained node. *)
Theorem rewire_leaves_old_graph (ns : list Node) (rs retained : list nat)
    (old_to_new : gmap nat nat) (ns1 : list Node) :
  wf_nodes ns → (∀ r, r ∈ rs → (r < length ns)%nat) → NoDup retained →
  GraphFrame.copy_nodes retained ns = (old_to_new, ns1) →
  ∃ st, GraphFrame.rewire_roots old_to_new rs
          (mkRW (GraphFrame.copy_nids old_to_new retained ns1) []
                ((λ v, {[v]}) <$> old_to_new) ∅) = Ok st
        ∧ (∀ i, (i < length ns)%nat → rw_nodes st !! i = ns !! i)
        ∧ (∀ n, reachable (rw_nodes st) (new_roots st) n →
                ∃ k, k ∈ retained ∧ old_to_new !! k = Some n).
Proof.
  intros Hwf Hrs Hnd Hcopy.
  destruct (squash_initial_inv ns retained old_to_new ns1 Hwf Hnd Hcopy)
    as (Hinv & Habove & Hlen2 & Hch2 & Hdom).
  destruct (rewire_roots_spec old_to_new (length ns) Habove rs _ Hinv Hlen2 Hrs)
    as (st & Hrun & Hinv' & Hle & _ & _).
  exists st. split; [done |]. split.
  - intros i Hi. rewrite (le_old _ _ Hle i Hi). simpl.
    rewrite (copy_nids_old _ _ _ (length ns)) by done.
    destruct (copy_nodes_spec retained ns Hnd _ _ Hcopy) as (_ & Hold & _). by apply Hold.
  - intros n Hn. destruct (rw_inv_reach_new _ _ _ _ Hinv' Habove Hn) as [k Hk].
    exists k. split; [by eapply Hdom | done].
Qed.

Lemma rewire_leaves_old_graph_witness :
  ∃ st, GraphFrame.rewire_roots
          (GraphFrame.copy_nodes [0; 3; 4; 5; 6]%nat (nodes elide_world)).1 [0%nat]
          (mkRW (GraphFrame.copy_nids
                   (GraphFrame.copy_nodes [0; 3; 4; 5; 6]%nat (nodes elide_world)).1
                   [0; 3; 4; 5; 6]%nat
                   (GraphFrame.copy_nodes [0; 3; 4; 5; 6]%nat (nodes elide_world)).2) []
                ((λ v, {[v]})
                   <$> (GraphFrame.copy_nodes [0; 3; 4; 5; 6]%nat (nodes elide_world)).1) ∅)
        = Ok st
        ∧ (∀ i, (i < length (nodes elide_world))%nat →
                rw_nodes st !! i = nodes elide_world !! i)
        ∧ (∀ n, reachable (rw_nodes st) (new_roots st) n →
                ∃ k, k ∈ [0; 3; 4; 5; 6]%nat
                     ∧ (GraphFrame.copy_nodes [0; 3; 4; 5; 6]%nat (nodes elide_world)).1 !! k
                       = Some n).
Proof.
  apply (rewire_leaves_old_graph (nodes elide_world) [0%nat] [0; 3; 4; 5; 6]%nat).
  - apply wf_nodes_intro. simpl. repeat constructor.
  - intros r Hr. apply list_elem_of_singleton in Hr as ->. simpl. lia.
  - apply (bool_decide_unpack _). vm_compute. exact I.
  - apply surjective_pairing.
Defined.

(** X2: in the graph that the rewiring of squash builds, the parent lists
    and the child lists agree: a node [p] is in the parent list of [c]
    exactly when [p] is a node of the new graph with [c] in its child list,
    and no parent list, child list or the list of roots has a duplicate. *)
Theorem rewire_links_both_ways (ns : list Node) (rs retained : list nat)
    (old_to_new : gmap nat nat) (ns1 : list Node) :
  wf_nodes ns → (∀ r, r ∈ rs → (r < length ns)%nat) → NoDup retained →
  GraphFrame.copy_nodes retained ns = (old_to_new, ns1) →
  ∃ st, GraphFrame.rewire_roots old_to_new rs
          (mkRW (GraphFrame.copy_nids old_to_new retained ns1) []
                ((λ v, {[v]}) <$> old_to_new) ∅) = Ok st
        ∧ edges_ok (rw_nodes st) (new_roots st).
Proof.
  intros Hwf Hrs Hnd Hcopy.
  destruct (squash_initial_inv ns retained old_to_new ns1 Hwf Hnd Hcopy)
    as (Hinv & Habove & Hlen2 & Hch2 & Hdom).
  destruct (rewire_roots_spec old_to_new (length ns) Habove rs _ Hinv Hlen2 Hrs)
    as (st & Hrun & Hinv' & Hle & _ & _).
  exists st. split; [done |]. by eapply rw_inv_edges.
Qed.

Lemma rewire_links_both_ways_witness :
  ∃ st, GraphFrame.rewire_roots
          (GraphFrame.copy_nodes [0; 3; 4; 5; 6]%nat (nodes elide_world)).1 [0%nat]
          (mkRW (GraphFrame.copy_nids
                   (GraphFrame.copy_nodes [0; 3; 4; 5; 6]%nat (nodes elide_world)).1
                   [0; 3; 4; 5; 6]%nat
                   (GraphFrame.copy_nodes [0; 3; 4; 5; 6]%nat (nodes elide_world)).2) []
                ((λ v, {[v]})
                   <$> (GraphFrame.copy_nodes [0; 3; 4; 5; 6]%nat (nodes elide_world)).1) ∅)
        = Ok st
        ∧ edges_ok (rw_nodes st) (new_roots st).
Proof.
  apply (rewire_links_both_ways (nodes elide_world) [0%nat] [0; 3; 4; 5; 6]%nat).
  - apply wf_nodes_intro. simpl. repeat constructor.
  - intros r Hr. apply list_elem_of_singleton in Hr as ->. simpl. lia.
  - apply (bool_decide_unpack _). vm_compute. exact I.
  - apply surjective_pairing.
Defined.

(** X3: when every node of the graph is retained (every root and every child
    of a retained node has a row) and no child list or the root list names a
    node twice, the rewiring of squash copies the graph: the new roots are
    the copies of the roots in the same order, and the copy of every node of
    the graph has the copies of its children as its child list, in the same
    order, and the same frame. *)
Theorem rewire_all_retained_copies (ns : list Node) (rs retained : list nat)
    (old_to_new : gmap nat nat) (ns1 : list Node) :
  wf_nodes ns → NoDup retained → NoDup rs →
  (∀ k, k ∈ retained → (k < length ns)%nat) →
  (∀ r, r ∈ rs → r ∈ retained) →
  (∀ k c, k ∈ retained → c ∈ node_children ns k → c ∈ retained) →
  (∀ k, k ∈ retained → NoDup (node_children ns k)) →
  GraphFrame.copy_nodes retained ns = (old_to_new, ns1) →
  ∃ st, GraphFrame.rewire_roots old_to_new rs
          (mkRW (GraphFrame.copy_nids old_to_new retained ns1) []
                ((λ v, {[v]}) <$> old_to_new) ∅) = Ok st
        ∧ new_roots st = (λ k, default k (old_to_new !! k)) <$> rs
        ∧ ∀ k, reachable ns rs k →
            node_children (rw_nodes st) (default k (old_to_new !! k))
            = (λ k, default k (old_to_new !! k)) <$> node_children ns k
            ∧ node_frame (rw_nodes st) (default k (old_to_new !! k)) = node_frame ns k.
Proof.
  intros Hwf Hnd Hndrs Hvalid Hroots Hclosed Hndch Hcopy.
  set (φ := λ k, default k (old_to_new !! k)).
  destruct (squash_initial_inv ns retained old_to_new ns1 Hwf Hnd Hcopy)
    as (Hinv & Habove & Hlen2 & Hch2 & Hdom).
  set (ns2 := GraphFrame.copy_nids old_to_new retained ns1) in *.
  destruct (copy_nodes_spec retained ns Hnd _ _ Hcopy) as (Hlen1 & Hold1 & Hnew1 & Hmap).
  destruct (copy_nids_spec old_to_new retained ns1) as (Hlenn & Hchn & Hfrn).
  fold ns2 in Hlenn, Hchn, Hfrn.
  assert (∀ r, r ∈ rs → (r < length ns)%nat) as Hrs by auto.
  destruct (rewire_roots_spec old_to_new (length ns) Habove rs _ Hinv Hlen2 Hrs)
    as (st & Hrun & Hinv' & Hle & Hvis & Hcl).
  assert (∀ k, k ∈ retained → is_Some (old_to_new !! k)) as Hret.
  { intros k Hk. apply list_elem_of_lookup in Hk as [j Hj]. eexists. apply Hmap. eauto. }
  assert (∀ k k' v, old_to_new !! k = Some v → old_to_new !! k' = Some v → k = k') as Hinj.
  { intros k k' v Hk Hk'. apply Hmap in Hk as (j & Hj & ->).
    apply Hmap in Hk' as (j' & Hj' & Heq). assert (j = j') as -> by lia. congruence. }
  assert (∀ i, (i < length ns)%nat → ns2 !! i = ns !! i) as Hold2.
  { intros i Hi. unfold ns2. rewrite (copy_nids_old _ _ _ (length ns)) by done. auto. }
  assert (copy_state old_to_new (length ns) ns
            (mkRW ns2 [] ((λ v, {[v]}) <$> old_to_new) ∅)) as Hst0.
  { split; [done |]. split; [| split]; simpl.
    - intros k v Hk. by rewrite lookup_fmap, Hk.
    - intros k v Hk _. rewrite Hchn. apply Hnew1. eauto.
    - intros k v Hk. apply (inv_new_valid _ Hinv). by exists k. }
  destruct (rewire_roots_copy old_to_new (length ns) ns φ Habove) with (rs := rs)
    (s := mkRW ns2 [] ((λ v, {[v]}) <$> old_to_new) ∅) (s' := st)
    as (Hst' & _ & _ & Hroots' & _ & Hcopied); try done.
  { intros k v Hk. apply Hvalid. by eapply Hdom. }
  { intros k v c Hk Hc. apply Hret. eapply Hclosed; [by eapply Hdom | done]. }
  { intros k v Hk. unfold φ. by rewrite Hk. }
  { intros k v Hk. apply Hndch. by eapply Hdom. }
  { intros r Hr. auto. }
  simpl in Hroots', Hcopied.
  exists st. split; [done |]. split.
  - rewrite Hroots'. rewrite foldl_add_new; [done |]. simpl.
    apply NoDup_fmap_2_strong; [| done]. intros r r' Hr Hr' Heq.
    destruct (Hret r) as [v Hv]; [auto |]. destruct (Hret r') as [v' Hv']; [auto |].
    unfold φ in Heq. rewrite Hv, Hv' in Heq. simpl in Heq. subst v'. eauto.
  - assert (∀ k, reachable ns rs k → k ∈ visited st ∧ k ∈ retained) as Hall.
    { intros k Hk. induction Hk as [r Hr | p c Hp [IHv IHr] Hc].
      - split; [by apply Hvis | by apply Hroots].
      - split; [| by eapply Hclosed].
        eapply (Hcl p c); [done | simpl; set_solver |]. simpl.
        unfold node_children. rewrite Hold2; [done | auto]. }
    intros k Hk. destruct (Hall k Hk) as [Hkv Hkr].
    destruct (Hret k Hkr) as [v Hv]. rewrite Hv. simpl. split.
    + apply (Hcopied k v Hv Hkv). set_solver.
    + rewrite (le_frame _ _ Hle). simpl. rewrite Hfrn.
      by eapply copy_nodes_frame.
Qed.

Lemma rewire_all_retained_copies_witness :
  ∃ st, GraphFrame.rewire_roots
          (GraphFrame.copy_nodes [0; 1; 2; 3]%nat (nodes chain_world)).1 [0%nat]
          (mkRW (GraphFrame.copy_nids
                   (GraphFrame.copy_nodes [0; 1; 2; 3]%nat (nodes chain_world)).1
                   [0; 1; 2; 3]%nat
                   (GraphFrame.copy_nodes [0; 1; 2; 3]%nat (nodes chain_world)).2) []
                ((λ v, {[v]})
                   <$> (GraphFrame.copy_nodes [0; 1; 2; 3]%nat (nodes chain_world)).1) ∅)
        = Ok st
        ∧ new_roots st
          = (λ k, default k ((GraphFrame.copy_nodes [0; 1; 2; 3]%nat
                                (nodes chain_world)).1 !! k)) <$> [0%nat]
        ∧ ∀ k, reachable (nodes chain_world) [0%nat] k →
            node_children (rw_nodes st)
              (default k ((GraphFrame.copy_nodes [0; 1; 2; 3]%nat
                             (nodes chain_world)).1 !! k))
            = (λ k, default k ((GraphFrame.copy_nodes [0; 1; 2; 3]%nat
                                  (nodes chain_world)).1 !! k))
                <$> node_children (nodes chain_world) k
            ∧ node_frame (rw_nodes st)
                (default k ((GraphFrame.copy_nodes [0; 1; 2; 3]%nat
                               (nodes chain_world)).1 !! k))
              = node_frame (nodes chain_world) k.
Proof.
  apply (rewire_all_retained_copies (nodes chain_world) [0%nat] [0; 1; 2; 3]%nat).
  - apply wf_nodes_intro. simpl. repeat constructor.
  - apply (bool_decide_unpack _). vm_compute. exact I.
  - apply (bool_decide_unpack _). vm_compute. exact I.
  - intros k Hk. simpl. set_solver by lia.
  - intros r Hr. set_solver.
  - intros k c Hk Hc.
    repeat (apply elem_of_cons in Hk as [->|Hk]); [.. | by apply elem_of_nil in Hk];
      simpl in Hc; set_solver.
  - intros k Hk.
    repeat (apply elem_of_cons in Hk as [->|Hk]); [.. | by apply elem_of_nil in Hk];
      simpl; apply (bool_decide_unpack _); vm_compute; exact I.
  - apply surjective_pairing.
Defined.

(** ** subgraph_sum writes the output columns only *)

Lemma keeps_for_in {R : relation GraphFrame} `{!PreOrder R} {A} (self : nat)
    (l : list A) (body : A → Py unit) :
  (∀ x, x ∈ l → keeps R self (body x)) → keeps R self (py_for l body).
Proof.
  intros Hbody. induction l as [|x l IH]; simpl.
  - apply keeps_ret.
  - apply keeps_bind; [apply Hbody; by left | intros _].
    apply IH. intros y Hy. apply Hbody. by right.
Qed.

Lemma keeps_impl {R R' : relation GraphFrame} {A} (self : nat) (m : Py A) :
  (∀ gf gf', R gf gf' → R' gf gf') → keeps R self m → keeps R' self m.
Proof.
  intros HR Hm w r w' Hrun. destruct (Hm w r w' Hrun) as (? & ? & ? & ? & Hgf).
  repeat (split; [done |]). intros gf Hself.
  destruct (Hgf gf Hself) as (gf' & ? & ?). eauto.
Qed.

Lemma cells_off_writes_only (outs : list string) (gf gf' : GraphFrame) :
  cells_off outs gf gf' → writes_only outs gf gf'.
Proof.
  intros (? & ? & ? & ? & Hc & HF). repeat (split; [done |]).
  split; [intros c; by rewrite Hc |].
  eapply Forall2_impl; [exact HF |]. intros r r' (? & ?). done.
Qed.

Lemma writes_only_copy_column (outs : list string) (out col : string)
    (gf : GraphFrame) (df' : DataFrame) :
  out ∈ outs → df_copy_column out col (dataframe gf) = Ok df' →
  writes_only outs gf (set_dataframe df' gf).
Proof.
  intros Hout. unfold df_copy_column. case_decide; [| discriminate].
  intros [= <-]. repeat (split; [done |]). simpl. split.
  - intros c Hc. case_decide; [done |]. apply elem_of_app. by left.
  - apply Forall2_fmap_r, Forall_Forall2_diag, Forall_true. intros r. simpl.
    split; [done |]. intros c Hc.
    assert (c ≠ out) by (by intros ->).
    destruct (r_cells r !! col); [by rewrite lookup_insert_ne | by rewrite lookup_delete_ne].
Qed.

Lemma keeps_writes_init_sum_columns (self : nat) (cols : list string)
    (outs : option (list string)) :
  keeps (writes_only (default cols outs)) self
        (GraphFrame._init_sum_columns self cols outs).
Proof.
  unfold GraphFrame._init_sum_columns. apply keeps_bind.
  - destruct outs as [outs|]; [| apply keeps_ret].
    apply keeps_bind; [| intros _; apply keeps_ret].
    apply keeps_for_in. intros [col out] Hin.
    apply keeps_update_dataframe. intros gf df' Hdf.
    eapply writes_only_copy_column; [| done]. simpl.
    by eapply elem_of_zip_r.
  - intros out_columns. case_decide; [apply keeps_raise | apply keeps_ret].
Qed.

(** what [_init_sum_columns] returns when it returns: the output columns *)
Lemma init_sum_columns_result (self : nat) (cols : list string)
    (outs : option (list string)) (w w' : world) (r : list string) :
  GraphFrame._init_sum_columns self cols outs w = (Ok r, w') → r = default cols outs.
Proof.
  unfold GraphFrame._init_sum_columns. intros Hrun.
  apply py_bind_ok_inv in Hrun as (out_columns & w1 & Hout & Hrun).
  case_decide; [discriminate |]. injection Hrun as <- <-.
  destruct outs as [outs|]; [| by injection Hout as <- <-].
  apply py_bind_ok_inv in Hout as ([] & w2 & _ & Hret). by injection Hret as <- <-.
Qed.

Lemma keeps_bind_result {R : relation GraphFrame} `{!PreOrder R} {A B} (self : nat)
    (m : Py A) (f : A → Py B) (P : A → Prop) :
  keeps R self m → (∀ w a w', m w = (Ok a, w') → P a) →
  (∀ a, P a → keeps R self (f a)) → keeps R self (m ≫= f).
Proof.
  intros Hm HP Hf w r w'. rewrite py_bind_run.
  destruct (m w) as [[a|e] w1] eqn:Hrun.
  - intros Hrun'. eapply table_only_trans; [by eapply Hm |].
    eapply Hf; [by eapply HP | done].
  - intros [= <- <-]. by eapply Hm.
Qed.

Lemma keeps_writes_subgraph_sum (self : nat) (cols : list string)
    (outs : option (list string)) (function : list cell → result cell) :
  keeps (writes_only (default cols outs)) self
        (GraphFrame.subgraph_sum self cols outs function).
Proof.
  unfold GraphFrame.subgraph_sum.
  apply keeps_bind; [apply keeps_get_gf | intros gf].
  apply keeps_bind; [apply keeps_get_graph | intros g].
  apply keeps_bind; [apply keeps_get_nodes | intros ns].
  apply keeps_bind; [apply keeps_lift | intros tree].
  destruct tree.
  - unfold GraphFrame.subtree_sum.
    apply (keeps_bind_result _ _ _ (λ r, r = default cols outs)).
    + apply keeps_writes_init_sum_columns.
    + intros w a w'. apply init_sum_columns_result.
    + intros ? ->. eapply keeps_impl; [apply cells_off_writes_only |].
      apply keeps_cells_subtree_sum_loop.
  - unfold GraphFrame.subgraph_sum_fallback.
    apply (keeps_bind_result _ _ _ (λ r, r = default cols outs)).
    + apply keeps_writes_init_sum_columns.
    + intros w a w'. apply init_sum_columns_result.
    + intros ? ->. eapply keeps_impl; [apply cells_off_writes_only |].
      apply keeps_cells_subgraph_sum_loop.
Qed.

(** X4: whatever [subgraph_sum] does, return or raise, it changes nothing
    but cells of the output columns of its own table ([out_columns], or
    [columns] when it works in place): the nodes, the graphs and every other
    GraphFrame are as before, the GraphFrame keeps its graph and its metric
    lists, its table keeps its index, its row keys and its columns, and every
    cell of a column that is not an output column keeps its value. *)
Theorem subgraph_sum_writes_out_columns (self : nat) (cols : list string)
    (outs : option (list string)) (function : list cell → result cell)
    (w w' : world) (r : result unit) (gf : GraphFrame) :
  gframes w !! self = Some gf →
  GraphFrame.subgraph_sum self cols outs function w = (r, w') →
  nodes w' = nodes w ∧ graphs w' = graphs w
  ∧ (∀ k, k ≠ self → gframes w' !! k = gframes w !! k)
  ∧ ∃ gf', gframes w' !! self = Some gf' ∧ writes_only (default cols outs) gf gf'.
Proof.
  intros Hself Hrun.
  destruct (keeps_writes_subgraph_sum self cols outs function w r w' Hrun)
    as (Hn & Hg & _ & Hother & Hgf).
  split; [done |]. split; [done |]. split; [done |]. by apply Hgf.
Qed.

Lemma subgraph_sum_writes_out_columns_witness :
  nodes (GraphFrame.subgraph_sum 0 ["time"] (Some ["time (inc)"]) np_sum ranks_world).2
  = nodes ranks_world
  ∧ graphs (GraphFrame.subgraph_sum 0 ["time"] (Some ["time (inc)"]) np_sum ranks_world).2
    = graphs ranks_world
  ∧ (∀ k, k ≠ 0%nat →
          gframes (GraphFrame.subgraph_sum 0 ["time"] (Some ["time (inc)"]) np_sum
                     ranks_world).2 !! k
          = gframes ranks_world !! k)
  ∧ ∃ gf', gframes (GraphFrame.subgraph_sum 0 ["time"] (Some ["time (inc)"]) np_sum
                      ranks_world).2 !! 0%nat = Some gf'
           ∧ ∃ gf, gframes ranks_world !! 0%nat = Some gf
                   ∧ writes_only ["time (inc)"] gf gf'.
Proof.
  destruct (gframes ranks_world !! 0%nat) as [gf|] eqn:Hgf; [| discriminate].
  destruct (subgraph_sum_writes_out_columns 0 ["time"] (Some ["time (inc)"]) np_sum
              ranks_world _ _ gf Hgf (surjective_pairing _))
    as (Hn & Hg & Ho & gf' & Hgf' & Hw).
  split; [done |]. split; [done |]. split; [done |]. exists gf'. split; [done |].
  exists gf. done.
Defined.

(** ** subgraph_sum on two graphs of one shape *)

Lemma py_sim_raise {A B} (I : world → world → Prop) (R : A → B → Prop)
    (e : exn) (m : Py B) :
  py_sim I R (py_raise e) m.
Proof. intros wa wb a wa' _ Hrun. discriminate. Qed.

Section sums_whole.
Variable φ : nat → nat.
Hypothesis φ_inj : Inj (=) (=) φ.
Variable ns : list Node.
Variables ga gb : nat.
Variables Ga Gb : Graph.
Variables sa sb : nat.
Hypothesis roots_φ : roots Gb = φ <$> roots Ga.
Hypothesis children_φ : ∀ n, reachable ns (roots Ga) n →
                              node_children ns (φ n) = φ <$> node_children ns n.
Hypothesis parents_φ : ∀ n, reachable ns (roots Ga) n →
                             length (node_parents ns (φ n)) = length (node_parents ns n).

Local Abbreviation I := (sum_sim φ ns ns ga gb Ga Gb sa sb).

Lemma init_sum_columns_sim (cols : list string) (outs : option (list string)) :
  py_sim I eq (GraphFrame._init_sum_columns sa cols outs)
    (GraphFrame._init_sum_columns sb cols outs).
Proof.
  unfold GraphFrame._init_sum_columns. eapply (py_sim_bind _ eq).
  - destruct outs as [outs|]; [| by apply py_sim_ret].
    eapply (py_sim_bind _ eq); [| intros _ _ _; by apply py_sim_ret].
    eapply (py_sim_for _ eq); [by apply Forall_Forall2_diag, Forall_true |].
    intros [col out] ? <-. apply sim_update_dataframe. intros df df' Hdf.
    by rewrite df_copy_column_rekey, Hdf.
  - intros out_columns ? <-.
    case_decide; [apply py_sim_raise | by apply py_sim_ret].
Qed.

Lemma subgraph_sum_sim (cols : list string) (outs : option (list string))
    (f : list cell → result cell) :
  py_sim I eq (GraphFrame.subgraph_sum sa cols outs f)
    (GraphFrame.subgraph_sum sb cols outs f).
Proof.
  unfold GraphFrame.subgraph_sum.
  eapply py_sim_bind; [apply sim_get_gf | intros gfa gfb (-> & -> & Hdf)].
  eapply py_sim_bind; [apply sim_get_graph | intros ? ? [-> ->]].
  eapply py_sim_bind; [apply sim_get_nodes | intros ? ? [-> ->]].
  eapply (py_sim_bind _ eq).
  { apply py_sim_lift. intros tree Htree. exists tree. split; [| done].
    destruct Ga as [rsa], Gb as [rsb]. simpl in roots_φ. subst rsb.
    eapply (Graph_is_tree_equiv φ φ_inj ns ns (reachable ns rsa)); try done.
    - intros n c Hn Hc. by apply (reach_child _ _ n).
    - intros r Hr. by apply reach_root. }
  intros tree ? <-. destruct tree.
  - unfold GraphFrame.subtree_sum.
    eapply (py_sim_bind _ eq); [apply init_sum_columns_sim | intros out ? <-].
    by apply subtree_sum_loop_sim.
  - unfold GraphFrame.subgraph_sum_fallback.
    eapply (py_sim_bind _ eq); [apply init_sum_columns_sim | intros out ? <-].
    by apply subgraph_sum_loop_sim.
Qed.
End sums_whole.

(** X5: [subgraph_sum] looks at the shape of the graph only.  Take two
    graphs among the nodes [ns] and a renaming [φ] of nodes, one to one, that
    sends the roots of the first to the roots of the second and the child
    list of every node of the first to the child list of its image (with as
    many parents), and two GraphFrames on these graphs whose tables differ by
    the renaming of the nodes only.  If [subgraph_sum] returns on the first,
    it returns on the second, and the two tables again differ by the renaming
    only: every row of a node has the values of the row of the node it is
    the image of. *)
Theorem subgraph_sum_shape_only (φ : nat → nat) (ns : list Node) (ga gb : nat)
    (Ga Gb : Graph) (sa sb : nat) (cols : list string) (outs : option (list string))
    (f : list cell → result cell) (wa wb wa' : world) :
  Inj (=) (=) φ →
  roots Gb = φ <$> roots Ga →
  (∀ n, reachable ns (roots Ga) n →
        node_children ns (φ n) = φ <$> node_children ns n
        ∧ length (node_parents ns (φ n)) = length (node_parents ns n)) →
  sum_sim φ ns ns ga gb Ga Gb sa sb wa wb →
  GraphFrame.subgraph_sum sa cols outs f wa = (Ok tt, wa') →
  ∃ wb', GraphFrame.subgraph_sum sb cols outs f wb = (Ok tt, wb')
         ∧ sum_sim φ ns ns ga gb Ga Gb sa sb wa' wb'.
Proof.
  intros Hinj Hroots Hshape Hsim Hrun.
  destruct (subgraph_sum_sim φ Hinj ns ga gb Ga Gb sa sb Hroots
              (λ n Hn, proj1 (Hshape n Hn)) (λ n Hn, proj2 (Hshape n Hn))
              cols outs f wa wb tt wa' Hsim Hrun) as ([] & wb' & Hrunb & Hsim' & _).
  eauto.
Qed.

Lemma subgraph_sum_shape_only_witness :
  ∃ wb', GraphFrame.subgraph_sum 1 ["time"] (Some ["time (inc)"]) np_sum twin_world
         = (Ok tt, wb')
         ∧ sum_sim (λ n, n + 4)%nat (nodes twin_world) (nodes twin_world) 0 1
             (mkGraph [0%nat]) (mkGraph [4%nat]) 0 1
             (GraphFrame.subgraph_sum 0 ["time"] (Some ["time (inc)"]) np_sum twin_world).2
             wb'.
Proof.
  apply (subgraph_sum_shape_only (λ n, n + 4)%nat (nodes twin_world) 0 1
           (mkGraph [0%nat]) (mkGraph [4%nat]) 0 1 ["time"] (Some ["time (inc)"]) np_sum
           twin_world twin_world).
  - intros n m Hnm. lia.
  - reflexivity.
  - intros n Hn.
    assert (n ∈ [0; 1; 2; 3]%nat) as Hin.
    { induction Hn as [r Hr | p c Hp IH Hc]; [set_solver |].
      repeat (apply elem_of_cons in IH as [->|IH]); [.. | by apply elem_of_nil in IH];
        simpl in Hc; set_solver. }
    repeat (apply elem_of_cons in Hin as [->|Hin]); [.. | by apply elem_of_nil in Hin];
      done.
  - split; [done |]. split; [done |]. split; [done |]. split; [done |].
    eexists _, _. split; [reflexivity |]. split; [reflexivity |]. done.
  - vm_compute. reflexivity.
Defined.

(** ** squash: the GraphFrame it returns *)

(** the steps of a run of squash that returns *)
Lemma squash_inv (w w' : world) (self new : nat) (gf : GraphFrame) :
  gframes w !! self = Some gf →
  GraphFrame.squash self w = (Ok new, w') →
  ∃ g old_to_new ns1 st ns3 df1 ns4 gr merges df2 agg_df,
    graphs w !! graph gf = Some g
    ∧ GraphFrame.copy_nodes
        (elements (list_to_set (df_nodes (dataframe gf)) : gset nat)) (nodes w)
      = (old_to_new, ns1)
    ∧ GraphFrame.rewire_roots old_to_new (roots g)
        (mkRW (GraphFrame.copy_nids old_to_new
                 (elements (list_to_set (df_nodes (dataframe gf)) : gset nat)) ns1)
              [] ((λ v, {[v]}) <$> old_to_new) ∅) = Ok st
    ∧ Graph_enumerate_traverse (mkGraph (new_roots st)) (rw_nodes st) = Ok ns3
    ∧ df_apply_node (dict_get old_to_new) (dataframe gf) = Ok df1
    ∧ Graph_normalize (mkGraph (new_roots st)) ns3 = Ok (ns4, gr, merges)
    ∧ df_apply_node (λ n, Ok (default n (merges !! n))) df1 = Ok df2
    ∧ groupby_agg (exc_metrics gf ++ inc_metrics gf) df2 = Ok agg_df
    ∧ "node" ∈ index_names agg_df
    ∧ new = length (gframes w)
    ∧ GraphFrame.update_inclusive_columns new
        (mkWorld ns4 (graphs w ++ [gr])
           (gframes w ++ [mkGF (length (graphs w)) agg_df (exc_metrics gf) (inc_metrics gf)]))
      = (Ok tt, w').
Proof.
  intros Hself Hrun. unfold GraphFrame.squash in Hrun.
  rewrite (py_bind_ok _ _ _ _ _ (get_gf_ok _ _ _ Hself)) in Hrun.
  apply py_bind_ok_inv in Hrun as (g & w1 & Hg & Hrun).
  apply get_graph_ok_inv in Hg as [Hg ->].
  rewrite (py_bind_ok get_nodes _ w w (nodes w) eq_refl) in Hrun.
  destruct (GraphFrame.copy_nodes _ (nodes w)) as [old_to_new ns1] eqn:Hcopy.
  apply py_bind_ok_inv in Hrun as (st & w1 & Hst & Hrun).
  apply lift_ok_inv in Hst as [Hst ->].
  apply py_bind_ok_inv in Hrun as (ns3 & w1 & Hns3 & Hrun).
  apply lift_ok_inv in Hns3 as [Hns3 ->].
  apply py_bind_ok_inv in Hrun as (df1 & w1 & Hdf1 & Hrun).
  apply lift_ok_inv in Hdf1 as [Hdf1 ->].
  apply py_bind_ok_inv in Hrun as ([[ns4 gr] merges] & w1 & Hnorm & Hrun).
  apply lift_ok_inv in Hnorm as [Hnorm ->].
  apply py_bind_ok_inv in Hrun as ([] & w1 & Hput & Hrun).
  injection Hput as <-.
  apply py_bind_ok_inv in Hrun as (new_g & w1 & Hnewg & Hrun).
  injection Hnewg as <- <-. simpl in Hrun.
  apply py_bind_ok_inv in Hrun as (df2 & w1 & Hdf2 & Hrun).
  apply lift_ok_inv in Hdf2 as [Hdf2 ->].
  apply py_bind_ok_inv in Hrun as (agg_df & w1 & Hagg & Hrun).
  apply lift_ok_inv in Hagg as [Hagg ->].
  apply py_bind_ok_inv in Hrun as (new_gf & w1 & Hinit & Hrun).
  apply init_ok_inv in Hinit as (Hnode & -> & ->). simpl in Hrun.
  apply py_bind_ok_inv in Hrun as ([] & w1 & Hsum & Hrun).
  injection Hrun as <- <-.
  exists g, old_to_new, ns1, st, ns3, df1, ns4, gr, merges, df2, agg_df.
  repeat (split; [done |]). done.
Qed.

Lemma groupby_agg_keys (metrics : list string) (df df' : DataFrame) :
  groupby_agg metrics df = Ok df' →
  index_names df' = index_names df ∧ columns df' = columns df
  ∧ row_key <$> rows df' = remove_dups (row_key <$> rows df).
Proof.
  unfold groupby_agg. intros Hrun.
  destruct (mapM _ _) as [rs|] eqn:Hmap; simpl in Hrun; [| discriminate].
  injection Hrun as <-. simpl. split; [done |]. split; [done |].
  apply mapM_result_inv in Hmap.
  induction Hmap as [|k r ks rs Hk _ IH]; [done |].
  rewrite fmap_cons, IH. f_equal.
  destruct (agg_group _ _ _) as [cs|]; simpl in Hk; [| discriminate].
  injection Hk as <-. by destruct k.
Qed.

Lemma keeps_writes_update_inclusive_columns (self : nat) (w w' : world)
    (r : result unit) (gf : GraphFrame) :
  gframes w !! self = Some gf →
  GraphFrame.update_inclusive_columns self w = (r, w') →
  table_only (writes_only ((λ s, s +:+ " (inc)") <$> exc_metrics gf)) self
    (mkWorld (nodes w) (graphs w)
       (<[self := set_inc_metrics ((λ s, s +:+ " (inc)") <$> exc_metrics gf) gf]>
          (gframes w))) w'.
Proof.
  intros Hself. unfold GraphFrame.update_inclusive_columns.
  rewrite (py_bind_ok _ _ _ _ _ (get_gf_ok _ _ _ Hself)).
  rewrite (py_bind_ok (put_gf self _) _ _ _ tt eq_refl).
  intros Hrun.
  exact (keeps_writes_subgraph_sum self (exc_metrics gf)
           (Some ((λ s, s +:+ " (inc)") <$> exc_metrics gf)) np_sum _ _ _ Hrun).
Qed.

(** X6: when squash returns, it returns a new GraphFrame on a new Graph
    object and has changed no GraphFrame and no Graph object that existed (the
    one it was called on included).  The new GraphFrame has the exclusive
    metrics of the old one and the inclusive metrics ["<m> (inc)"] for the
    exclusive metrics [m]; its table has the index names of the old table and
    at most one row for an index key. *)
Theorem squash_returns_new_frame (w w' : world) (self new : nat) (gf : GraphFrame) :
  gframes w !! self = Some gf →
  GraphFrame.squash self w = (Ok new, w') →
  new = length (gframes w)
  ∧ (∀ k, (k < length (gframes w))%nat → gframes w' !! k = gframes w !! k)
  ∧ (∀ k, (k < length (graphs w))%nat → graphs w' !! k = graphs w !! k)
  ∧ ∃ gf', gframes w' !! new = Some gf'
           ∧ graph gf' = length (graphs w)
           ∧ exc_metrics gf' = exc_metrics gf
           ∧ inc_metrics gf' = (λ s, s +:+ " (inc)") <$> exc_metrics gf
           ∧ index_names (dataframe gf') = index_names (dataframe gf)
           ∧ NoDup (row_key <$> rows (dataframe gf')).
Proof.
  intros Hself Hrun.
  destruct (squash_inv w w' self new gf Hself Hrun)
    as (g & O & ns1 & st & ns3 & df1 & ns4 & gr & merges & df2 & agg_df
        & Hg & Hcopy & Hst & Hns3 & Hdf1 & Hnorm & Hdf2 & Hagg & Hnode & -> & Hsum).
  set (n := length (gframes w)) in *.
  set (gf0 := mkGF (length (graphs w)) agg_df (exc_metrics gf) (inc_metrics gf)) in *.
  assert ((gframes w ++ [gf0]) !! n = Some gf0) as Hn.
  { by rewrite lookup_app_r, Nat.sub_diag. }
  destruct (keeps_writes_update_inclusive_columns n
              (mkWorld ns4 (graphs w ++ [gr]) (gframes w ++ [gf0])) _ _ gf0 Hn Hsum)
    as (Hnodes & Hgraphs & _ & Hother & Hgf').
  simpl in *.
  destruct (Hgf' (set_inc_metrics ((λ s, s +:+ " (inc)") <$> exc_metrics gf) gf0))
    as (gf' & Hnew & Hgr & Hexc & Hinc & Hidx & _ & Hrows).
  { apply list_lookup_insert_eq. rewrite length_app. simpl. lia. }
  simpl in *.
  split; [done |]. split.
  { intros k Hk. rewrite Hother by (unfold n; lia).
    rewrite list_lookup_insert_ne by (unfold n; lia). by rewrite lookup_app_l. }
  split.
  { intros k Hk. rewrite Hgraphs. by rewrite lookup_app_l. }
  exists gf'. repeat (split; [done |]).
  destruct (groupby_agg_keys _ _ _ Hagg) as (Hi2 & _ & Hk2).
  destruct (df_apply_node_ok _ _ _ Hdf2) as (_ & Hi1 & _).
  destruct (df_apply_node_ok _ _ _ Hdf1) as (_ & Hi0 & _).
  split; [congruence |].
  assert (row_key <$> rows (dataframe gf') = row_key <$> rows agg_df) as ->.
  { clear -Hrows. induction Hrows as [|r r' l l' [Hk _] _ IH]; [done |].
    rewrite !fmap_cons. by rewrite IH, Hk. }
  rewrite Hk2. apply NoDup_remove_dups.
Qed.

Lemma squash_returns_new_frame_witness :
  ∃ gf', gframes (GraphFrame.squash 0 elide_world).2 !! 1%nat = Some gf'
         ∧ exc_metrics gf' = ["time"]
         ∧ inc_metrics gf' = ["time (inc)"]
         ∧ index_names (dataframe gf') = ["node"]
         ∧ NoDup (row_key <$> rows (dataframe gf')).
Proof.
  destruct (squash_returns_new_frame elide_world (GraphFrame.squash 0 elide_world).2 0 1
              (mkGF 0 (mkDF ["node"] ["time"]
                         [time_row 0 1; time_row 3 10; time_row 4 100; time_row 5 1000;
                          time_row 6 10000]) ["time"] []))
    as (_ & _ & _ & gf' & H1 & _ & H3 & H4 & H5 & H6).
  - reflexivity.
  - vm_compute. reflexivity.
  - exists gf'. split; [exact H1 |]. split; [exact H3 |]. split; [exact H4 |].
    split; [exact H5 | exact H6].
Defined.

(** ** filter: the failures *)

Lemma init_raise_inv (g : nat) (df : DataFrame) (exc inc : list string)
    (w w' : world) (e : exn) :
  GraphFrame.__init__ g df exc inc w = (Raise e, w') → w' = w.
Proof.
  unfold GraphFrame.__init__. case_decide; [discriminate |]. by intros [= _ <-].
Qed.

(** X7: a call of [filter] without [squash] that raises (InvalidFilter,
    EmptyFilter, an exception of the callable, ...) has changed nothing: no
    GraphFrame has been created and the nodes, the graphs and the GraphFrames
    are as before. *)
Theorem filter_failure_changes_nothing (w w' : world) (self : nat)
    (filter_obj : filter_arg) (e : exn) :
  GraphFrame.filter self filter_obj false w = (Raise e, w') → w' = w.
Proof.
  unfold GraphFrame.filter. rewrite py_bind_run.
  destruct (get_gf self w) as [[gf|e0] w0] eqn:Hget.
  2: { unfold get_gf in Hget. destruct (gframes w !! self); [discriminate |].
       injection Hget as <- <-. by intros [= _ <-]. }
  apply get_gf_ok_inv in Hget as [Hself ->].
  rewrite py_bind_run.
  assert (∀ r w1, (match filter_obj return Py DataFrame with
                   | Callable f =>
                     keep ← lift (mapM f (rows (dataframe gf)));
                     mret (set_rows (fst <$> List.filter snd
                                       (zip (rows (dataframe gf)) keep)) (dataframe gf))
                   | QueryList apply | QueryMatcher apply =>
                     query_matches ← ((λ w, (apply w self, w)) : Py (list (list nat)));
                     mret (set_rows
                             (List.filter (λ r, bool_decide (r_node r ∈ concat query_matches))
                                (rows (dataframe gf))) (dataframe gf))
                   | OtherObject => py_raise InvalidFilter
                   end) w = (r, w1) → w1 = w) as Hsel.
  { intros r w1. destruct filter_obj as [f | apply | apply |].
    - rewrite py_bind_run. unfold lift.
      destruct (mapM f _); intros H; apply (f_equal snd) in H;
        cbv [mret Py_ret] in H; simpl in H; congruence.
    - rewrite py_bind_run. destruct (apply w self); intros H;
        apply (f_equal snd) in H; cbv [mret Py_ret] in H; simpl in H; congruence.
    - rewrite py_bind_run. destruct (apply w self); intros H;
        apply (f_equal snd) in H; cbv [mret Py_ret] in H; simpl in H; congruence.
    - unfold py_raise. intros H. apply (f_equal snd) in H. simpl in H. congruence. }
  match goal with
  | |- (match ?x with _ => _ end) = _ → _ => destruct x as [[fdf|e'] w1] eqn:Hrun
  end.
  - pose proof (Hsel _ _ eq_refl) as ->. case_decide; [by intros [= _ <-] |].
    rewrite py_bind_run.
    destruct (GraphFrame.__init__ _ _ _ _ w) as [[n|e'] w2] eqn:Hinit.
    + apply init_ok_inv in Hinit as (_ & -> & ->). cbv beta.
      erewrite (py_bind_ok (get_gf _) _ _ _ (mkGF (graph gf) fdf [] [])).
      * rewrite py_bind_run. unfold put_gf. discriminate.
      * apply get_gf_ok. simpl. by rewrite lookup_app_r, Nat.sub_diag.
    + apply init_raise_inv in Hinit as ->. by intros [= _ <-].
  - pose proof (Hsel _ _ eq_refl) as ->. by intros [= _ <-].
Qed.

Lemma filter_failure_changes_nothing_witness :
  (GraphFrame.filter 0 OtherObject false chain_world).2 = chain_world.
Proof.
  apply (filter_failure_changes_nothing chain_world _ 0 OtherObject InvalidFilter).
  reflexivity.
Defined.





(** ** The arithmetic operators leave their operands alone *)

Lemma untouched_refl (S : nat → Prop) (w : world) : untouched S w w.
Proof. repeat split; done. Qed.

Lemma untouched_trans (S : nat → Prop) (w1 w2 w3 : world) :
  untouched S w1 w2 → untouched S w2 w3 → untouched S w1 w3.
Proof.
  intros (Hl1 & Hf1 & Hg1 & Hs1) (Hl2 & Hf2 & Hg2 & Hs2).
  split; [lia |]. split; [| split; [lia |]].
  - intros k Hk HS. rewrite Hf2 by (done || lia). by apply Hf1.
  - intros g Hg. rewrite Hs2 by lia. by apply Hs1.
Qed.

Section touches.
Context {n0 : nat} {S : nat → Prop}.

Lemma touches_ret {A} (P : A → Prop) (a : A) : P a → touches_only n0 S P (mret a).
Proof.
  intros HP w r w' _ [= <- <-]. split; [apply untouched_refl |]. by intros ? [= <-].
Qed.

Lemma touches_raise {A} (P : A → Prop) (e : exn) : touches_only n0 S P (py_raise e).
Proof. intros w r w' _ [= <- <-]. split; [apply untouched_refl | done]. Qed.

Lemma touches_lift {A} (x : result A) : touches_only n0 S (λ _, True) (lift x).
Proof. intros w r w' _ [= <- <-]. split; [apply untouched_refl | done]. Qed.

Lemma touches_get_gf (k : nat) : touches_only n0 S (λ _, True) (get_gf k).
Proof.
  intros w r w' _. unfold get_gf.
  destruct (gframes w !! k); intros [= <- <-]; (split; [apply untouched_refl | done]).
Qed.

Lemma touches_get_graph (k : nat) : touches_only n0 S (λ _, True) (get_graph k).
Proof.
  intros w r w' _. unfold get_graph.
  destruct (graphs w !! k); intros [= <- <-]; (split; [apply untouched_refl | done]).
Qed.

Lemma touches_get_nodes : touches_only n0 S (λ _, True) get_nodes.
Proof. intros w r w' _ [= <- <-]. split; [apply untouched_refl | done]. Qed.

Lemma touches_put_nodes (ns : list Node) : touches_only n0 S (λ _, True) (put_nodes ns).
Proof. intros w r w' _ [= <- <-]. split; [by repeat split | done]. Qed.

Lemma touches_new_graph (gr : Graph) : touches_only n0 S (λ _, True) (new_graph gr).
Proof.
  intros w r w' _ [= <- <-]. split; [| done]. unfold untouched. simpl.
  split; [done |]. split; [done |].
  split; [rewrite length_app; lia |]. intros g Hg. by rewrite lookup_app_l.
Qed.

Lemma touches_put_gf (k : nat) (gf : GraphFrame) :
  S k → touches_only n0 S (λ _, True) (put_gf k gf).
Proof.
  intros Hk w r w' _ [= <- <-]. split; [| done]. unfold untouched. simpl.
  split; [by rewrite length_insert |]. split; [| done].
  intros j Hj HS. apply list_lookup_insert_ne. by intros ->.
Qed.

Lemma touches_bind {A B} (P : A → Prop) (Q : B → Prop) (m : Py A) (f : A → Py B) :
  touches_only n0 S P m → (∀ a, P a → touches_only n0 S Q (f a)) →
  touches_only n0 S Q (m ≫= f).
Proof.
  intros Hm Hf w r w' Hn. rewrite py_bind_run.
  destruct (m w) as [[a|e] w1] eqn:Hrun.
  - intros Hrun'. destruct (Hm w _ w1 Hn Hrun) as [Hu HP].
    destruct (Hf a (HP a eq_refl) w1 r w') as [Hu' HQ]; [destruct Hu; lia | done |].
    split; [by eapply untouched_trans | done].
  - intros [= <- <-]. destruct (Hm w _ w1 Hn Hrun) as [Hu _]. done.
Qed.

Lemma touches_weaken {A} (P Q : A → Prop) (m : Py A) :
  (∀ a, P a → Q a) → touches_only n0 S P m → touches_only n0 S Q m.
Proof.
  intros HPQ Hm w r w' Hn Hrun. destruct (Hm w r w' Hn Hrun) as [Hu HP].
  split; [done |]. intros a Ha. auto.
Qed.

Lemma touches_for {A} (l : list A) (body : A → Py unit) :
  (∀ x, touches_only n0 S (λ _, True) (body x)) →
  touches_only n0 S (λ _, True) (py_for l body).
Proof.
  intros Hbody. induction l as [|x l IH]; simpl.
  - by apply touches_ret.
  - eapply touches_bind; [apply Hbody | by intros _ _].
Qed.

Lemma touches_update_dataframe (k : nat) (f : DataFrame → result DataFrame) :
  S k → touches_only n0 S (λ _, True) (update_dataframe k f).
Proof.
  intros Hk. unfold update_dataframe.
  eapply touches_bind; [apply touches_get_gf | intros gf _].
  eapply touches_bind; [apply touches_lift | intros df _].
  by apply touches_put_gf.
Qed.

Hypothesis new_in_S : ∀ k, (n0 ≤ k)%nat → S k.

Lemma touches_init (g : nat) (df : DataFrame) (exc inc : list string) :
  touches_only n0 S S (GraphFrame.__init__ g df exc inc).
Proof.
  intros w r w' Hn. unfold GraphFrame.__init__. case_decide.
  - intros [= <- <-]. simpl. split.
    + unfold untouched. simpl. split; [rewrite length_app; lia |]. split; [| done].
      intros k Hk _. by rewrite lookup_app_l.
    + intros a [= <-]. by apply new_in_S.
  - intros [= <- <-]. split; [apply untouched_refl | done].
Qed.

Lemma touches_copy (self : nat) : touches_only n0 S S (GraphFrame.copy self).
Proof.
  unfold GraphFrame.copy.
  eapply touches_bind; [apply touches_get_gf | intros gf _]. apply touches_init.
Qed.

Lemma touches_insert_missing_rows (a b : nat) :
  S a → touches_only n0 S (λ _, True) (GraphFrame._insert_missing_rows a b).
Proof.
  intros Ha. unfold GraphFrame._insert_missing_rows.
  eapply touches_bind; [apply touches_get_gf | intros s _].
  eapply touches_bind; [apply touches_get_gf | intros o _].
  eapply (touches_bind (λ _, True)).
  { destruct (df_empty _); [by apply touches_ret | by apply touches_update_dataframe]. }
  intros _ _.
  eapply (touches_bind (λ _, True)).
  { destruct (df_empty _); [by apply touches_ret |].
    eapply touches_bind; [apply touches_lift | intros joined _].
    eapply (touches_bind (λ _, True)); [| intros _ _; by apply touches_ret].
    destruct (df_empty _); [by apply touches_update_dataframe | by apply touches_ret]. }
  intros other_not_in_self _.
  eapply (touches_bind (λ _, True)).
  { apply touches_for. intros i. by apply touches_update_dataframe. }
  intros _ _. by apply touches_update_dataframe.
Qed.

Lemma touches_unify (a b : nat) :
  S a → S b → touches_only n0 S (λ _, True) (GraphFrame.unify a b).
Proof.
  intros Ha Hb. unfold GraphFrame.unify.
  eapply touches_bind; [apply touches_get_gf | intros s _].
  eapply touches_bind; [apply touches_get_gf | intros o _].
  case_decide; [by apply touches_ret |].
  eapply touches_bind; [apply touches_get_graph | intros gs _].
  eapply touches_bind; [apply touches_get_graph | intros go _].
  eapply touches_bind; [apply touches_get_nodes | intros ns _].
  eapply touches_bind; [apply touches_lift | intros [[ug nm] ns'] _].
  eapply touches_bind; [apply touches_put_nodes | intros _ _].
  eapply touches_bind; [apply touches_new_graph | intros ug' _].
  eapply touches_bind; [by apply touches_update_dataframe | intros _ _].
  eapply touches_bind; [by apply touches_update_dataframe | intros _ _].
  eapply touches_bind; [by apply touches_insert_missing_rows | intros _ _].
  eapply touches_bind; [apply touches_get_gf | intros s' _].
  eapply touches_bind; [by apply touches_put_gf | intros _ _].
  eapply touches_bind; [apply touches_get_gf | intros o' _].
  by apply touches_put_gf.
Qed.

Lemma touches_operator (a b : nat) (op : cell → cell → result cell) :
  S a → touches_only n0 S (λ _, True) (GraphFrame._operator a b op).
Proof.
  intros Ha. unfold GraphFrame._operator.
  eapply touches_bind; [apply touches_get_gf | intros s _].
  eapply touches_bind; [apply touches_get_gf | intros o _].
  eapply touches_bind; [by apply touches_update_dataframe | intros _ _].
  by apply touches_ret.
Qed.

(** the shape of [add], [sub] and [mul] *)
Lemma touches_binary (self other : nat) (op : cell → cell → result cell) :
  touches_only n0 S (λ _, True)
    (self_copy ← GraphFrame.copy self;
     other_copy ← GraphFrame.copy other;
     _ ← GraphFrame.unify self_copy other_copy;
     GraphFrame._operator self_copy other_copy op).
Proof.
  eapply touches_bind; [apply touches_copy | intros a Ha].
  eapply touches_bind; [apply touches_copy | intros b Hb].
  eapply touches_bind; [by apply touches_unify | intros _ _].
  by apply touches_operator.
Qed.

(** the shape of [__iadd__], [__isub__] and [__imul__] *)
Lemma touches_in_place (self other : nat) (op : cell → cell → result cell) :
  S self →
  touches_only n0 S (λ _, True)
    (other_copy ← GraphFrame.copy other;
     _ ← GraphFrame.unify self other_copy;
     GraphFrame._operator self other_copy op).
Proof.
  intros Hself.
  eapply touches_bind; [apply touches_copy | intros b Hb].
  eapply touches_bind; [by apply touches_unify | intros _ _].
  by apply touches_operator.
Qed.
End touches.

(** X9: [add], [sub] and [mul] work on copies: whatever the outcome (a
    result or an exception), every GraphFrame and every Graph object that
    existed before the call, the two operands included, is as it was. *)
Theorem arithmetic_leaves_operands (self other : nat) (w w' : world) (r : result nat)
    (m : nat → nat → Py nat) :
  m = GraphFrame.add ∨ m = GraphFrame.sub ∨ m = GraphFrame.mul →
  m self other w = (r, w') →
  (∀ k, (k < length (gframes w))%nat → gframes w' !! k = gframes w !! k)
  ∧ (∀ g, (g < length (graphs w))%nat → graphs w' !! g = graphs w !! g).
Proof.
  intros Hm Hrun.
  assert (∃ op, m self other
                = (self_copy ← GraphFrame.copy self;
                   other_copy ← GraphFrame.copy other;
                   _ ← GraphFrame.unify self_copy other_copy;
                   GraphFrame._operator self_copy other_copy op)) as [op Hop].
  { destruct Hm as [-> | [-> | ->]]; eexists; reflexivity. }
  rewrite Hop in Hrun.
  destruct (touches_binary (n0 := length (gframes w)) (S := λ k, length (gframes w) ≤ k)%nat
              (λ k Hk, Hk) self other op w r w' (le_n _) Hrun) as [(_ & Hf & _ & Hg) _].
  split; [| done]. intros k Hk. apply Hf; [done | lia].
Qed.

Lemma arithmetic_leaves_operands_witness :
  (∀ k, (k < 2)%nat →
        gframes (GraphFrame.sub 0 1 xyz_world).2 !! k = gframes xyz_world !! k)
  ∧ (∀ g, (g < 2)%nat →
          graphs (GraphFrame.sub 0 1 xyz_world).2 !! g = graphs xyz_world !! g).
Proof.
  apply (arithmetic_leaves_operands 0 1 xyz_world _ (GraphFrame.sub 0 1 xyz_world).1
           GraphFrame.sub).
  - right. left. reflexivity.
  - apply surjective_pairing.
Defined.

(** X10: [self += other], [self -= other] and [self *= other] store their
    result in [self] and work on a copy of [other]: whatever the outcome,
    every GraphFrame that existed before the call except [self], [other]
    included, and every Graph object that existed is as it was. *)
Theorem in_place_arithmetic_changes_self_only (self other : nat) (w w' : world)
    (r : result nat) (m : nat → nat → Py nat) :
  m = GraphFrame.__iadd__ ∨ m = GraphFrame.__isub__ ∨ m = GraphFrame.__imul__ →
  m self other w = (r, w') →
  (∀ k, (k < length (gframes w))%nat → k ≠ self → gframes w' !! k = gframes w !! k)
  ∧ (∀ g, (g < length (graphs w))%nat → graphs w' !! g = graphs w !! g).
Proof.
  intros Hm Hrun.
  assert (∃ op, m self other
                = (other_copy ← GraphFrame.copy other;
                   _ ← GraphFrame.unify self other_copy;
                   GraphFrame._operator self other_copy op)) as [op Hop].
  { destruct Hm as [-> | [-> | ->]]; eexists; reflexivity. }
  rewrite Hop in Hrun.
  destruct (touches_in_place (n0 := length (gframes w))
              (S := λ k, k = self ∨ length (gframes w) ≤ k)%nat
              (λ k Hk, or_intror Hk) self other op (or_introl eq_refl)
              w r w' (le_n _) Hrun) as [(_ & Hf & _ & Hg) _].
  split; [| done]. intros k Hk Hne. apply Hf; [done |]. intros [?|?]; [done | lia].
Qed.

Lemma in_place_arithmetic_changes_self_only_witness :
  (∀ k, (k < 2)%nat → k ≠ 0%nat →
        gframes (GraphFrame.__iadd__ 0 1 xyz_world).2 !! k = gframes xyz_world !! k)
  ∧ (∀ g, (g < 2)%nat →
          graphs (GraphFrame.__iadd__ 0 1 xyz_world).2 !! g = graphs xyz_world !! g).
Proof.
  apply (in_place_arithmetic_changes_self_only 0 1 xyz_world _
           (GraphFrame.__iadd__ 0 1 xyz_world).1 GraphFrame.__iadd__).
  - left. reflexivity.
  - apply surjective_pairing.
Defined.

(** ** drop_index_levels *)

(** the cells of an aggregated group *)
Lemma agg_group_by_lookup (f : list cell → result cell) (metrics cols : list string)
    (grp : list Row) (acc cs : gmap string cell) :
  for_each
    (λ col acc,
       if decide (col ∈ metrics) then
         v ← f (column_values col grp); Ok (<[col := v]> acc)
       else
         match head grp ≫= (λ r, r_cells r !! col) with
         | Some v => Ok (<[col := v]> acc)
         | None => Ok acc
         end)
    cols acc = Ok cs →
  ∀ c, cs !! c
       = if decide (c ∈ cols) then
           if decide (c ∈ metrics) then
             match f (column_values c grp) with
             | Ok v => Some v
             | Raise _ => None
             end
           else
             match head grp ≫= (λ r, r_cells r !! c) with
             | Some v => Some v
             | None => acc !! c
             end
         else acc !! c.
Proof.
  revert acc. induction cols as [|col cols IH]; intros acc Hrun c.
  - simpl in Hrun. injection Hrun as <-. by rewrite decide_False by apply not_elem_of_nil.
  - rewrite for_each_cons in Hrun.
    destruct (decide (col ∈ metrics)) as [Hm|Hm].
    + destruct (f (column_values col grp)) as [v|] eqn:Hv; [| discriminate].
      simpl in Hrun. rewrite (IH _ Hrun c).
      destruct (decide (c = col)) as [->|Hne].
      * rewrite (decide_True (P := col ∈ col :: cols)) by (by left).
        rewrite !(decide_True (P := col ∈ metrics)) by done. rewrite Hv.
        destruct (decide (col ∈ cols)); [done |]. by rewrite lookup_insert_eq.
      * rewrite lookup_insert_ne by done.
        destruct (decide (c ∈ cols)) as [Hc|Hc].
        -- by rewrite (decide_True (P := c ∈ col :: cols)) by (by right).
        -- rewrite (decide_False (P := c ∈ col :: cols)); [done |]. by apply not_elem_of_cons.
    + destruct (head grp ≫= (λ r, r_cells r !! col)) as [v|] eqn:Hv.
      * simpl in Hrun. rewrite (IH _ Hrun c).
        destruct (decide (c = col)) as [->|Hne].
        -- rewrite (decide_True (P := col ∈ col :: cols)) by (by left).
           rewrite !(decide_False (P := col ∈ metrics)) by done. rewrite Hv.
           destruct (decide (col ∈ cols)); [done |]. by rewrite lookup_insert_eq.
        -- rewrite lookup_insert_ne by done.
           destruct (decide (c ∈ cols)) as [Hc|Hc].
           ++ by rewrite (decide_True (P := c ∈ col :: cols)) by (by right).
           ++ rewrite (decide_False (P := c ∈ col :: cols)); [done |]. by apply not_elem_of_cons.
      * simpl in Hrun. rewrite (IH _ Hrun c).
        destruct (decide (c = col)) as [->|Hne].
        -- rewrite (decide_True (P := col ∈ col :: cols)) by (by left).
           rewrite !(decide_False (P := col ∈ metrics)) by done. rewrite Hv.
           by destruct (decide (col ∈ cols)).
        -- destruct (decide (c ∈ cols)) as [Hc|Hc].
           ++ by rewrite (decide_True (P := c ∈ col :: cols)) by (by right).
           ++ rewrite (decide_False (P := c ∈ col :: cols)); [done |]. by apply not_elem_of_cons.
Qed.

(** a group is aggregated when [function] returns on its metric columns *)
Lemma agg_group_by_ok (f : list cell → result cell) (metrics cols : list string)
    (grp : list Row) (acc : gmap string cell) :
  (∀ c, c ∈ cols → c ∈ metrics → ∃ v, f (column_values c grp) = Ok v) →
  ∃ cs, for_each
          (λ col acc,
             if decide (col ∈ metrics) then
               v ← f (column_values col grp); Ok (<[col := v]> acc)
             else
               match head grp ≫= (λ r, r_cells r !! col) with
               | Some v => Ok (<[col := v]> acc)
               | None => Ok acc
               end)
          cols acc = Ok cs.
Proof.
  revert acc. induction cols as [|col cols IH]; intros acc Hf; [by eexists |].
  rewrite for_each_cons.
  assert (∀ c, c ∈ cols → c ∈ metrics → ∃ v, f (column_values c grp) = Ok v) as Hf'.
  { intros c Hc. apply Hf. by right. }
  destruct (decide (col ∈ metrics)) as [Hm|Hm].
  - destruct (Hf col) as [v Hv]; [by left | done |]. rewrite Hv. simpl. by apply IH.
  - destruct (head grp ≫= _); simpl; by apply IH.
Qed.

Lemma groupby_node_agg_inv (f : list cell → result cell) (metrics cols : list string)
    (df df' : DataFrame) :
  groupby_node_agg f metrics cols df = Ok df' →
  index_names df' = ["node"] ∧ columns df' = cols
  ∧ Forall2 (λ n r, r_node r = n ∧ r_sec r = []
                    ∧ agg_group_by f metrics cols
                        (List.filter (λ r, bool_decide (r_node r = n)) (rows df))
                      = Ok (r_cells r))
            (remove_dups (df_nodes df)) (rows df').
Proof.
  unfold groupby_node_agg. intros Hrun.
  destruct (mapM _ _) as [rs|] eqn:Hmap; simpl in Hrun; [| discriminate].
  injection Hrun as <-. simpl. split; [done |]. split; [done |].
  apply mapM_result_inv in Hmap. eapply Forall2_impl; [exact Hmap |].
  intros n r Hr. simpl in Hr.
  destruct (agg_group_by _ _ _ _) as [cs|]; simpl in Hr; [| discriminate].
  by injection Hr as <-.
Qed.

(** the steps of a run of [drop_index_levels] that returns *)
Lemma drop_index_levels_inv (f : list cell → result cell) (w w' : world) (self : nat)
    (gf : GraphFrame) :
  gframes w !! self = Some gf →
  GraphFrame.drop_index_levels self f w = (Ok tt, w') →
  ∃ idx df',
    list_remove_first "node" (index_names (dataframe gf)) = Some idx
    ∧ "node" ∉ columns (dataframe gf)
    ∧ groupby_node_agg f (exc_metrics gf ++ inc_metrics gf) (columns (dataframe gf))
        (mkDF idx ("node" :: columns (dataframe gf)) (rows (dataframe gf))) = Ok df'
    ∧ w' = mkWorld (nodes w) (graphs w) (<[self := set_dataframe df' gf]> (gframes w)).
Proof.
  intros Hself. unfold GraphFrame.drop_index_levels.
  rewrite (py_bind_ok _ _ _ _ _ (get_gf_ok _ _ _ Hself)).
  destruct (list_remove_first _ _) as [idx|]; [| discriminate].
  destruct (decide ("node" ∈ columns (dataframe gf))) as [Hin|Hnin].
  { intros Hrun. apply py_bind_ok_inv in Hrun as ([] & w1 & Hup & _).
    unfold update_dataframe in Hup.
    rewrite (py_bind_ok _ _ _ _ _ (get_gf_ok _ _ _ Hself)) in Hup.
    apply py_bind_ok_inv in Hup as (df1 & w2 & Hl & _).
    apply lift_ok_inv in Hl as [Hl _]. unfold reset_index_node in Hl.
    by rewrite decide_True in Hl. }
  assert (reset_index_node idx (dataframe gf)
          = Ok (mkDF idx ("node" :: columns (dataframe gf)) (rows (dataframe gf))))
    as Hreset by (unfold reset_index_node; by rewrite decide_False).
  rewrite (py_bind_ok _ _ _ _ _ (update_dataframe_run w self gf _ _ Hself Hreset)).
  set (gf1 := set_dataframe _ gf).
  assert (self < length (gframes w))%nat as Hlt by (by eapply lookup_lt_Some).
  erewrite (py_bind_ok (get_gf _) _ _ _ gf1);
    [| apply get_gf_ok; simpl; by apply list_lookup_insert_eq].
  intros Hrun. apply py_bind_ok_inv in Hrun as (df' & w1 & Hagg & Hput).
  apply lift_ok_inv in Hagg as [Hagg ->]. injection Hput as <-.
  exists idx, df'. split; [done |]. split; [done |]. split; [exact Hagg |].
  simpl. by rewrite list_insert_insert_eq.
Qed.

(** X11: when [drop_index_levels] returns, the table of the receiver is
    indexed by the node alone and has exactly one row for each node of the
    old table, with no other index level; its columns are the old columns,
    and nothing else has changed (the graph and the metric lists of
    the receiver, the nodes, the graphs, the other GraphFrames). *)
Theorem drop_index_levels_one_row_per_node (f : list cell → result cell)
    (w w' : world) (self : nat) (gf : GraphFrame) :
  gframes w !! self = Some gf →
  GraphFrame.drop_index_levels self f w = (Ok tt, w') →
  nodes w' = nodes w ∧ graphs w' = graphs w
  ∧ (∀ k, k ≠ self → gframes w' !! k = gframes w !! k)
  ∧ ∃ gf', gframes w' !! self = Some gf'
           ∧ graph gf' = graph gf ∧ exc_metrics gf' = exc_metrics gf
           ∧ inc_metrics gf' = inc_metrics gf
           ∧ index_names (dataframe gf') = ["node"]
           ∧ columns (dataframe gf') = columns (dataframe gf)
           ∧ row_key <$> rows (dataframe gf')
             ≡ₚ (λ n, (n, [])) <$> remove_dups (df_nodes (dataframe gf)).
Proof.
  intros Hself Hrun.
  destruct (drop_index_levels_inv f w w' self gf Hself Hrun)
    as (idx & df' & Hidx & _ & Hagg & ->).
  apply groupby_node_agg_inv in Hagg as (Hi & Hc & HF). simpl in *.
  assert (self < length (gframes w))%nat as Hlt by (by eapply lookup_lt_Some).
  split; [done |]. split; [done |].
  split; [intros k Hk; by apply list_lookup_insert_ne |].
  eexists. split; [by apply list_lookup_insert_eq |]. simpl.
  repeat (split; [done |]).
  change (df_nodes (mkDF idx ("node" :: columns (dataframe gf)) (rows (dataframe gf))))
    with (df_nodes (dataframe gf)) in HF.
  induction HF as [|n r ns rs (Hn & Hs & _) _ IH]; [done |].
  rewrite !fmap_cons, IH. unfold row_key at 1. by rewrite Hn, Hs.
Qed.

Lemma drop_index_levels_one_row_per_node_witness :
  ∃ gf', gframes (GraphFrame.drop_index_levels 0 np_sum ranks_world).2 !! 0%nat = Some gf'
         ∧ index_names (dataframe gf') = ["node"]
         ∧ row_key <$> rows (dataframe gf') ≡ₚ [(0%nat, []); (1%nat, [])].
Proof.
  destruct (drop_index_levels_one_row_per_node np_sum ranks_world
              (GraphFrame.drop_index_levels 0 np_sum ranks_world).2 0
              (mkGF 0 (mkDF ["node"; "rank"] ["time"]
                         [rank_row 0 0 1; rank_row 0 1 10; rank_row 1 0 100;
                          rank_row 1 1 1000]) ["time"] []))
    as (_ & _ & _ & gf' & H1 & _ & _ & _ & H5 & _ & H7).
  - reflexivity.
  - vm_compute. reflexivity.
  - exists gf'. split; [exact H1 |]. split; [exact H5 | exact H7].
Defined.

(** X12: [drop_index_levels] takes the node out of the index of the table
    before it aggregates ([reset_index(level="node", inplace=True)]), and
    does not put it back: on a table without a column named "node", when
    the aggregation raises, the call raises the same exception and the
    receiver is left with a table whose index has lost its node level and
    whose columns have got "node" in front of the old columns; the rows are
    as before. *)
Theorem drop_index_levels_failure_resets_index (f : list cell → result cell)
    (w : world) (self : nat) (gf : GraphFrame) (idx : list string) (e : exn) :
  gframes w !! self = Some gf →
  list_remove_first "node" (index_names (dataframe gf)) = Some idx →
  "node" ∉ columns (dataframe gf) →
  groupby_node_agg f (exc_metrics gf ++ inc_metrics gf) (columns (dataframe gf))
    (mkDF idx ("node" :: columns (dataframe gf)) (rows (dataframe gf))) = Raise e →
  GraphFrame.drop_index_levels self f w
  = (Raise e,
     mkWorld (nodes w) (graphs w)
       (<[self := set_dataframe
                    (mkDF idx ("node" :: columns (dataframe gf)) (rows (dataframe gf)))
                    gf]>
          (gframes w))).
Proof.
  intros Hself Hidx Hnin Hagg. unfold GraphFrame.drop_index_levels.
  rewrite (py_bind_ok _ _ _ _ _ (get_gf_ok _ _ _ Hself)). rewrite Hidx.
  assert (reset_index_node idx (dataframe gf)
          = Ok (mkDF idx ("node" :: columns (dataframe gf)) (rows (dataframe gf))))
    as Hreset by (unfold reset_index_node; by rewrite decide_False).
  rewrite (py_bind_ok _ _ _ _ _ (update_dataframe_run w self gf _ _ Hself Hreset)).
  assert (self < length (gframes w))%nat as Hlt by (by eapply lookup_lt_Some).
  erewrite (py_bind_ok (get_gf _));
    [| apply get_gf_ok; simpl; by apply list_lookup_insert_eq].
  rewrite py_bind_run. unfold lift. simpl. by rewrite Hagg.
Qed.

Lemma drop_index_levels_failure_resets_index_witness :
  ∃ gf', gframes (GraphFrame.drop_index_levels 0 (λ _, Raise TypeError) ranks_world).2
           !! 0%nat = Some gf'
         ∧ index_names (dataframe gf') = ["rank"]
         ∧ columns (dataframe gf') = ["node"; "time"]
         ∧ (GraphFrame.drop_index_levels 0 (λ _, Raise TypeError) ranks_world).1
           = Raise TypeError.
Proof.
  rewrite (drop_index_levels_failure_resets_index (λ _, Raise TypeError) ranks_world 0
             (mkGF 0 (mkDF ["node"; "rank"] ["time"]
                        [rank_row 0 0 1; rank_row 0 1 10; rank_row 1 0 100;
                         rank_row 1 1 1000]) ["time"] [])
             ["rank"] TypeError eq_refl eq_refl
             ltac:(by intros ?%list_elem_of_singleton) eq_refl).
  eexists. split; [reflexivity |]. repeat split; reflexivity.
Defined.

Lemma agg_group_by_metrics_ok (f : list cell → result cell) (metrics cols : list string)
    (grp : list Row) (acc cs : gmap string cell) :
  for_each
    (λ col acc,
       if decide (col ∈ metrics) then
         v ← f (column_values col grp); Ok (<[col := v]> acc)
       else
         match head grp ≫= (λ r, r_cells r !! col) with
         | Some v => Ok (<[col := v]> acc)
         | None => Ok acc
         end)
    cols acc = Ok cs →
  ∀ c, c ∈ cols → c ∈ metrics → ∃ v, f (column_values c grp) = Ok v.
Proof.
  revert acc. induction cols as [|col cols IH]; intros acc Hrun c Hc Hm.
  - by apply elem_of_nil in Hc.
  - rewrite for_each_cons in Hrun.
    destruct (decide (col ∈ metrics)) as [Hm'|Hm'].
    + destruct (f (column_values col grp)) as [v|] eqn:Hv; [| discriminate].
      simpl in Hrun. apply elem_of_cons in Hc as [->|Hc]; [eauto |].
      by apply (IH _ Hrun).
    + apply elem_of_cons in Hc as [->|Hc]; [done |].
      destruct (head grp ≫= (λ r, r_cells r !! col)); simpl in Hrun;
        by apply (IH _ Hrun).
Qed.

(** a row made by the aggregation of a group is its own aggregate, for a
    function that gives back the value of a one-element group *)
Lemma agg_group_by_single (f : list cell → result cell) (metrics cols : list string)
    (grp : list Row) (r : Row) :
  (∀ v, f [v] = Ok v) →
  agg_group_by f metrics cols grp = Ok (r_cells r) →
  agg_group_by f metrics cols [r] = Ok (r_cells r).
Proof.
  intros Hf Hrun. unfold agg_group_by in *.
  pose proof (agg_group_by_lookup _ _ _ _ _ _ Hrun) as Hcs.
  pose proof (agg_group_by_metrics_ok _ _ _ _ _ _ Hrun) as Hok.
  assert (∀ c, c ∈ cols → c ∈ metrics →
               ∃ v, r_cells r !! c = Some v ∧ column_values c [r] = [v]) as Hval.
  { intros c Hc Hm. destruct (Hok c Hc Hm) as [v Hv]. exists v.
    assert (r_cells r !! c = Some v) as Hlk.
    { rewrite (Hcs c), decide_True, decide_True, Hv by done. done. }
    split; [done |]. unfold column_values. simpl. by rewrite Hlk. }
  destruct (agg_group_by_ok f metrics cols [r] ∅) as [cs' Hrun'].
  { intros c Hc Hm. destruct (Hval c Hc Hm) as (v & _ & ->). eauto. }
  rewrite Hrun'. f_equal. apply map_eq. intros c.
  rewrite (agg_group_by_lookup _ _ _ _ _ _ Hrun' c), (Hcs c).
  destruct (decide (c ∈ cols)) as [Hc|Hc]; [| done].
  destruct (decide (c ∈ metrics)) as [Hm|Hm].
  - destruct (Hval c Hc Hm) as (v & Hlk & ->). rewrite Hf.
    destruct (Hok c Hc Hm) as [v' Hv']. rewrite Hv'.
    rewrite (Hcs c), decide_True, decide_True, Hv' in Hlk by done. done.
  - simpl. rewrite (Hcs c), decide_True, decide_False by done.
    destruct (head grp ≫= (λ r0, r_cells r0 !! c)) as [v|]; [done |].
    by rewrite lookup_empty.
Qed.

Lemma remove_dups_NoDup {A} `{EqDecision A} (l : list A) :
  NoDup l → remove_dups l = l.
Proof.
  induction 1 as [|x l Hx _ IH]; [done |].
  simpl. destruct (decide_rel elem_of x l); [done |]. by rewrite IH.
Qed.

Lemma filter_node_single (rs : list Row) (r : Row) :
  NoDup (r_node <$> rs) → r ∈ rs →
  List.filter (λ r0, bool_decide (r_node r0 = r_node r)) rs = [r].
Proof.
  induction rs as [|r0 rs IH]; intros Hnd Hr; [by apply elem_of_nil in Hr |].
  rewrite fmap_cons in Hnd. apply NoDup_cons in Hnd as [Hr0 Hnd].
  assert (∀ r1, r1 ∈ rs → r_node r1 ≠ r_node r0) as Hne.
  { intros r1 Hr1 Heq. apply Hr0. rewrite <- Heq. apply list_elem_of_fmap. eauto. }
  simpl. apply elem_of_cons in Hr as [->|Hr].
  - rewrite bool_decide_eq_true_2 by done. f_equal.
    clear IH Hnd Hr0. induction rs as [|r1 rs IH]; [done |].
    simpl. rewrite bool_decide_eq_false_2 by (apply Hne; by left).
    apply IH. intros r2 Hr2. apply Hne. by right.
  - rewrite bool_decide_eq_false_2 by (intros Heq; by apply (Hne r Hr)).
    by apply IH.
Qed.

Lemma mapM_fmap_id {A B} (g : A → result B) (h : B → A) (l : list B) :
  (∀ y, y ∈ l → g (h y) = Ok y) → mapM g (h <$> l) = Ok l.
Proof.
  induction l as [|y l IH]; intros Hg; [done |].
  rewrite fmap_cons. simpl. rewrite (Hg y) by (by left). simpl.
  rewrite IH by (intros y' Hy'; apply Hg; by right). done.
Qed.

(** the table made by [groupby_node_agg] is its own aggregate *)
Lemma groupby_node_agg_again (f : list cell → result cell) (metrics cols : list string)
    (df df' : DataFrame) :
  (∀ v, f [v] = Ok v) →
  groupby_node_agg f metrics cols df = Ok df' →
  groupby_node_agg f metrics (columns df')
    (mkDF [] ("node" :: columns df') (rows df')) = Ok df'.
Proof.
  intros Hf Hagg. apply groupby_node_agg_inv in Hagg as (Hi & Hc & HF).
  assert (r_node <$> rows df' = remove_dups (df_nodes df)) as Hns.
  { clear -HF. induction HF as [|n r ns rs (Hn & _) _ IH]; [done |].
    by rewrite fmap_cons, IH, Hn. }
  assert (NoDup (r_node <$> rows df')) as Hnd
    by (rewrite Hns; apply NoDup_remove_dups).
  unfold groupby_node_agg, df_nodes. simpl.
  rewrite (remove_dups_NoDup _ Hnd).
  rewrite (mapM_fmap_id _ r_node (rows df')).
  - simpl. destruct df' as [i c rs]. simpl in *. by rewrite Hi.
  - intros r Hr. rewrite (filter_node_single _ _ Hnd Hr).
    destruct (Forall2_elem_r _ _ _ _ HF Hr) as (n & _ & Hn & Hs & Hcs).
    rewrite Hc. rewrite (agg_group_by_single _ _ _ _ _ Hf Hcs).
    simpl. destruct r as [n' s' cs']. simpl in *. by rewrite Hs.
Qed.

(** X13: dropping the index levels a second time changes nothing, for an
    aggregation function that gives back the value of a one-element group
    (as [np.sum], [np.mean], [np.max] do): after a call that returned, a
    second call returns and leaves the nodes, the graphs and every
    GraphFrame, the receiver included, as the first call left them. *)
Theorem drop_index_levels_twice (f : list cell → result cell) (w w1 : world)
    (self : nat) (gf : GraphFrame) :
  gframes w !! self = Some gf →
  (∀ v, f [v] = Ok v) →
  GraphFrame.drop_index_levels self f w = (Ok tt, w1) →
  GraphFrame.drop_index_levels self f w1 = (Ok tt, w1).
Proof.
  intros Hself Hf Hrun.
  destruct (drop_index_levels_inv f w w1 self gf Hself Hrun)
    as (idx & df' & Hidx & Hnin & Hagg & ->).
  pose proof (groupby_node_agg_again _ _ _ _ _ Hf Hagg) as Hagain.
  apply groupby_node_agg_inv in Hagg as (Hi & Hc & _).
  assert (self < length (gframes w))%nat as Hlt by (by eapply lookup_lt_Some).
  set (w1 := mkWorld (nodes w) (graphs w) (<[self := set_dataframe df' gf]> (gframes w))).
  assert (gframes w1 !! self = Some (set_dataframe df' gf)) as Hself1
    by (by apply list_lookup_insert_eq).
  assert (reset_index_node [] (dataframe (set_dataframe df' gf))
          = Ok (mkDF [] ("node" :: columns df') (rows df'))) as Hreset.
  { unfold reset_index_node. simpl. rewrite Hc. by rewrite decide_False. }
  unfold GraphFrame.drop_index_levels.
  rewrite (py_bind_ok _ _ _ _ _ (get_gf_ok _ _ _ Hself1)).
  change (dataframe (set_dataframe df' gf)) with df' in *. rewrite Hi.
  change (list_remove_first "node" ["node"]) with (Some ([] : list string)).
  cbv beta iota zeta.
  rewrite (py_bind_ok _ _ _ _ _
             (update_dataframe_run w1 self (set_dataframe df' gf) _ _ Hself1 Hreset)).
  erewrite (py_bind_ok (get_gf _));
    [| apply get_gf_ok; simpl; apply list_lookup_insert_eq; by rewrite length_insert].
  rewrite py_bind_run. unfold lift. simpl. rewrite Hagain.
  unfold put_gf, w1. simpl. by rewrite !list_insert_insert_eq.
Qed.

Lemma drop_index_levels_twice_witness :
  GraphFrame.drop_index_levels 0 np_sum
    (GraphFrame.drop_index_levels 0 np_sum ranks_world).2
  = (Ok tt, (GraphFrame.drop_index_levels 0 np_sum ranks_world).2).
Proof.
  apply (drop_index_levels_twice np_sum ranks_world
           (GraphFrame.drop_index_levels 0 np_sum ranks_world).2 0
           (mkGF 0 (mkDF ["node"; "rank"] ["time"]
                      [rank_row 0 0 1; rank_row 0 1 10; rank_row 1 0 100;
                       rank_row 1 1 1000]) ["time"] [])).
  - reflexivity.
  - intros v. reflexivity.
  - vm_compute. reflexivity.
Defined.

(** ** update_inclusive_columns twice *)

(** a loop of table updates is a fold over the table *)
Lemma py_for_update_fold {A} (l : list A) (F : A → DataFrame → result DataFrame)
    (w : world) (self : nat) (gf : GraphFrame) (df' : DataFrame) :
  gframes w !! self = Some gf →
  for_each F l (dataframe gf) = Ok df' →
  py_for l (λ i, update_dataframe self (F i)) w
  = (Ok tt, mkWorld (nodes w) (graphs w) (<[self := set_dataframe df' gf]> (gframes w))).
Proof.
  revert w gf. induction l as [|i l IH]; intros w gf Hself Hrun.
  - simpl in Hrun. injection Hrun as <-. simpl.
    rewrite list_insert_id; [by destruct w | by destruct gf].
  - rewrite for_each_cons in Hrun.
    destruct (F i (dataframe gf)) as [df1|] eqn:Hdf; [| discriminate].
    simpl in Hrun. simpl py_for.
    rewrite (py_bind_ok _ _ _ _ _ (update_dataframe_run w self gf (F i) _ Hself Hdf)).
    erewrite (IH _ (set_dataframe df1 gf));
      [| simpl; apply list_lookup_insert_eq; by eapply lookup_lt_Some | exact Hrun].
    simpl. by rewrite list_insert_insert_eq.
Qed.

Lemma py_for_update_fold_inv {A} (l : list A) (F : A → DataFrame → result DataFrame)
    (w w' : world) (self : nat) (gf : GraphFrame) :
  gframes w !! self = Some gf →
  py_for l (λ i, update_dataframe self (F i)) w = (Ok tt, w') →
  ∃ df', for_each F l (dataframe gf) = Ok df'
         ∧ w' = mkWorld (nodes w) (graphs w) (<[self := set_dataframe df' gf]> (gframes w)).
Proof.
  revert w gf. induction l as [|i l IH]; intros w gf Hself Hrun.
  - simpl in Hrun. injection Hrun as <-. exists (dataframe gf). split; [done |].
    rewrite list_insert_id; [by destruct w | by destruct gf].
  - simpl py_for in Hrun. apply py_bind_ok_inv in Hrun as ([] & w1 & Hup & Hrun).
    unfold update_dataframe in Hup.
    rewrite (py_bind_ok _ _ _ _ _ (get_gf_ok _ _ _ Hself)) in Hup.
    rewrite for_each_cons.
    destruct (F i (dataframe gf)) as [df1|] eqn:Hdf.
    2: { apply py_bind_ok_inv in Hup as (? & ? & Hl & _). unfold lift in Hl. discriminate. }
    rewrite (py_bind_ok _ _ _ _ df1 eq_refl) in Hup. injection Hup as <-.
    assert (gframes (mkWorld (nodes w) (graphs w)
                       (<[self := set_dataframe df1 gf]> (gframes w))) !! self
            = Some (set_dataframe df1 gf)) as Hself1.
    { simpl. apply list_lookup_insert_eq. by eapply lookup_lt_Some. }
    destruct (IH _ _ Hself1 Hrun) as (df' & Hdf' & ->).
    exists df'. split; [exact Hdf' |]. simpl. by rewrite list_insert_insert_eq.
Qed.

(** [df[out] = df[col]] for the pairs of [l]: the columns only grow and
    hold every [out] afterwards *)
Lemma copy_columns_columns (l : list (string * string)) (df df' : DataFrame) :
  for_each (λ '(col, out), df_copy_column out col) l df = Ok df' →
  index_names df' = index_names df
  ∧ (∀ c, c ∈ columns df → c ∈ columns df')
  ∧ (∀ p, p ∈ l → p.1 ∈ columns df' ∧ p.2 ∈ columns df')
  ∧ row_key <$> rows df' = row_key <$> rows df.
Proof.
  revert df. induction l as [|[col out] l IH]; intros df Hrun.
  - simpl in Hrun. injection Hrun as <-. repeat (split; [done |]). split; [| done].
    intros p Hp. by apply elem_of_nil in Hp.
  - rewrite for_each_cons in Hrun.
    destruct (df_copy_column out col df) as [df1|] eqn:Hdf; [| discriminate].
    simpl in Hrun. destruct (IH _ Hrun) as (Hi & Hc & Hl & Hk).
    unfold df_copy_column in Hdf. case_decide as Hcol; [| discriminate].
    injection Hdf as <-. simpl in *.
    assert (∀ c, c ∈ columns df →
                 c ∈ (if decide (out ∈ columns df) then columns df else columns df ++ [out]))
      as Hsub.
    { intros c Hin. case_decide; [done |]. apply elem_of_app. by left. }
    split; [done |]. split; [by auto |]. split.
    + intros p Hp. apply elem_of_cons in Hp as [->|Hp]; [| by apply Hl].
      simpl. split; [by auto |]. apply Hc. case_decide; [done |].
      apply elem_of_app. right. by left.
    + rewrite Hk, <- list_fmap_compose. done.
Qed.

Lemma copy_cell_lookup (out col c : string) (cs : gmap string cell) :
  match cs !! col with
  | Some v => <[out := v]> cs
  | None => delete out cs
  end !! c = if decide (c = out) then cs !! col else cs !! c.
Proof.
  destruct (decide (c = out)) as [->|Hne].
  - destruct (cs !! col) eqn:Hcol; [by rewrite lookup_insert_eq | by rewrite lookup_delete_eq].
  - destruct (cs !! col); [by rewrite lookup_insert_ne | by rewrite lookup_delete_ne].
Qed.

(** copying the columns again gives the same cells: two tables that agree
    outside the columns [outs] (and on those of [W]) agree on the columns
    written as well, when no source column is one of [outs] *)
Lemma copy_columns_absorb (outs : list string) (l : list (string * string)) :
  (∀ p, p ∈ l → p.1 ∉ outs) →
  ∀ (W : list string) (dfa dfb dfa' : DataFrame),
  for_each (λ '(col, out), df_copy_column out col) l dfa = Ok dfa' →
  (∀ c, c ∈ columns dfa → c ∈ columns dfb) →
  (∀ p, p ∈ l → p.2 ∈ columns dfb) →
  Forall2 (λ ra rb, row_key rb = row_key ra
                    ∧ ∀ c, c ∉ outs ∨ c ∈ W → r_cells rb !! c = r_cells ra !! c)
          (rows dfa) (rows dfb) →
  ∃ dfb', for_each (λ '(col, out), df_copy_column out col) l dfb = Ok dfb'
          ∧ index_names dfb' = index_names dfb
          ∧ columns dfb' = columns dfb
          ∧ Forall2 (λ ra rb, row_key rb = row_key ra
                              ∧ ∀ c, c ∉ outs ∨ c ∈ W ∨ c ∈ l.*2 →
                                     r_cells rb !! c = r_cells ra !! c)
                    (rows dfa') (rows dfb').
Proof.
  induction l as [|[col out] l IH]; intros Hsrc W dfa dfb dfa' Hrun Hcols Houts HF.
  - simpl in Hrun. injection Hrun as <-. exists dfb. repeat (split; [done |]).
    eapply Forall2_impl; [exact HF |]. intros ra rb [Hk Hc]. split; [done |].
    intros c [Hc'|[Hc'|Hc']]; [by auto | by auto | by apply elem_of_nil in Hc'].
  - rewrite for_each_cons in Hrun.
    destruct (df_copy_column out col dfa) as [dfa1|] eqn:Hdfa; [| discriminate].
    simpl in Hrun. unfold df_copy_column in Hdfa.
    case_decide as Hcol; [| discriminate]. injection Hdfa as <-.
    assert (col ∉ outs) as Hcol_out by (apply (Hsrc (col, out)); by left).
    assert (out ∈ columns dfb) as Hout by (apply (Houts (col, out)); by left).
    destruct (IH (λ p Hp, Hsrc p (list_elem_of_further _ _ _ Hp)) (out :: W) _
                (mkDF (index_names dfb) (columns dfb)
                   ((λ r, set_row_cells
                            (match r_cells r !! col with
                             | Some c => <[out := c]> (r_cells r)
                             | None => delete out (r_cells r)
                             end) r) <$> rows dfb)) _ Hrun)
      as (dfb' & Hrunb & Hi & Hc & HF').
    + simpl. intros c Hc. case_decide; [by auto |].
      apply elem_of_app in Hc as [Hc|Hc]; [by auto |].
      apply list_elem_of_singleton in Hc as ->. done.
    + simpl. intros p Hp. apply Houts. by right.
    + simpl. apply Forall2_fmap. eapply Forall2_impl; [exact HF |].
      intros ra rb [Hk Hag]. split; [done |]. intros c Hc. simpl.
      rewrite !copy_cell_lookup. destruct (decide (c = out)) as [->|Hne].
      * apply Hag. by left.
      * apply Hag. destruct Hc as [Hc|Hc]; [by left |].
        apply elem_of_cons in Hc as [->|Hc]; [done | by right].
    + exists dfb'. rewrite for_each_cons.
      assert (df_copy_column out col dfb
              = Ok (mkDF (index_names dfb) (columns dfb)
                      ((λ r, set_row_cells
                               (match r_cells r !! col with
                                | Some c => <[out := c]> (r_cells r)
                                | None => delete out (r_cells r)
                                end) r) <$> rows dfb))) as ->.
      { unfold df_copy_column. rewrite (decide_True (P := col ∈ columns dfb)) by auto.
        by rewrite (decide_True (P := out ∈ columns dfb)) by done. }
      split; [exact Hrunb |]. split; [done |]. split; [done |].
      eapply Forall2_impl; [exact HF' |]. intros ra rb [Hk Hag]. split; [done |].
      intros c Hin. apply Hag. rewrite fmap_cons in Hin. simpl in Hin.
      destruct Hin as [Hin|[Hin|Hin]]; [by left | right; left; by right |].
      apply elem_of_cons in Hin as [->|Hin]; [right; left; by left | by auto].
Qed.

Lemma Forall2_compose {A B C} (P : A → B → Prop) (Q : B → C → Prop)
    (R : A → C → Prop) (l1 : list A) (l2 : list B) (l3 : list C) :
  (∀ x y z, P x y → Q y z → R x z) →
  Forall2 P l1 l2 → Forall2 Q l2 l3 → Forall2 R l1 l3.
Proof.
  intros HR HP. revert l3. induction HP as [|x y l1 l2 Hxy _ IH]; intros l3 HQ.
  - inversion HQ. constructor.
  - inversion HQ as [|? z ? l3' Hyz HQ']; subst. constructor; [by eapply HR | by apply IH].
Qed.

Lemma Forall2_row_ext (rs rs' : list Row) :
  Forall2 (λ ra rb, row_key rb = row_key ra
                    ∧ ∀ c, r_cells rb !! c = r_cells ra !! c) rs rs' →
  rs' = rs.
Proof.
  induction 1 as [|ra rb rs rs' [Hk Hc] _ IH]; [done |].
  f_equal; [by apply row_ext | exact IH].
Qed.

Lemma py_for_pairs {A B} (l : list (A * B)) (F : A → B → DataFrame → result DataFrame)
    (self : nat) :
  py_for l (λ '(a, b), update_dataframe self (F a b))
  = py_for l (λ p, update_dataframe self ((λ '(a, b), F a b) p)).
Proof.
  induction l as [|[a b] l IH]; [done |]. simpl. by rewrite IH.
Qed.

Lemma world_eq (w w' : world) :
  nodes w' = nodes w → graphs w' = graphs w → gframes w' = gframes w → w' = w.
Proof. destruct w, w'. simpl. by intros -> -> ->. Qed.

(** after a change of the output columns alone, [_init_sum_columns] makes
    the table it made before: it writes every output column again, from
    source columns that are no output columns *)
Lemma init_sum_columns_again (self : nat) (cols outs r : list string)
    (wa wi wb : world) (gfa : GraphFrame) :
  (∀ c, c ∈ cols → c ∉ outs) →
  gframes wa !! self = Some gfa →
  GraphFrame._init_sum_columns self cols (Some outs) wa = (Ok r, wi) →
  table_only (cells_off outs) self wi wb →
  GraphFrame._init_sum_columns self cols (Some outs) wb = (Ok r, wi).
Proof.
  intros Hdisj Hself Hinit Hloop.
  pose proof (keeps_writes_init_sum_columns self cols (Some outs) _ _ _ Hinit)
    as (_ & _ & _ & _ & Hw).
  destruct (Hw gfa Hself) as (gfi & Hselfi & Hgi & Hei & Hii & Hxi & _ & HFi).
  simpl in HFi.
  unfold GraphFrame._init_sum_columns in Hinit |- *.
  apply py_bind_ok_inv in Hinit as (o & w1 & Hfor & Hret).
  apply py_bind_ok_inv in Hfor as ([] & w2 & Hfor & Ho). injection Ho as <- <-.
  case_decide as Hlen; [discriminate |]. injection Hret as <- <-.
  assert (length cols = length outs) as Hlen'
    by (destruct (decide (length cols = length outs)); [done | by destruct Hlen]).
  rewrite py_for_pairs in Hfor |- *.
  apply (py_for_update_fold_inv _ _ _ _ _ _ Hself) in Hfor as (dfi & Hdfi & ->).
  simpl in Hselfi. rewrite list_lookup_insert_eq in Hselfi by (by eapply lookup_lt_Some).
  injection Hselfi as <-.
  destruct Hloop as (Hn & Hg & Hl & Hoth & Hb). simpl in Hn, Hg, Hl, Hoth, Hb.
  assert (self < length (gframes wa))%nat as Hlt by (by eapply lookup_lt_Some).
  destruct (Hb (set_dataframe dfi gfa)) as (gfb & Hselfb & Hgb & Heb & Hib & Hxb & Hcb & HFb).
  { by apply list_lookup_insert_eq. }
  simpl in Hgb, Heb, Hib, Hxb, Hcb, HFb.
  destruct (copy_columns_columns _ _ _ Hdfi) as (_ & Hsub & Hin & _).
  destruct (copy_columns_absorb outs (zip cols outs)) with (W := @nil string)
    (dfa := dataframe gfa) (dfb := dataframe gfb) (dfa' := dfi)
    as (dfb' & Hrunb & Hi' & Hc' & HF').
  - intros [col out] Hp. apply Hdisj. by eapply elem_of_zip_l.
  - exact Hdfi.
  - intros c Hc. rewrite Hcb. by apply Hsub.
  - intros p Hp. rewrite Hcb. by apply Hin.
  - eapply Forall2_compose; [| exact HFi | exact HFb].
    intros x y z [Hk1 Hc1] (Hk2 & Hc2). split; [congruence |].
    intros c [Hc|Hc]; [| by apply elem_of_nil in Hc]. by rewrite Hc2, Hc1.
  - assert (dfb' = dfi) as ->.
    { destruct dfb' as [i c rs], dfi as [i' c' rs']. simpl in *. f_equal; [congruence.. |].
      apply Forall2_row_ext. eapply Forall2_impl; [exact HF' |].
      intros ra rb [Hk Hag]. split; [done |]. intros c0. apply Hag.
      rewrite snd_zip by lia. destruct (decide (c0 ∈ outs)); auto. }
    rewrite (py_bind_ok _ _ _ _ outs
               (py_bind_ok _ _ _ _ tt (py_for_update_fold _ _ _ _ _ _ Hselfb Hrunb))).
    rewrite decide_False by (intros Hne; by apply Hne). cbv [mret Py_ret]. f_equal.
    apply world_eq; simpl; [done | done |].
    apply list_eq. intros k. destruct (decide (k = self)) as [->|Hk].
    + assert (self < length (gframes wb))%nat by (by eapply lookup_lt_Some).
      rewrite !list_lookup_insert_eq by done. f_equal.
      unfold set_dataframe. simpl in Hgb, Heb, Hib. by rewrite Hgb, Heb, Hib.
    + rewrite (list_lookup_insert_ne (gframes wb)) by done. by apply Hoth.
Qed.

(** X14: updating the inclusive columns a second time changes nothing, when
    no exclusive metric bears the name ["<m> (inc)"] of the inclusive column
    of an exclusive metric [m]: after a call that returned, a second call
    returns and leaves the nodes, the graphs and every GraphFrame, the
    receiver included, as the first call left them. *)
Theorem update_inclusive_columns_twice (w w1 : world) (self : nat) (gf : GraphFrame) :
  gframes w !! self = Some gf →
  (∀ m, m ∈ exc_metrics gf → m +:+ " (inc)" ∉ exc_metrics gf) →
  GraphFrame.update_inclusive_columns self w = (Ok tt, w1) →
  GraphFrame.update_inclusive_columns self w1 = (Ok tt, w1).
Proof.
  intros Hself Hnames Hrun.
  pose proof (keeps_writes_update_inclusive_columns self w w1 _ gf Hself Hrun)
    as (Hn1 & Hg1 & Hl1 & _ & Hgf1).
  assert (self < length (gframes w))%nat as Hlt by (by eapply lookup_lt_Some).
  set (exc := exc_metrics gf) in *.
  set (inc := (λ s, s +:+ " (inc)") <$> exc) in *.
  set (gf0 := set_inc_metrics inc gf) in *.
  set (w0 := mkWorld (nodes w) (graphs w) (<[self := gf0]> (gframes w))) in *.
  assert (gframes w0 !! self = Some gf0) as Hself0 by (by apply list_lookup_insert_eq).
  destruct (Hgf1 gf0 Hself0) as (gf1 & Hself1 & Hgr1 & Hexc1 & Hinc1 & _).
  assert (∀ c, c ∈ exc → c ∉ inc) as Hdisj.
  { intros c Hc Hin. apply list_elem_of_fmap in Hin as (m & -> & Hm).
    by apply (Hnames m Hm). }
  (* the first call *)
  unfold GraphFrame.update_inclusive_columns in Hrun.
  rewrite (py_bind_ok _ _ _ _ _ (get_gf_ok _ _ _ Hself)) in Hrun.
  rewrite (py_bind_ok (put_gf self _) _ _ _ tt eq_refl) in Hrun.
  fold exc inc gf0 w0 in Hrun.
  unfold GraphFrame.subgraph_sum in Hrun.
  rewrite (py_bind_ok _ _ _ _ _ (get_gf_ok _ _ _ Hself0)) in Hrun.
  apply py_bind_ok_inv in Hrun as (g & w' & Hg & Hrun).
  apply get_graph_ok_inv in Hg as [Hg ->].
  rewrite (py_bind_ok get_nodes _ _ _ (nodes w0) eq_refl) in Hrun.
  apply py_bind_ok_inv in Hrun as (tree & w' & Htree & Hrun).
  apply lift_ok_inv in Htree as [Htree ->].
  assert (∃ wi, GraphFrame._init_sum_columns self exc (Some inc) w0 = (Ok inc, wi)
                ∧ (if (tree : bool) then GraphFrame.subtree_sum_loop self inc np_sum
                   else GraphFrame.subgraph_sum_loop self exc inc np_sum) wi
                  = (Ok tt, w1)
                ∧ table_only (cells_off inc) self wi w1) as (wi & Hinit & Hloop & Hcells).
  { destruct tree.
    - apply py_bind_ok_inv in Hrun as (o & wi & Hinit & Hloop).
      pose proof (init_sum_columns_result _ _ _ _ _ _ Hinit) as ->. simpl in *.
      exists wi. split; [done |]. split; [done |].
      exact (keeps_cells_subtree_sum_loop self inc np_sum _ _ _ Hloop).
    - apply py_bind_ok_inv in Hrun as (o & wi & Hinit & Hloop).
      pose proof (init_sum_columns_result _ _ _ _ _ _ Hinit) as ->. simpl in *.
      exists wi. split; [done |]. split; [done |].
      exact (keeps_cells_subgraph_sum_loop self exc inc np_sum _ _ _ Hloop). }
  pose proof (init_sum_columns_again self exc inc inc w0 wi w1 gf0 Hdisj Hself0 Hinit Hcells)
    as Hinit1.
  (* the second call *)
  unfold GraphFrame.update_inclusive_columns.
  rewrite (py_bind_ok _ _ _ _ _ (get_gf_ok _ _ _ Hself1)).
  simpl in Hexc1, Hinc1, Hgr1, Hn1, Hg1. rewrite Hexc1. fold exc inc.
  assert (put_gf self (set_inc_metrics inc gf1) w1 = (Ok tt, w1)) as Hput.
  { unfold put_gf. f_equal. apply world_eq; simpl; [done | done |].
    apply list_insert_id. rewrite Hself1. f_equal.
    destruct gf1. unfold set_inc_metrics. simpl in *. by rewrite Hinc1. }
  rewrite (py_bind_ok _ _ _ _ _ Hput).
  unfold GraphFrame.subgraph_sum.
  rewrite (py_bind_ok _ _ _ _ _ (get_gf_ok _ _ _ Hself1)).
  assert (graphs w1 !! graph gf1 = Some g) as Hg' by (by rewrite Hg1, Hgr1).
  rewrite (py_bind_ok _ _ _ _ _ (get_graph_ok _ _ _ Hg')).
  rewrite (py_bind_ok get_nodes _ _ _ (nodes w1) eq_refl).
  rewrite Hn1. change (nodes w0) with (nodes w) in Htree.
  rewrite (py_bind_ok (lift _) _ _ _ tree (f_equal (λ r, (r, w1)) Htree)).
  destruct tree.
  - unfold GraphFrame.subtree_sum. by rewrite (py_bind_ok _ _ _ _ _ Hinit1).
  - unfold GraphFrame.subgraph_sum_fallback. by rewrite (py_bind_ok _ _ _ _ _ Hinit1).
Qed.

Lemma update_inclusive_columns_twice_witness :
  GraphFrame.update_inclusive_columns 0
    (GraphFrame.update_inclusive_columns 0 chain_world).2
  = (Ok tt, (GraphFrame.update_inclusive_columns 0 chain_world).2).
Proof.
  apply (update_inclusive_columns_twice chain_world
           (GraphFrame.update_inclusive_columns 0 chain_world).2 0
           (mkGF 0 (mkDF ["node"] ["time"]
                      [time_row 0 2; time_row 1 3; time_row 2 4; time_row 3 5])
              ["time"] [])).
  - reflexivity.
  - intros m Hm Hin. apply list_elem_of_singleton in Hm as ->.
    apply list_elem_of_singleton in Hin. discriminate.
  - vm_compute. reflexivity.
Defined.

(** ** squash keeps the totals of the exclusive metrics *)

Lemma cells_total_app (cs1 cs2 : list cell) :
  cells_total (cs1 ++ cs2) = (cells_total cs1 + cells_total cs2)%Z.
Proof.
  induction cs1 as [|c cs1 IH]; [done |].
  simpl. destruct c; rewrite IH; lia.
Qed.

Lemma for_each_cell_add (cs : list cell) (a : Z) :
  Forall (λ c, ∃ z, c = Num z) cs →
  for_each (λ x acc, cell_add acc x) cs (Num a) = Ok (Num (a + cells_total cs)).
Proof.
  intros Hcs. revert a. induction Hcs as [|c cs [z ->] _ IH]; intros a.
  - simpl. by rewrite Z.add_0_r.
  - rewrite for_each_cons. simpl. rewrite IH. do 2 f_equal. lia.
Qed.

(** [np.sum] of numbers is their total *)
Lemma np_sum_total (cs : list cell) :
  Forall (λ c, ∃ z, c = Num z) cs → np_sum cs = Ok (Num (cells_total cs)).
Proof.
  intros Hcs. destruct Hcs as [|c cs [z ->] Hcs]; [done |].
  unfold np_sum. by rewrite for_each_cell_add.
Qed.

Lemma column_values_app (m : string) (rs1 rs2 : list Row) :
  column_values m (rs1 ++ rs2) = column_values m rs1 ++ column_values m rs2.
Proof. unfold column_values. apply omap_app. Qed.

Lemma column_values_num (m : string) (rs : list Row) :
  (∀ r v, r ∈ rs → r_cells r !! m = Some v → ∃ z, v = Num z) →
  Forall (λ c, ∃ z, c = Num z) (column_values m rs).
Proof.
  intros Hnum. apply Forall_forall. intros c Hc.
  unfold column_values in Hc. apply list_elem_of_omap in Hc as (r & Hr & Hv). eauto.
Qed.

(** the total of a column over the groups of a table is its total over the
    rows whose key is one of the groups' *)
Lemma total_groups (m : string) (ks : list (nat * list Z)) (rs : list Row) :
  NoDup ks →
  cells_total ((λ k, Num (cells_total
                            (column_values m
                               (List.filter (λ r, bool_decide (row_key r = k)) rs))))
                 <$> ks)
  = cells_total (column_values m (List.filter (λ r, bool_decide (row_key r ∈ ks)) rs)).
Proof.
  induction 1 as [|k ks Hk _ IH].
  - rewrite fmap_nil. induction rs as [|r rs IHrs]; [done |].
    cbn [List.filter]. rewrite bool_decide_eq_false_2 by apply not_elem_of_nil.
    exact IHrs.
  - rewrite fmap_cons. cbn [cells_total foldr]. fold (cells_total
      ((λ k0, Num (cells_total
                     (column_values m
                        (List.filter (λ r, bool_decide (row_key r = k0)) rs)))) <$> ks)).
    rewrite IH. clear IH.
    induction rs as [|r rs IHrs]; [done |]. cbn [List.filter].
    destruct (decide (row_key r = k)) as [Heq|Hne].
    + rewrite (bool_decide_eq_true_2 (row_key r = k)) by done.
      rewrite (bool_decide_eq_true_2 (row_key r ∈ k :: ks)) by (rewrite Heq; by left).
      rewrite (bool_decide_eq_false_2 (row_key r ∈ ks)) by (by rewrite Heq).
      change (r :: ?l) with ([r] ++ l). rewrite !column_values_app, !cells_total_app. lia.
    + rewrite (bool_decide_eq_false_2 (row_key r = k)) by done.
      destruct (decide (row_key r ∈ ks)) as [Hin|Hnin].
      * rewrite (bool_decide_eq_true_2 (row_key r ∈ ks)) by done.
        rewrite (bool_decide_eq_true_2 (row_key r ∈ k :: ks)) by (by right).
        change (r :: ?l) with ([r] ++ l). rewrite !column_values_app, !cells_total_app. lia.
      * rewrite (bool_decide_eq_false_2 (row_key r ∈ ks)) by done.
        rewrite (bool_decide_eq_false_2 (row_key r ∈ k :: ks)); [exact IHrs |].
        by apply not_elem_of_cons.
Qed.

Lemma filter_all (rs : list Row) (P : Row → bool) :
  (∀ r, r ∈ rs → P r = true) → List.filter P rs = rs.
Proof.
  induction rs as [|r rs IH]; intros HP; [done |].
  simpl. rewrite (HP r) by (by left). f_equal. apply IH. intros r' Hr'. apply HP. by right.
Qed.

Lemma column_values_cons (m : string) (r : Row) (rs : list Row) :
  column_values m (r :: rs)
  = match r_cells r !! m with
    | Some v => v :: column_values m rs
    | None => column_values m rs
    end.
Proof. reflexivity. Qed.

Lemma column_values_Forall2 (m : string) (rs rs' : list Row) :
  Forall2 (λ r r', r_cells r' !! m = r_cells r !! m) rs rs' →
  column_values m rs' = column_values m rs.
Proof.
  induction 1 as [|r r' rs rs' Hr _ IH]; [done |].
  by rewrite !column_values_cons, Hr, IH.
Qed.

(** the column of a metric after [groupby(...).agg]: the totals of the groups *)
Lemma groupby_agg_column (metrics : list string) (df df' : DataFrame) (m : string) :
  groupby_agg metrics df = Ok df' →
  m ∈ metrics → m ∈ columns df →
  (∀ r v, r ∈ rows df → r_cells r !! m = Some v → ∃ z, v = Num z) →
  column_values m (rows df')
  = (λ k, Num (cells_total
                 (column_values m
                    (List.filter (λ r, bool_decide (row_key r = k)) (rows df)))))
      <$> remove_dups (row_key <$> rows df).
Proof.
  unfold groupby_agg. intros Hrun Hm Hcol Hnum.
  destruct (mapM _ _) as [rs|] eqn:Hmap; simpl in Hrun; [| discriminate].
  injection Hrun as <-. simpl. apply mapM_result_inv in Hmap.
  induction Hmap as [|k r ks rs Hk _ IH]; [done |].
  rewrite fmap_cons, <- IH. clear IH.
  destruct (agg_group _ _ _) as [cs|] eqn:Hagg; simpl in Hk; [| discriminate].
  injection Hk as <-. unfold agg_group in Hagg.
  pose proof (agg_group_by_lookup np_sum _ _ _ _ _ Hagg m) as Hlk.
  rewrite decide_True, decide_True in Hlk by done.
  rewrite np_sum_total in Hlk.
  - rewrite column_values_cons. simpl. by rewrite Hlk.
  - apply column_values_num. intros r v Hr. apply Hnum.
    apply list_elem_of_In, List.filter_In in Hr as [Hr _]. by apply list_elem_of_In.
Qed.

Lemma groupby_agg_total (metrics : list string) (df df' : DataFrame) (m : string) :
  groupby_agg metrics df = Ok df' →
  m ∈ metrics → m ∈ columns df →
  (∀ r v, r ∈ rows df → r_cells r !! m = Some v → ∃ z, v = Num z) →
  Forall (λ c, ∃ z, c = Num z) (column_values m (rows df'))
  ∧ cells_total (column_values m (rows df')) = cells_total (column_values m (rows df)).
Proof.
  intros Hrun Hm Hcol Hnum.
  rewrite (groupby_agg_column _ _ _ _ Hrun Hm Hcol Hnum). split.
  - apply Forall_fmap, Forall_true. intros k. simpl. eauto.
  - rewrite total_groups by apply NoDup_remove_dups.
    rewrite filter_all; [done |]. intros r Hr. apply bool_decide_eq_true_2.
    apply elem_of_remove_dups, list_elem_of_fmap. eauto.
Qed.

(** X15: squash keeps the total of every exclusive metric.  For a column [m]
    of numbers that is an exclusive metric (and not named as the inclusive
    column of one), [np.sum] over the column of the new table is [np.sum]
    over the column of the old table: the rows merged into one node are
    added, none is dropped or counted twice.  (Numbers are integers here, so
    the additions are exact.) *)
Theorem squash_keeps_metric_totals (w w' : world) (self new : nat) (gf : GraphFrame)
    (m : string) :
  gframes w !! self = Some gf →
  GraphFrame.squash self w = (Ok new, w') →
  m ∈ exc_metrics gf →
  m ∈ columns (dataframe gf) →
  (∀ x, x ∈ exc_metrics gf → m ≠ x +:+ " (inc)") →
  (∀ r v, r ∈ rows (dataframe gf) → r_cells r !! m = Some v → ∃ z, v = Num z) →
  ∃ gf' t, gframes w' !! new = Some gf'
           ∧ np_sum (column_values m (rows (dataframe gf))) = Ok (Num t)
           ∧ np_sum (column_values m (rows (dataframe gf'))) = Ok (Num t).
Proof.
  intros Hself Hrun Hm Hcol Hname Hnum.
  destruct (squash_inv w w' self new gf Hself Hrun)
    as (g & old_to_new & ns1 & st & ns3 & df1 & ns4 & gr & merges & df2 & agg_df
        & _ & _ & _ & _ & Hdf1 & _ & Hdf2 & Hagg & _ & -> & Hinc).
  apply df_apply_node_ok in Hdf1 as (Hc1 & _ & HF1).
  apply df_apply_node_ok in Hdf2 as (Hc2 & _ & HF2).
  assert (column_values m (rows df2) = column_values m (rows (dataframe gf))) as Hvals.
  { etrans; [apply (column_values_Forall2 m (rows df1)) |
             apply (column_values_Forall2 m (rows (dataframe gf)))].
    - eapply Forall2_impl; [exact HF2 |]. by intros r r' (_ & _ & ->).
    - eapply Forall2_impl; [exact HF1 |]. by intros r r' (_ & _ & ->). }
  destruct (groupby_agg_total _ _ _ m Hagg) as [Hnum' Htot].
  { apply elem_of_app. by left. }
  { by rewrite Hc2, Hc1. }
  { intros r v Hr Hv.
    destruct (Forall2_elem_r _ _ _ _ HF2 Hr) as (r1 & Hr1 & _ & _ & Hcs1).
    destruct (Forall2_elem_r _ _ _ _ HF1 Hr1) as (r0 & Hr0 & _ & _ & Hcs0).
    apply (Hnum r0 v Hr0). by rewrite <- Hcs0, <- Hcs1. }
  rewrite Hvals in Htot.
  set (gfn := mkGF (length (graphs w)) agg_df (exc_metrics gf) (inc_metrics gf)) in *.
  assert (gframes (mkWorld ns4 (graphs w ++ [gr]) (gframes w ++ [gfn]))
            !! length (gframes w) = Some gfn) as Hnew.
  { simpl. by rewrite lookup_app_r, Nat.sub_diag. }
  pose proof (keeps_writes_update_inclusive_columns _ _ _ _ gfn Hnew Hinc)
    as (_ & _ & _ & _ & Hgf).
  destruct (Hgf (set_inc_metrics ((λ s, s +:+ " (inc)") <$> exc_metrics gfn) gfn))
    as (gf' & Hgf' & _ & _ & _ & _ & _ & HF).
  { simpl. apply list_lookup_insert_eq. rewrite length_app. simpl. lia. }
  simpl in HF.
  assert (column_values m (rows (dataframe gf')) = column_values m (rows agg_df)) as Hvals'.
  { apply column_values_Forall2. eapply Forall2_impl; [exact HF |].
    intros r r' [_ Hoff]. apply Hoff. intros Hin.
    apply list_elem_of_fmap in Hin as (x & -> & Hx). by apply (Hname x Hx). }
  exists gf', (cells_total (column_values m (rows (dataframe gf)))).
  split; [exact Hgf' |]. split.
  - apply np_sum_total, column_values_num, Hnum.
  - rewrite Hvals', <- Htot. by apply np_sum_total.
Qed.

Lemma squash_keeps_metric_totals_witness :
  ∃ gf' t, gframes (GraphFrame.squash 0 elide_world).2 !! 1%nat = Some gf'
           ∧ np_sum [Num 1; Num 10; Num 100; Num 1000; Num 10000] = Ok (Num t)
           ∧ np_sum (column_values "time" (rows (dataframe gf'))) = Ok (Num t).
Proof.
  apply (squash_keeps_metric_totals elide_world (GraphFrame.squash 0 elide_world).2 0 1
           (mkGF 0 (mkDF ["node"] ["time"]
                      [time_row 0 1; time_row 3 10; time_row 4 100; time_row 5 1000;
                       time_row 6 10000]) ["time"] [])
           "time").
  - reflexivity.
  - vm_compute. reflexivity.
  - by left.
  - by left.
  - intros x Hx. apply list_elem_of_singleton in Hx as ->. discriminate.
  - intros r v Hr. repeat (apply elem_of_cons in Hr as [->|Hr]);
      [.. | by apply elem_of_nil in Hr]; intros [= <-]; eauto.
Defined.

(** ** A.sub(A) *)





